(** * A shallow embedding of the Huffman file compressor

    The development follows the C++ sources: [hashmap.cpp] (the frequency
    table), [bitstream.h] (bit-level streams), [util.h] (frequency
    analysis, tree construction, encoding map, encode, decode, compress,
    decompress) and the "Encode data" choice of the driver.  Definitions
    come first, theorems afterwards. *)

From Stdlib Require Import ZArith Ascii String List Lia.
From stdpp Require Import base numbers list gmap.

Local Open Scope Z_scope.

(* ===================================================================== *)
(** ** Machine integers and characters *)
(* ===================================================================== *)

(** [int] is a 32-bit two's complement integer; arithmetic on it is written
    on [Z] followed by [to_int], which wraps around. *)
Definition INT_MIN : Z := -2147483648.
Definition INT_MAX : Z := 2147483647.

Definition is_int (z : Z) : Prop := INT_MIN ≤ z ≤ INT_MAX.

Definition to_int (z : Z) : Z := (z + 2147483648) `mod` 4294967296 - 2147483648.

(** Conversion to [unsigned int]. *)
Definition to_unsigned (z : Z) : Z := z `mod` 4294967296.

(** Whether plain [char] is signed is chosen by the C++ implementation
    (signed for g++ on x86, unsigned on ARM Linux); the model leaves the
    choice open. *)
Class Platform := { char_is_signed : bool }.

(** A byte of a file or of a [std::string] is an [ascii]. [int_of_char]
    is the conversion [int(c)] of a [char]; [char_of_int] is [char(i)]. *)
Definition byte_value (c : ascii) : Z := Z.of_N (N_of_ascii c).

Definition int_of_char `{Platform} (c : ascii) : Z :=
  let n := byte_value c in
  if char_is_signed && (128 <=? n) then n - 256 else n.

Definition char_of_int (i : Z) : ascii := ascii_of_N (Z.to_N (i `mod` 256)).

(** The constants of [bitstream.h]. *)
Definition PSEUDO_EOF : Z := 256.
Definition NOT_A_CHAR : Z := 257.
Definition NUM_BITS_IN_BYTE : Z := 8.
(** [EOF] of <cstdio>, returned by [get()] and [readBit()] at end of input. *)
Definition EOF : Z := -1.

(* ===================================================================== *)
(** ** Outcomes of C++ calls *)
(* ===================================================================== *)

(** What a [throw] carries: the string literal thrown by [hashmap::get], or
    one of the two standard exceptions of [std::stoi]. *)
Inductive exn : Type :=
| exn_cstr (what : string)
| invalid_argument
| out_of_range.

(** A call returns, throws, has undefined behaviour (an out-of-bounds
    access or a null dereference), or loops for ever.  [OutOfFuel] is the
    model's own: a loop function ran out of its recursion budget. *)
Inductive outcome (A : Type) : Type :=
| Ret (a : A)
| Throw (e : exn)
| Undefined
| Diverges
| OutOfFuel.
Arguments Ret {A} a.
Arguments Throw {A} e.
Arguments Undefined {A}.
Arguments Diverges {A}.
Arguments OutOfFuel {A}.

#[export] Instance outcome_ret : MRet outcome := λ A a, Ret a.
#[export] Instance outcome_bind : MBind outcome := λ A B f m,
  match m with
  | Ret a => f a
  | Throw e => Throw e
  | Undefined => Undefined
  | Diverges => Diverges
  | OutOfFuel => OutOfFuel
  end.

(* ===================================================================== *)
(** ** hashmap.cpp *)
(* ===================================================================== *)

(** A bucket is the linked list of [key_val_pair]s: the pair is
    [(key, value)], [next] is the tail and [nullptr] the empty list. *)
Abbreviation bucket := (list (Z * Z)).

Record hashmap : Type := mk_hashmap {
  buckets : list bucket;
  nBuckets : Z;
  nElems : Z
}.

Definition createBucketArray (nBuckets : Z) : list bucket :=
  replicate (Z.to_nat nBuckets) [].

(** The constructor [hashmap::hashmap()]. *)
Definition new_hashmap : hashmap :=
  {| nBuckets := 10; nElems := 0; buckets := createBucketArray 10 |}.

Definition hashFunction (input : Z) : Z :=
  let temp := to_unsigned (to_int (Z.lxor (input ≫ 16) input * 0x45d9f3b)) in
  let temp := to_unsigned (Z.lxor (temp ≫ 16) temp * 0x45d9f3b) in
  let temp := Z.lxor (temp ≫ 16) temp in
  let hash := to_int temp in
  if hash <? 0 then to_int (hash * -1) else hash.

(** [buckets[i]]: reading outside the array is undefined. *)
Definition bucket_at (m : hashmap) (i : Z) : outcome bucket :=
  if 0 <=? i then
    match buckets m !! Z.to_nat i with
    | Some node => Ret node
    | None => Undefined
    end
  else Undefined.

(** [bucketChoice % nBuckets] with C++'s truncating remainder. *)
Definition bucket_index (m : hashmap) (key : Z) : Z :=
  let bucketChoice := hashFunction key in
  Z.rem bucketChoice (nBuckets m).

(** The traversal of [put]: overwrite the first node holding [key];
    the flag tells whether one was found. *)
Fixpoint put_chain (node : bucket) (key value : Z) : bucket * bool :=
  match node with
  | [] => ([], false)
  | (k, v) :: next =>
      if k =? key then ((k, value) :: next, true)
      else let '(next', flag) := put_chain next key value in
           ((k, v) :: next', flag)
  end.

Definition put (m : hashmap) (key value : Z) : outcome hashmap :=
  let i := bucket_index m key in
  node ← bucket_at m i;
  match node with
  | [] =>
      Ret {| buckets := <[Z.to_nat i := [(key, value)]]> (buckets m);
             nBuckets := nBuckets m;
             nElems := to_int (nElems m + 1) |}
  | _ =>
      let '(chain, flag) := put_chain node key value in
      if flag then
        Ret {| buckets := <[Z.to_nat i := chain]> (buckets m);
               nBuckets := nBuckets m;
               nElems := nElems m |}
      else
        Ret {| buckets := <[Z.to_nat i := chain ++ [(key, value)]]> (buckets m);
               nBuckets := nBuckets m;
               nElems := to_int (nElems m + 1) |}
  end.

Fixpoint get_chain (node : bucket) (key : Z) : option Z :=
  match node with
  | [] => None
  | (k, v) :: next => if k =? key then Some v else get_chain next key
  end.

Definition get (m : hashmap) (key : Z) : outcome Z :=
  let i := bucket_index m key in
  node ← bucket_at m i;
  let saveValue := 0 in
  match node with
  | [] => Throw (exn_cstr "Error: Key is not in map.")
  | _ =>
      match get_chain node key with
      | Some v => Ret v
      | None => Ret saveValue
      end
  end.

Definition containsKey (m : hashmap) (key : Z) : outcome bool :=
  let i := bucket_index m key in
  nodeCheck ← bucket_at m i;
  Ret (bool_decide (is_Some (get_chain nodeCheck key))).

Definition keys (m : hashmap) : list Z :=
  flat_map (λ i, match buckets m !! i with
                 | Some node => node.*1
                 | None => []
                 end)
           (seq 0 (Z.to_nat (nBuckets m))).

Definition size (m : hashmap) : Z := nElems m.

(** The loop shared by the copy constructor and [operator=]:
    [put(key, myMap.get(key))] for every key of [myMap]. *)
Fixpoint copy_entries (this myMap : hashmap) (ks : list Z) : outcome hashmap :=
  match ks with
  | [] => Ret this
  | key :: rest =>
      value ← get myMap key;
      this ← put this key value;
      copy_entries this myMap rest
  end.

(** The copy constructor [hashmap(const hashmap &myMap)].  It sets
    [nBuckets] and [buckets] and does not initialise the member [nElems]:
    [uninit] is the value that member happens to hold. *)
Definition copy_hashmap (uninit : Z) (myMap : hashmap) : outcome hashmap :=
  let this := {| nBuckets := nBuckets myMap;
                 buckets := createBucketArray (nBuckets myMap);
                 nElems := uninit |} in
  copy_entries this myMap (keys myMap).

(** The first loop of [operator=]: [buckets[i] = nullptr] for
    [i < nBuckets], once the nodes are deleted. *)
Definition clear_buckets (m : hashmap) : outcome (list bucket) :=
  let n := Z.to_nat (nBuckets m) in
  if (n <=? length (buckets m))%nat
  then Ret (replicate n [] ++ drop n (buckets m))
  else Undefined.

(** [*this = myMap].  [myMap] is [None] when it is the object assigned
    to ([this == &myMap]). *)
Definition operator_assign (this : hashmap) (myMap : option hashmap) : outcome hashmap :=
  match myMap with
  | None => Ret this
  | Some myMap =>
      bs ← clear_buckets this;
      let this := {| buckets := bs; nBuckets := nBuckets this; nElems := 0 |} in
      copy_entries this myMap (keys myMap)
  end.

(* ===================================================================== *)
(** ** Streams: <ostream>, <istream> and bitstream.h *)
(* ===================================================================== *)

Definition GetNthBit (n fromByte : Z) : Z :=
  if Z.land fromByte (1 ≪ n) =? 0 then 0 else 1.

Definition SetNthBit (n inByte : Z) : Z := Z.lor inByte (1 ≪ n).

(** An [obitstream] writing to a file: the bytes of the file, the put
    position, and the three private members of the class. *)
Record obitstream : Type := mk_obitstream {
  obuf : list ascii;
  ppos : nat;
  o_lastTell : Z;
  o_curByte : Z;
  o_pos : Z;
  o_fake : bool
}.

(** A stream just opened on a new (truncated) file. *)
Definition new_obitstream : obitstream :=
  {| obuf := []; ppos := 0; o_lastTell := 0; o_curByte := 0;
     o_pos := NUM_BITS_IN_BYTE; o_fake := false |}.

Definition tellp (s : obitstream) : Z := Z.of_nat (ppos s).

(** [put(c)]: write one byte at the put position, over the byte that is
    there or at the end of the file. *)
Definition ostream_put (s : obitstream) (c : ascii) : obitstream :=
  {| obuf := take (ppos s) (obuf s) ++ c :: drop (S (ppos s)) (obuf s);
     ppos := S (ppos s);
     o_lastTell := o_lastTell s; o_curByte := o_curByte s;
     o_pos := o_pos s; o_fake := o_fake s |}.

(** [seekp(off, std::ios::cur)]. *)
Definition seekp_cur (s : obitstream) (off : Z) : obitstream :=
  {| obuf := obuf s;
     ppos := Z.to_nat (Z.of_nat (ppos s) + off);
     o_lastTell := o_lastTell s; o_curByte := o_curByte s;
     o_pos := o_pos s; o_fake := o_fake s |}.

(** [out << str] for a string. *)
Definition ostream_write (s : obitstream) (str : list ascii) : obitstream :=
  foldl ostream_put s str.

Definition set_obits (s : obitstream) (lastTell curByte pos : Z) : obitstream :=
  {| obuf := obuf s; ppos := ppos s;
     o_lastTell := lastTell; o_curByte := curByte; o_pos := pos;
     o_fake := o_fake s |}.

Definition writeBit (s : obitstream) (bit : Z) : obitstream :=
  if o_fake s then ostream_put s (if bit =? 1 then "1"%char else "0"%char)
  else
    let s :=
      if negb (o_lastTell s =? tellp s) || (o_pos s =? NUM_BITS_IN_BYTE)
      then set_obits s (o_lastTell s) 0 0 else s in
    let s :=
      if negb (bit =? 0)
      then set_obits s (o_lastTell s) (SetNthBit (o_pos s) (o_curByte s)) (o_pos s)
      else s in
    let s :=
      if (o_pos s =? 0) || negb (bit =? 0) then
        let s := if negb (o_pos s =? 0) then seekp_cur s (-1) else s in
        ostream_put s (char_of_int (o_curByte s))
      else s in
    set_obits s (tellp s) (o_curByte s) (o_pos s + 1).

(** An [ibitstream] reading a file: the bytes of the file, the get
    position, the two state flags used here, and the private members. *)
Record ibitstream : Type := mk_ibitstream {
  ibuf : list ascii;
  gpos : nat;
  eofbit : bool;
  failbit : bool;
  i_lastTell : Z;
  i_curByte : Z;
  i_pos : Z;
  i_fake : bool
}.

Definition open_ibitstream (file : list ascii) : ibitstream :=
  {| ibuf := file; gpos := 0; eofbit := false; failbit := false;
     i_lastTell := 0; i_curByte := 0; i_pos := NUM_BITS_IN_BYTE;
     i_fake := false |}.

Definition eof (s : ibitstream) : bool := eofbit s.

(** [tellg()] is [-1] once the stream has failed. *)
Definition tellg (s : ibitstream) : Z :=
  if failbit s then -1 else Z.of_nat (gpos s).

(** The unread part of the file. *)
Definition unread (s : ibitstream) : list ascii := drop (gpos s) (ibuf s).

(** [int get()]: the next byte as a value in 0..255, or [EOF]; at the end
    of the file it sets [eofbit] and [failbit], and a stream that is not
    good only sets [failbit]. *)
Definition istream_get (s : ibitstream) : Z * ibitstream :=
  if negb (eofbit s) && negb (failbit s) then
    match ibuf s !! gpos s with
    | Some c =>
        (byte_value c,
         {| ibuf := ibuf s; gpos := S (gpos s); eofbit := false; failbit := false;
            i_lastTell := i_lastTell s; i_curByte := i_curByte s;
            i_pos := i_pos s; i_fake := i_fake s |})
    | None =>
        (EOF,
         {| ibuf := ibuf s; gpos := gpos s; eofbit := true; failbit := true;
            i_lastTell := i_lastTell s; i_curByte := i_curByte s;
            i_pos := i_pos s; i_fake := i_fake s |})
    end
  else
    (EOF,
     {| ibuf := ibuf s; gpos := gpos s; eofbit := eofbit s; failbit := true;
        i_lastTell := i_lastTell s; i_curByte := i_curByte s;
        i_pos := i_pos s; i_fake := i_fake s |}).

Definition set_ibits (s : ibitstream) (lastTell curByte pos : Z) : ibitstream :=
  {| ibuf := ibuf s; gpos := gpos s; eofbit := eofbit s; failbit := failbit s;
     i_lastTell := lastTell; i_curByte := curByte; i_pos := pos;
     i_fake := i_fake s |}.

Definition readBit (s : ibitstream) : Z * ibitstream :=
  if i_fake s then
    let '(bit, s) := istream_get s in
    (if (bit =? 0) || (bit =? 48) then 0 else 1, s)
  else if negb (i_lastTell s =? tellg s) || (i_pos s =? NUM_BITS_IN_BYTE) then
    let '(c, s) := istream_get s in
    let s := set_ibits s (i_lastTell s) c (i_pos s) in
    if c =? EOF then (EOF, s)
    else
      let s := set_ibits s (tellg s) (i_curByte s) 0 in
      (GetNthBit (i_pos s) (i_curByte s),
       set_ibits s (i_lastTell s) (i_curByte s) (i_pos s + 1))
  else
    (GetNthBit (i_pos s) (i_curByte s),
     set_ibits s (i_lastTell s) (i_curByte s) (i_pos s + 1)).

(** [clear()]: the state flags are reset. *)
Definition istream_clear (s : ibitstream) : ibitstream :=
  {| ibuf := ibuf s; gpos := gpos s; eofbit := false; failbit := false;
     i_lastTell := i_lastTell s; i_curByte := i_curByte s; i_pos := i_pos s;
     i_fake := i_fake s |}.

(** [seekg(0, std::ios::beg)]: [eofbit] is cleared, and the get position
    is set unless the stream has failed. *)
Definition seekg_beg (s : ibitstream) : ibitstream :=
  {| ibuf := ibuf s; gpos := if failbit s then gpos s else 0%nat;
     eofbit := false; failbit := failbit s;
     i_lastTell := i_lastTell s; i_curByte := i_curByte s; i_pos := i_pos s;
     i_fake := i_fake s |}.

(** [ibitstream::rewind()]. *)
Definition rewind (s : ibitstream) : ibitstream := seekg_beg (istream_clear s).

(** [setFake(fake)] of the two classes. *)
Definition obitstream_setFake (s : obitstream) (fake : bool) : obitstream :=
  {| obuf := obuf s; ppos := ppos s; o_lastTell := o_lastTell s;
     o_curByte := o_curByte s; o_pos := o_pos s; o_fake := fake |}.

Definition ibitstream_setFake (s : ibitstream) (fake : bool) : ibitstream :=
  {| ibuf := ibuf s; gpos := gpos s; eofbit := eofbit s; failbit := failbit s;
     i_lastTell := i_lastTell s; i_curByte := i_curByte s; i_pos := i_pos s;
     i_fake := fake |}.

(* ===================================================================== *)
(** ** Decimal text: [out << int] and [std::stoi] *)
(* ===================================================================== *)

Definition digit_char (d : Z) : ascii := ascii_of_N (Z.to_N (48 + d)).

(** The decimal digits of [n >= 0], most significant first, in front of
    [acc].  An [int] has at most ten digits. *)
Fixpoint digits_of (fuel : nat) (n : Z) (acc : list ascii) : list ascii :=
  match fuel with
  | O => acc
  | S fuel' =>
      let acc' := digit_char (n `mod` 10) :: acc in
      if n `div` 10 =? 0 then acc' else digits_of fuel' (n `div` 10) acc'
  end.

(** The text [out << i] writes for an [int]. *)
Definition string_of_int (i : Z) : list ascii :=
  if i <? 0 then "-"%char :: digits_of 10 (- i) [] else digits_of 10 i [].

Definition isspace (c : ascii) : bool :=
  let n := byte_value c in (n =? 32) || ((9 <=? n) && (n <=? 13)).

Definition isdigit (c : ascii) : bool :=
  let n := byte_value c in (48 <=? n) && (n <=? 57).

Fixpoint skip_space (s : list ascii) : list ascii :=
  match s with
  | c :: s' => if isspace c then skip_space s' else s
  | [] => []
  end.

(** The leading digits of [s]: their value on top of [acc] and whether
    there was at least one. *)
Fixpoint read_digits (s : list ascii) (acc : Z) (any : bool) : Z * bool :=
  match s with
  | c :: s' =>
      if isdigit c then read_digits s' (acc * 10 + (byte_value c - 48)) true
      else (acc, any)
  | [] => (acc, any)
  end.

(** [std::stoi(s)]: leading white space, an optional sign, decimal digits;
    what follows the digits is ignored. *)
Definition stoi (s : list ascii) : outcome Z :=
  let s := skip_space s in
  let '(negative, s) :=
    match s with
    | c :: s' =>
        if Ascii.eqb c "-" then (true, s')
        else if Ascii.eqb c "+" then (false, s')
        else (false, s)
    | [] => (false, s)
    end in
  let '(v, any) := read_digits s 0 false in
  if any then
    let v := if negative then - v else v in
    if (INT_MIN <=? v) && (v <=? INT_MAX) then Ret v else Throw out_of_range
  else Throw invalid_argument.

(** [s.find(c)]: [None] is [npos]. *)
Fixpoint find_char (c : ascii) (s : list ascii) : option nat :=
  match s with
  | [] => None
  | c' :: s' => if Ascii.eqb c' c then Some O else S <$> find_char c s'
  end.

(** [s.substr(pos, n)]. *)
Definition substr (s : list ascii) (pos n : nat) : outcome (list ascii) :=
  if (length s <? pos)%nat then Throw out_of_range
  else Ret (take n (drop pos s)).

(* ===================================================================== *)
(** ** hashmap.cpp: the stream operators *)
(* ===================================================================== *)

(** The loop of [operator<<] over [keys]; [i < keys.size() - 1] holds
    exactly when keys remain after the current one. *)
Fixpoint print_entries (out : obitstream) (myMap : hashmap) (ks : list Z)
  : outcome obitstream :=
  match ks with
  | [] => Ret out
  | key :: rest =>
      value ← get myMap key;
      let out := ostream_write out (string_of_int key) in
      let out := ostream_write out [":"%char] in
      let out := ostream_write out (string_of_int value) in
      let out :=
        match rest with
        | [] => out
        | _ => ostream_write out [","%char; " "%char]
        end in
      print_entries out myMap rest
  end.

(** [out << myMap]. *)
Definition operator_out (out : obitstream) (myMap : hashmap) : outcome obitstream :=
  let out := ostream_write out ["{"%char] in
  out ← print_entries out myMap (keys myMap);
  Ret (ostream_write out ["}"%char]).

(** The inner loop of [operator>>]: collect characters up to [','] or
    ['}'].  Once [get()] has returned [EOF] it returns [EOF] for ever, so
    the loop does not end. *)
Fixpoint read_token (fuel : nat) (inp : ibitstream) (nextChar : Z)
    (nextInput : list ascii) : outcome (ibitstream * Z * list ascii) :=
  if (nextChar =? 44) || (nextChar =? 125) then Ret (inp, nextChar, nextInput)
  else if nextChar =? EOF then Diverges
  else
    match fuel with
    | O => OutOfFuel
    | S fuel' =>
        let '(c, inp) := istream_get inp in
        read_token fuel' inp c (nextInput ++ [char_of_int nextChar])
    end.

(** [myMap.put(stoi(...), stoi(...))] on a token of the form [1:2]. *)
Definition put_token (myMap : hashmap) (nextInput : list ascii) : outcome hashmap :=
  let len := length nextInput in
  '(ktext, vtext) ←
    match find_char ":" nextInput with
    | Some pos =>
        k ← substr nextInput 0 pos;
        v ← substr nextInput (pos + 1) (len - 1);
        Ret (k, v)
    | None =>
        (* [pos] is [npos], and [npos + 1] wraps to 0 *)
        k ← substr nextInput 0 len;
        v ← substr nextInput 0 (len - 1);
        Ret (k, v)
    end;
  key ← stoi ktext;
  value ← stoi vtext;
  put myMap key value.

(** The outer loop of [operator>>]. *)
Fixpoint read_entries (fuel : nat) (inp : ibitstream) (nextChar : Z)
    (myMap : hashmap) : outcome (ibitstream * hashmap) :=
  match fuel with
  | O => OutOfFuel
  | S fuel' =>
      '(inp, nextChar, nextInput) ← read_token (S (length (ibuf inp))) inp nextChar [];
      let '(inp, nextChar, done) :=
        if nextChar =? 44 then
          let '(_, inp) := istream_get inp in
          let '(c, inp) := istream_get inp in
          (inp, c, false)
        else (inp, nextChar, true) in
      myMap ←
        match nextInput with
        | [] => Ret myMap
        | _ => put_token myMap nextInput
        end;
      if done then Ret (inp, myMap) else read_entries fuel' inp nextChar myMap
  end.

(** [in >> myMap]. *)
Definition operator_in (inp : ibitstream) (myMap : hashmap)
  : outcome (ibitstream * hashmap) :=
  let '(_, inp) := istream_get inp in
  let '(nextChar, inp) := istream_get inp in
  read_entries (S (length (ibuf inp))) inp nextChar myMap.

(* ===================================================================== *)
(** ** util.h *)
(* ===================================================================== *)

(** A value of this type is a [HuffmanNode*] together with the nodes it
    owns: [nullptr], or a node with its four members. *)
Inductive HuffmanNode : Type :=
| nullptr
| Node (character count : Z) (zero one : HuffmanNode).

Definition node_character (n : HuffmanNode) : Z :=
  match n with Node c _ _ _ => c | nullptr => 0 end.

Definition node_count (n : HuffmanNode) : Z :=
  match n with Node _ c _ _ => c | nullptr => 0 end.

(** [typedef unordered_map<int, string> hashmapE]. *)
Abbreviation hashmapE := (gmap Z (list ascii)).

(** [std::priority_queue<HuffmanNode*, vector<HuffmanNode*>, prioritize>]
    is the C++ library's.  The standard fixes what [push], [top], [pop]
    and [size] do to the collection of elements and that [top] is an
    element no other element is ordered before (here: one of least
    [count]); which of several nodes of equal count comes out first is
    left to the library.  The model takes any queue with these laws. *)
Class PriorityQueue : Type := {
  priority_queue : Type;
  pq_empty : priority_queue;
  pq_push : priority_queue → HuffmanNode → priority_queue;
  pq_top : priority_queue → option HuffmanNode;
  pq_pop : priority_queue → priority_queue;
  pq_size : priority_queue → nat;
  pq_elements : priority_queue → list HuffmanNode;
  pq_elements_empty : pq_elements pq_empty = [];
  pq_elements_push q x : pq_elements (pq_push q x) ≡ₚ x :: pq_elements q;
  pq_size_elements q : pq_size q = length (pq_elements q);
  pq_top_pop q :
    pq_elements q ≠ [] →
    ∃ x, pq_top q = Some x
       ∧ pq_elements q ≡ₚ x :: pq_elements (pq_pop q)
       ∧ Forall (λ y, node_count x ≤ node_count y) (pq_elements q)
}.

Section Codec.
Context {PF : Platform} {PQ : PriorityQueue}.

(** [pq.top()]; on an empty queue it is undefined. *)
Definition top (pq : priority_queue) : outcome HuffmanNode :=
  match pq_top pq with
  | Some node => Ret node
  | None => Undefined
  end.

Definition char_to_hash (c : ascii) (h : hashmap) : outcome hashmap :=
  contains ← containsKey h (int_of_char c);
  if contains : bool then
    v ← get h (int_of_char c);
    put h (int_of_char c) (to_int (v + 1))
  else
    put h (int_of_char c) 1.

(** Both loops of [buildFrequencyMap] call [char_to_hash] on every
    character of the source in order. *)
Fixpoint count_chars (source : list ascii) (map : hashmap) : outcome hashmap :=
  match source with
  | [] => Ret map
  | c :: source' => map ← char_to_hash c map; count_chars source' map
  end.

(** [source] is what is read: the bytes of the file named [filename] when
    [isFile] (none if it cannot be opened), the characters of [filename]
    itself otherwise. *)
Definition buildFrequencyMap (source : list ascii) (map : hashmap) : outcome hashmap :=
  map ← count_chars source map;
  put map 256 1.

(** The loop of [build_htree]; every round takes two nodes out and puts
    one in, so [pq.size()] rounds are enough. *)
Fixpoint build_htree_loop (fuel : nat) (pq : priority_queue) : outcome priority_queue :=
  if (1 <? pq_size pq)%nat then
    match fuel with
    | O => OutOfFuel
    | S fuel' =>
        first ← top pq;
        let pq := pq_pop pq in
        second ← top pq;
        let pq := pq_pop pq in
        match first, second with
        | Node _ first_count _ _, Node _ second_count _ _ =>
            let link := Node 257 (to_int (first_count + second_count)) first second in
            build_htree_loop fuel' (pq_push pq link)
        | _, _ => Undefined
        end
    end
  else Ret pq.

Definition build_htree (pq : priority_queue) : outcome priority_queue :=
  build_htree_loop (pq_size pq) pq.

(** The loop of [buildEncodingTree] over the keys. *)
Fixpoint push_leaves (map : hashmap) (k : list Z) (pq : priority_queue)
  : outcome priority_queue :=
  match k with
  | [] => Ret pq
  | e :: k' =>
      c ← get map e;
      let hnode := Node e c nullptr nullptr in
      push_leaves map k' (pq_push pq hnode)
  end.

Definition buildEncodingTree (map : hashmap) : outcome HuffmanNode :=
  let k := keys map in
  pq ← push_leaves map k pq_empty;
  pq ← build_htree pq;
  top pq.

(** [encodingMap.insert({key, str})] keeps an entry that is already there. *)
Definition map_insert (encodingMap : hashmapE) (key : Z) (str : list ascii) : hashmapE :=
  match encodingMap !! key with
  | Some _ => encodingMap
  | None => <[key := str]> encodingMap
  end.

Fixpoint _buildEncodingMap (node : HuffmanNode) (encodingMap : hashmapE)
    (str : list ascii) : outcome hashmapE :=
  match node with
  | nullptr => Undefined
  | Node character _ zero one =>
      encodingMap ←
        match zero with
        | nullptr => Ret encodingMap
        | _ => _buildEncodingMap zero encodingMap (str ++ ["0"%char])
        end;
      encodingMap ←
        match one with
        | nullptr => Ret encodingMap
        | _ => _buildEncodingMap one encodingMap (str ++ ["1"%char])
        end;
      if negb (character =? 257) then Ret (map_insert encodingMap character str)
      else Ret encodingMap
  end.

Definition buildEncodingMap (tree : HuffmanNode) : outcome hashmapE :=
  let encodingMap : hashmapE := ∅ in
  let str : list ascii := [] in
  let node := tree in
  _buildEncodingMap node encodingMap str.

(** [encodingMap[key]]: a missing key is inserted with the empty string. *)
Definition map_index (encodingMap : hashmapE) (key : Z) : list ascii * hashmapE :=
  match encodingMap !! key with
  | Some str => (str, encodingMap)
  | None => ([], <[key := []]> encodingMap)
  end.

(** One round of [encode]'s loop, also used for the end-of-file entry. *)
Definition encode_key (key : Z) (st : hashmapE * list ascii * Z)
  : hashmapE * list ascii * Z :=
  let '(encodingMap, encoded, size) := st in
  let '(str, encodingMap) := map_index encodingMap key in
  let encoded := encoded ++ str in
  let '(str, encodingMap) := map_index encodingMap key in
  let size := to_int (size + Z.of_nat (length str)) in
  (encodingMap, encoded, size).

(** [while (input.get(c))] over the bytes [input] still holds. *)
Fixpoint encode_loop (input : list ascii) (st : hashmapE * list ascii * Z)
  : hashmapE * list ascii * Z :=
  match input with
  | [] => st
  | c :: input' => encode_loop input' (encode_key (int_of_char c) st)
  end.

Definition write_bits (output : obitstream) (encoded : list ascii) : obitstream :=
  foldl (λ output c, if Ascii.eqb c "0" then writeBit output 0 else writeBit output 1)
        output encoded.

(** Returns the string, and the three objects passed by reference. *)
Definition encode (input : list ascii) (encodingMap : hashmapE) (output : obitstream)
    (size : Z) (makeFile : bool) : list ascii * hashmapE * obitstream * Z :=
  let '(encodingMap, encoded, size) := encode_loop input (encodingMap, [], size) in
  let '(encodingMap, encoded, size) := encode_key 256 (encodingMap, encoded, size) in
  let output := if makeFile then write_bits output encoded else output in
  (encoded, encodingMap, output, size).

(** The loop of [decode].  [output] is the text written to the [ofstream]
    so far.  Every round that goes on reads a bit. *)
Fixpoint decode_loop (fuel : nat) (input : ibitstream) (encodingTree node : HuffmanNode)
    (output decoded : list ascii) : outcome (list ascii * ibitstream * list ascii) :=
  if eof input then Ret (decoded, input, output)
  else
    match fuel with
    | O => OutOfFuel
    | S fuel' =>
        let read_and_move (node : HuffmanNode) (output decoded : list ascii) :=
          let '(bit, input) := readBit input in
          match node with
          | nullptr => Undefined
          | Node _ _ zero one =>
              decode_loop fuel' input encodingTree (if bit =? 0 then zero else one)
                          output decoded
          end in
        match node with
        | nullptr => Undefined
        | Node character _ _ _ =>
            if negb (character =? 257) then
              if character =? 256 then Ret (decoded, input, output)
              else
                read_and_move encodingTree
                  (output ++ [char_of_int character])
                  (decoded ++ [char_of_int character])
            else read_and_move node output decoded
        end
    end.

(** Returns the string, with the two streams passed by reference. *)
Definition decode (input : ibitstream) (encodingTree : HuffmanNode) (output : list ascii)
  : outcome (list ascii * ibitstream * list ascii) :=
  decode_loop (8 * length (ibuf input) + 9) input encodingTree encodingTree output [].

(** [compress(filename)] on the bytes [file] of the file named
    [filename]: returns the bit pattern, with the bytes written to
    [filename + ".huf"]. *)
Definition compress (file : list ascii) : outcome (list ascii * list ascii) :=
  let size := 0 in
  let frequency := new_hashmap in
  frequency ← buildFrequencyMap file frequency;
  encodingTree ← buildEncodingTree frequency;
  encodingMap ← buildEncodingMap encodingTree;
  let output := new_obitstream in
  output ← operator_out output frequency;
  let '(encoded, _, output, _) := encode file encodingMap output size true in
  Ret (encoded, obuf output).

(** [decompress(filename)] on the bytes [file] of the file named
    [filename]: returns the decoded string, with the bytes written to the
    output file. *)
Definition decompress (file : list ascii) : outcome (list ascii * list ascii) :=
  let frequency := new_hashmap in
  let bs := open_ibitstream file in
  let os : list ascii := [] in
  '(bs, frequency) ← operator_in bs frequency;
  encodingTree ← buildEncodingTree frequency;
  '(decoded, _, os) ← decode bs encodingTree os;
  Ret (decoded, os).


End Codec.

(* ===================================================================== *)
(** ** Vocabulary of the statements *)
(* ===================================================================== *)

(** *** Characters *)

(** How often the key [key] is the [int] of a character of [source]. *)
Definition occurrences `{Platform} (key : Z) (source : list ascii) : nat :=
  length (filter (λ c, int_of_char c = key) source).

(** *** Tables *)

(** The keys whose bucket index lies inside the array: the hash is never
    negative except for the one key hashed to [INT_MIN], whose remainder
    is negative. *)
Definition valid_key (key : Z) : Prop := 0 ≤ hashFunction key.

(** The bucket a key belongs to in a table of ten buckets. *)
Definition bucket_of (key : Z) : nat := Z.to_nat (Z.rem (hashFunction key) 10).

(** [constructed ops m]: [m] is the table obtained from a new table by the
    calls [put(k, v)] for the pairs of [ops], in order. *)
Inductive constructed : list (Z * Z) → hashmap → Prop :=
| constructed_new : constructed [] new_hashmap
| constructed_put ops m key value m' :
    constructed ops m →
    is_int key → is_int value →
    put m key value = Ret m' →
    constructed (ops ++ [(key, value)]) m'.

(** The states a Symbol Table can be in. *)
Definition reachable (m : hashmap) : Prop := ∃ ops, constructed ops m.

(** The keys of a sequence of [put]s in the order of their first
    occurrence. *)
Fixpoint first_keys (l : list Z) : list Z :=
  match l with
  | [] => []
  | key :: l' => key :: filter (λ x, x ≠ key) (first_keys l')
  end.

(** The value of the last [put] of [key] in a sequence of [put]s. *)
Fixpoint last_put (ops : list (Z * Z)) (key : Z) : option Z :=
  match ops with
  | [] => None
  | (k, v) :: ops' =>
      match last_put ops' key with
      | Some v' => Some v'
      | None => if k =? key then Some v else None
      end
  end.

(** The key-value pairs of a table in iteration order. *)
Definition entries (m : hashmap) : list (Z * Z) := mjoin (buckets m).

(** [put] for each pair in turn. *)
Fixpoint put_all (m : hashmap) (es : list (Z * Z)) : outcome hashmap :=
  match es with
  | [] => Ret m
  | (key, value) :: es' => m' ← put m key value; put_all m' es'
  end.

(** The representation invariant of [hashmap]. *)
Record hashmap_wf (m : hashmap) : Prop := {
  wf_nBuckets : nBuckets m = 10;
  wf_length : length (buckets m) = 10%nat;
  wf_bucket i node key value :
    buckets m !! i = Some node → (key, value) ∈ node →
    valid_key key ∧ bucket_of key = i ∧ is_int key ∧ is_int value;
  wf_nodup i node : buckets m !! i = Some node → NoDup node.*1;
  wf_nElems : nElems m = to_int (Z.of_nat (length (entries m)))
}.

(** The bucket a key is looked up in, as a list. *)
Definition chain_of (m : hashmap) (key : Z) : bucket :=
  default [] (buckets m !! bucket_of key).

(** The value a table holds for a key, if any. *)
Definition table_lookup (m : hashmap) (key : Z) : option Z :=
  get_chain (chain_of m key) key.

(** What [put] makes of the bucket of its key. *)
Definition bucket_put (node : bucket) (key value : Z) : bucket :=
  let '(chain, flag) := put_chain node key value in
  if flag : bool then chain else chain ++ [(key, value)].

(** The count held for a key after [n] more occurrences of it: the first
    occurrence of a new key stores 1, every other one adds 1 in [int]
    arithmetic. *)
Definition add_count (held : option Z) (n : nat) : option Z :=
  match n with
  | O => held
  | S _ => Some (to_int (default 0 held + Z.of_nat n))
  end.

(** *** Header text *)

Definition entry_text (e : Z * Z) : list ascii :=
  string_of_int e.1 ++ [":"%char] ++ string_of_int e.2.

(** [key:value] entries separated by a comma and a space. *)
Fixpoint entries_text (es : list (Z * Z)) : list ascii :=
  match es with
  | [] => []
  | e :: es' =>
      match es' with
      | [] => entry_text e
      | _ => entry_text e ++ [","%char; " "%char] ++ entries_text es'
      end
  end.

Definition header_text (es : list (Z * Z)) : list ascii :=
  ["{"%char] ++ entries_text es ++ ["}"%char].

(** The text [out << m] writes to a new stream. *)
Definition serialize (m : hashmap) : outcome (list ascii) :=
  out ← operator_out new_obitstream m; Ret (obuf out).

(** [in >> m] on a stream opened on [text]. *)
Definition deserialize (text : list ascii) (m : hashmap) : outcome hashmap :=
  '(_, m') ← operator_in (open_ibitstream text) m; Ret m'.

(** A character of a number is not one of the separators of the header. *)
Definition number_char (c : ascii) : Prop :=
  Ascii.eqb c ":" = false ∧ byte_value c ≠ 44 ∧ byte_value c ≠ 125.

(** A character of an entry is not one of the two characters that end it. *)
Definition token_char (c : ascii) : Prop := byte_value c ≠ 44 ∧ byte_value c ≠ 125.

(** *** Stream states *)

(** The put position is at the end of the file. *)
Definition at_end (out : obitstream) : Prop := ppos out = length (obuf out).

(** [out] once [str] has been written at its end. *)
Definition appended (out : obitstream) (str : list ascii) : obitstream :=
  {| obuf := obuf out ++ str; ppos := length (obuf out ++ str);
     o_lastTell := o_lastTell out; o_curByte := o_curByte out;
     o_pos := o_pos out; o_fake := o_fake out |}.

(** Neither [eofbit] nor [failbit] is set. *)
Definition good (s : ibitstream) : Prop := eofbit s = false ∧ failbit s = false.

(** [s] once [n] more bytes have been read with [get()]. *)
Definition advance (s : ibitstream) (n : nat) : ibitstream :=
  {| ibuf := ibuf s; gpos := gpos s + n; eofbit := eofbit s; failbit := failbit s;
     i_lastTell := i_lastTell s; i_curByte := i_curByte s;
     i_pos := i_pos s; i_fake := i_fake s |}.

(** *** Trees *)

(** The [(character, count)] pairs of the nodes without children,
    zero-branch first. *)
Fixpoint leaves (t : HuffmanNode) : list (Z * Z) :=
  match t with
  | nullptr => []
  | Node c n zero one =>
      match zero, one with
      | nullptr, nullptr => [(c, n)]
      | _, _ => leaves zero ++ leaves one
      end
  end.

(** The root-to-leaf paths, each with the leaf's character; [str] is the
    path of [t] itself. *)
Fixpoint leaf_paths (t : HuffmanNode) (str : list ascii) : list (Z * list ascii) :=
  match t with
  | nullptr => []
  | Node c _ zero one =>
      match zero, one with
      | nullptr, nullptr => [(c, str)]
      | _, _ => leaf_paths zero (str ++ ["0"%char]) ++ leaf_paths one (str ++ ["1"%char])
      end
  end.

(** The leaf [buildEncodingTree] makes for an entry of the table. *)
Definition leaf_node (e : Z * Z) : HuffmanNode := Node e.1 e.2 nullptr nullptr.

(** What [_buildEncodingMap] does at a leaf with path [e.2]: the marker
    257 is skipped, any other character is inserted. *)
Definition insert_path (encodingMap : hashmapE) (e : Z * list ascii) : hashmapE :=
  if e.1 =? 257 then encodingMap else map_insert encodingMap e.1 e.2.

(** The sum of the counts of a list of entries. *)
Definition total_count (es : list (Z * Z)) : Z := foldr (λ e acc, e.2 + acc) 0 es.

(** At every node with children the count of the zero child is at most
    the count of the one child. *)
Inductive ordered_children : HuffmanNode → Prop :=
| ordered_leaf c n : ordered_children (Node c n nullptr nullptr)
| ordered_link c n zero one :
    ordered_children zero → ordered_children one →
    node_count zero ≤ node_count one →
    ordered_children (Node c n zero one).

(** The number of nodes with children. *)
Fixpoint internal_nodes (t : HuffmanNode) : nat :=
  match t with
  | nullptr => O
  | Node _ _ zero one =>
      match zero, one with
      | nullptr, nullptr => O
      | _, _ => S (internal_nodes zero + internal_nodes one)
      end
  end.

(** The shape [build_htree] produces: a node has no child, or it has two,
    holds the marker 257 and the [int] sum of its children's counts. *)
Inductive huffman_tree : HuffmanNode → Prop :=
| huffman_leaf c n : huffman_tree (Node c n nullptr nullptr)
| huffman_link n zero one :
    huffman_tree zero → huffman_tree one →
    n = to_int (node_count zero + node_count one) →
    huffman_tree (Node 257 n zero one).

(** Every node with children holds the exact sum of its children's counts. *)
Inductive exact_counts : HuffmanNode → Prop :=
| exact_leaf c n : exact_counts (Node c n nullptr nullptr)
| exact_link c n zero one :
    exact_counts zero → exact_counts one →
    n = node_count zero + node_count one →
    exact_counts (Node c n zero one).

(** *** Bits *)

(** The eight bits [readBit] takes from a byte, in the order it reads them. *)
Definition byte_bits (c : ascii) : list Z :=
  (λ n, GetNthBit n (byte_value c)) <$> [0; 1; 2; 3; 4; 5; 6; 7].

Definition bytes_bits (l : list ascii) : list Z := l ≫= byte_bits.

(** The two characters of a bit pattern. *)
Definition is_bit_char (b : ascii) : Prop := b = "0"%char ∨ b = "1"%char.

(** The bit [encode] writes for a character of the bit pattern. *)
Definition bit_of_char (c : ascii) : Z := if Ascii.eqb c "0" then 0 else 1.

(** [writeBit] for each bit in turn. *)
Definition write_all (s : obitstream) (bits : list Z) : obitstream :=
  foldl writeBit s bits.

(** [n] calls of [readBit]: the values returned, in order, and the
    stream afterwards. *)
Fixpoint read_bits (n : nat) (s : ibitstream) : list Z * ibitstream :=
  match n with
  | O => ([], s)
  | S n' =>
      let '(b, s) := readBit s in
      let '(bs, s) := read_bits n' s in
      (b :: bs, s)
  end.

(** The character [writeBit] writes for a bit in fake mode. *)
Definition fake_char (b : Z) : ascii := if b =? 1 then "1"%char else "0"%char.

(** A bit. *)
Definition is_bit (b : Z) : Prop := b = 0 ∨ b = 1.

(** [readBit] is about to fetch a byte. *)
Definition fresh (s : ibitstream) : bool :=
  negb (i_lastTell s =? tellg s) || (i_pos s =? NUM_BITS_IN_BYTE).

(** The bits [readBit] will return before the end of the file: the rest
    of the current byte and the unread bytes. *)
Definition pending_bits (s : ibitstream) : list Z :=
  if fresh s then bytes_bits (unread s)
  else drop (Z.to_nat (i_pos s)) (byte_bits (char_of_int (i_curByte s)))
       ++ bytes_bits (unread s).

(** A stream [readBit] can be called on: good, reading real bits, and
    inside a byte only at a position of that byte. *)
Record bit_ready (s : ibitstream) : Prop := {
  ready_good : good s;
  ready_fake : i_fake s = false;
  ready_pos : fresh s = false → 0 ≤ i_pos s < 8;
  ready_byte : fresh s = false → 0 ≤ i_curByte s < 256
}.

(** What [readBit] keeps true of a stream opened on [file]: a byte has
    been fetched, or the next call fetches one. *)
Record bit_reader (file : list ascii) (s : ibitstream) : Prop := {
  reader_buf : ibuf s = file;
  reader_fake : i_fake s = false;
  reader_tell : i_lastTell s ≠ 0 ∨ i_pos s = 8
}.

(** [writing base bits out]: [out] holds the text [base] followed by the
    bytes [writeBit] made of [bits]. *)
Inductive writing (base : list ascii) : list Z → obitstream → Prop :=
| writing_none out :
    obuf out = base → at_end out → o_fake out = false →
    o_lastTell out ≠ tellp out ∨ o_pos out = 8 →
    writing base [] out
| writing_some out full cur w :
    obuf out = base ++ full ++ [cur] → at_end out → o_fake out = false →
    o_lastTell out = tellp out →
    o_pos out = Z.of_nat (length w) → (1 ≤ length w ≤ 8)%nat →
    o_curByte out = byte_value cur →
    byte_bits cur = w ++ replicate (8 - length w) 0 →
    writing base (bytes_bits full ++ w) out.

(** The codeword [encodingMap[key]] yields. *)
Definition codeword (encodingMap : hashmapE) (key : Z) : list ascii :=
  default [] (encodingMap !! key).

(** The bits [encode] writes for a bit pattern. *)
Definition pattern_bits (encoded : list ascii) : list Z := bit_of_char <$> encoded.

(** The map once [encodingMap[key]] has been evaluated for the keys
    [ks], in order. *)
Definition index_all (encodingMap : hashmapE) (ks : list Z) : hashmapE :=
  foldl (λ encodingMap key, (map_index encodingMap key).2) encodingMap ks.

(** A symbol the decoder emits: a character of the tree [root], reached
    by its codeword, other than the two markers. *)
Definition emitted_symbol (root : HuffmanNode) (encodingMap : hashmapE) (x : Z) : Prop :=
  x ≠ 256 ∧ x ≠ 257 ∧ (x, codeword encodingMap x) ∈ leaf_paths root [].

(** [r] is the beginning of a codeword of [root], and not all of it. *)
Definition unfinished_codeword (root : HuffmanNode) (r : list ascii) : Prop :=
  ∃ c b q, (c, r ++ b :: q) ∈ leaf_paths root [].

(** *** A priority queue to run the code with *)

(** The queue keeps its elements in arrival order; [top] is the first
    element of least count and [pop] removes it. *)
Fixpoint extract_min (x : HuffmanNode) (l : list HuffmanNode)
  : HuffmanNode * list HuffmanNode :=
  match l with
  | [] => (x, [])
  | y :: l' =>
      let '(m, rest) := extract_min y l' in
      if node_count m <? node_count x then (m, x :: rest) else (x, y :: l')
  end.

Definition list_top (q : list HuffmanNode) : option HuffmanNode :=
  match q with [] => None | x :: l => Some (extract_min x l).1 end.

Definition list_pop (q : list HuffmanNode) : list HuffmanNode :=
  match q with [] => [] | x :: l => (extract_min x l).2 end.

(** The two choices for plain [char]. *)
Definition signed_char : Platform := {| char_is_signed := true |}.
Definition unsigned_char : Platform := {| char_is_signed := false |}.

(** *** Tables and texts to run the code on *)

(** The table of a file of ten letters [a]. *)
Definition letters_table : hashmap :=
  {| buckets := [[]; []; []; []; []; [(97, 10)]; []; []; []; [(256, 1)]];
     nBuckets := 10; nElems := 2 |}.

(** A table holding the keys 1 and 97, both of the bucket 5. *)
Definition other_table : hashmap :=
  {| buckets := [[]; []; []; []; []; [(1, 7); (97, 8)]; []; []; []; []];
     nBuckets := 10; nElems := 2 |}.

(** A table whose counts add up to more than [INT_MAX]. *)
Definition large_counts_table : hashmap :=
  {| buckets := [[]; []; [(2, 1)]; []; []; [(1, 2147483647)]; []; []; []; []];
     nBuckets := 10; nElems := 2 |}.

(** The characters of a string literal. *)
Definition chars (s : string) : list ascii := list_ascii_of_string s.

(** The byte of value [n]. *)
Definition byte_char (n : nat) : ascii := ascii_of_nat n.

(** The arithmetic of the model is evaluated by [vm_compute] on closed
    terms only; [simpl] leaves it alone. *)
Arguments to_int : simpl never.
Arguments to_unsigned : simpl never.
Arguments hashFunction : simpl never.
Arguments bucket_index : simpl never.
Arguments bucket_of : simpl never.
Arguments byte_value : simpl never.
Arguments char_of_int : simpl never.
Arguments int_of_char : simpl never.
Arguments GetNthBit : simpl never.
Arguments SetNthBit : simpl never.
Arguments string_of_int : simpl never.

(* ===================================================================== *)
(** * Theorems *)
(* ===================================================================== *)

(** ** The list queue satisfies the laws *)

Lemma extract_min_perm x l : x :: l ≡ₚ (extract_min x l).1 :: (extract_min x l).2.
Proof.
  revert x; induction l as [|y l IH]; intros x; simpl; [done|].
  specialize (IH y). destruct (extract_min y l) as [m rest]; simpl in *.
  destruct (node_count m <? node_count x); simpl; [|done].
  rewrite IH. apply perm_swap.
Qed.

Lemma extract_min_least x l :
  Forall (λ y, node_count (extract_min x l).1 ≤ node_count y) (x :: l).
Proof.
  revert x; induction l as [|y l IH]; intros x; simpl.
  - constructor; [lia|constructor].
  - specialize (IH y). destruct (extract_min y l) as [m rest]; simpl in *.
    destruct (Z.ltb_spec (node_count m) (node_count x)); simpl.
    + constructor; [lia|done].
    + constructor; [lia|]. eapply Forall_impl; [exact IH|]. simpl; intros; lia.
Qed.

Lemma list_top_pop (q : list HuffmanNode) :
  q ≠ [] →
  ∃ x, list_top q = Some x ∧ q ≡ₚ x :: list_pop q
     ∧ Forall (λ y, node_count x ≤ node_count y) q.
Proof.
  destruct q as [|x l]; [done|]. intros _. exists (extract_min x l).1.
  split; [done|]. split; [apply extract_min_perm|apply extract_min_least].
Qed.

#[export] Instance list_queue : PriorityQueue := {|
  priority_queue := list HuffmanNode;
  pq_empty := [];
  pq_push q x := q ++ [x];
  pq_top := list_top;
  pq_pop := list_pop;
  pq_size := length;
  pq_elements q := q;
  pq_elements_empty := eq_refl;
  pq_elements_push q x := Permutation_app_comm q [x];
  pq_size_elements q := eq_refl;
  pq_top_pop := list_top_pop
|}.

(** Another queue with the laws: a new element goes in front of the
    others, so that of several nodes of least count the one pushed last
    comes out first. *)
Definition stack_queue : PriorityQueue := {|
  priority_queue := list HuffmanNode;
  pq_empty := [];
  pq_push q x := x :: q;
  pq_top := list_top;
  pq_pop := list_pop;
  pq_size := length;
  pq_elements q := q;
  pq_elements_empty := eq_refl;
  pq_elements_push q x := reflexivity (x :: q);
  pq_size_elements q := eq_refl;
  pq_top_pop := list_top_pop
|}.

(** ** Outcomes *)

Ltac simpl_outcome :=
  cbn [mbind outcome_bind mret outcome_ret] in *.

Lemma bind_Ret_inv {A B} (m : outcome A) (f : A → outcome B) b :
  m ≫= f = Ret b → ∃ a, m = Ret a ∧ f a = Ret b.
Proof. destruct m; simpl_outcome; try done. eauto. Qed.

Lemma Ret_inj {A} (a b : A) : Ret a = Ret b → a = b.
Proof. by intros [= ->]. Qed.

Lemma bind_Ret {A B} (m : outcome A) (f : A → outcome B) a :
  m = Ret a → m ≫= f = f a.
Proof. by intros ->. Qed.

(** ** Machine integers and characters *)

Lemma to_int_id z : is_int z → to_int z = z.
Proof.
  unfold is_int, INT_MIN, INT_MAX, to_int. intros Hz.
  rewrite Z.mod_small by lia. lia.
Qed.

Lemma to_int_is_int z : is_int (to_int z).
Proof.
  unfold is_int, INT_MIN, INT_MAX, to_int.
  pose proof (Z.mod_pos_bound (z + 2147483648) 4294967296). lia.
Qed.

Lemma to_int_add_l a b : to_int (to_int a + b) = to_int (a + b).
Proof.
  unfold to_int. f_equal.
  replace (((a + 2147483648) `mod` 4294967296 - 2147483648 + b + 2147483648))
    with ((a + 2147483648) `mod` 4294967296 + b) by lia.
  rewrite Zplus_mod_idemp_l. f_equal. lia.
Qed.

Lemma byte_value_range c : 0 ≤ byte_value c < 256.
Proof.
  unfold byte_value. pose proof (N_ascii_bounded c). lia.
Qed.

Lemma char_of_byte_value c : char_of_int (byte_value c) = c.
Proof.
  unfold char_of_int. pose proof (byte_value_range c).
  rewrite Z.mod_small by done. unfold byte_value.
  rewrite N2Z.id. apply ascii_N_embedding.
Qed.

Lemma byte_value_char_of_int i : byte_value (char_of_int i) = i `mod` 256.
Proof.
  unfold char_of_int, byte_value.
  pose proof (Z.mod_pos_bound i 256).
  rewrite N_ascii_embedding by lia. lia.
Qed.

Lemma byte_value_inj c1 c2 : byte_value c1 = byte_value c2 → c1 = c2.
Proof.
  intros H. rewrite <-(char_of_byte_value c1), <-(char_of_byte_value c2).
  by rewrite H.
Qed.

Section Chars.
Context {PF : Platform}.

Lemma int_of_char_range c : -128 ≤ int_of_char c ≤ 255.
Proof.
  unfold int_of_char. pose proof (byte_value_range c).
  destruct char_is_signed; simpl; [|lia].
  destruct (Z.leb_spec 128 (byte_value c)); lia.
Qed.

Lemma char_of_int_of_char c : char_of_int (int_of_char c) = c.
Proof.
  rewrite <-(char_of_byte_value c) at 2.
  unfold int_of_char, char_of_int. do 2 f_equal.
  destruct (char_is_signed && (128 <=? byte_value c)); [|done].
  replace (byte_value c - 256) with (byte_value c + (-1) * 256) by lia.
  apply Z_mod_plus_full.
Qed.

Lemma int_of_char_inj c1 c2 : int_of_char c1 = int_of_char c2 → c1 = c2.
Proof.
  intros H. rewrite <-(char_of_int_of_char c1), <-(char_of_int_of_char c2).
  by rewrite H.
Qed.

Lemma int_of_char_is_int c : is_int (int_of_char c).
Proof. pose proof (int_of_char_range c). unfold is_int, INT_MIN, INT_MAX. lia. Qed.

End Chars.

(** ** The hash function on the keys of the codec *)

Lemma valid_key_small key : -128 ≤ key ≤ 257 → valid_key key.
Proof.
  intros Hk.
  assert (Hall : forallb (λ k, 0 <=? hashFunction k) (seqZ (-128) 386) = true)
    by (vm_compute; reflexivity).
  rewrite forallb_forall in Hall.
  apply Z.leb_le, Hall, list_elem_of_In, elem_of_seqZ. lia.
Qed.

Lemma bucket_of_lt key : valid_key key → (bucket_of key < 10)%nat.
Proof.
  unfold valid_key, bucket_of. intros Hk.
  pose proof (Z.rem_bound_pos (hashFunction key) 10 Hk). lia.
Qed.

(** ** hashmap: buckets *)

Lemma put_chain_spec node key value :
  (put_chain node key value).2 = bool_decide (key ∈ node.*1)
  ∧ (put_chain node key value).1.*1 = node.*1
  ∧ ((put_chain node key value).2 = false → (put_chain node key value).1 = node).
Proof.
  induction node as [|[k v] node IH]; csimpl.
  - done.
  - destruct (Z.eqb_spec k key) as [->|Hne]; csimpl.
    + split; [|done]. rewrite bool_decide_eq_true_2; [done|]. apply list_elem_of_here.
    + destruct (put_chain node key value) as [next' flag]; csimpl in *.
      destruct IH as (Hflag & Hkeys & Hsame). split; [|split].
      * rewrite Hflag. apply bool_decide_ext. rewrite elem_of_cons. naive_solver.
      * by rewrite Hkeys.
      * intros Hf. by rewrite Hsame.
Qed.

Lemma bucket_put_keys node key value :
  (bucket_put node key value).*1 =
    if bool_decide (key ∈ node.*1) then node.*1 else node.*1 ++ [key].
Proof.
  unfold bucket_put. pose proof (put_chain_spec node key value) as (Hf & Hk & Hs).
  destruct (put_chain node key value) as [chain flag]; simpl in *.
  rewrite <-Hf. destruct flag; [done|]. by rewrite fmap_app, Hk.
Qed.

Lemma get_chain_None node key : get_chain node key = None ↔ key ∉ node.*1.
Proof.
  induction node as [|[k v] node IH]; simpl.
  - split; [intros _; apply not_elem_of_nil|done].
  - rewrite not_elem_of_cons. destruct (Z.eqb_spec k key); naive_solver.
Qed.

Lemma get_chain_is_Some node key : is_Some (get_chain node key) ↔ key ∈ node.*1.
Proof.
  rewrite <-not_eq_None_Some, get_chain_None.
  destruct (decide (key ∈ node.*1)); naive_solver.
Qed.

Lemma get_chain_Some node key value :
  NoDup node.*1 → get_chain node key = Some value ↔ (key, value) ∈ node.
Proof.
  induction node as [|[k v] node IH]; simpl; intros Hnd.
  - split; [done|]. intros H. by apply not_elem_of_nil in H.
  - apply NoDup_cons in Hnd as [Hk Hnd]. rewrite elem_of_cons.
    destruct (Z.eqb_spec k key) as [->|Hne].
    + split; [naive_solver|]. intros [|Hin]; [naive_solver|].
      destruct Hk. apply list_elem_of_fmap. by exists (key, value).
    + rewrite IH by done. naive_solver.
Qed.

Lemma get_chain_app node1 node2 key :
  get_chain (node1 ++ node2) key =
    match get_chain node1 key with
    | Some v => Some v
    | None => get_chain node2 key
    end.
Proof.
  induction node1 as [|[k v] node1 IH]; simpl; [done|].
  by destruct (k =? key).
Qed.

Lemma get_chain_bucket_put node key value key' :
  get_chain (bucket_put node key value) key' =
    if decide (key' = key) then Some value else get_chain node key'.
Proof.
  unfold bucket_put. induction node as [|[k v] node IH]; simpl.
  - destruct (Z.eqb_spec key key'); case_decide; naive_solver.
  - destruct (Z.eqb_spec k key) as [->|Hne]; simpl.
    + destruct (Z.eqb_spec key key'); case_decide; naive_solver.
    + destruct (put_chain node key value) as [next' flag]; simpl in *.
      destruct flag; simpl in *.
      * destruct (Z.eqb_spec k key'); [|done]. case_decide; naive_solver.
      * destruct (Z.eqb_spec k key'); [|done]. case_decide; naive_solver.
Qed.

Lemma bucket_put_elem node key value e :
  e ∈ bucket_put node key value → e = (key, value) ∨ e ∈ node.
Proof.
  unfold bucket_put. induction node as [|[k v] node IH]; simpl.
  - rewrite list_elem_of_singleton. auto.
  - destruct (Z.eqb_spec k key) as [->|Hne]; simpl.
    + rewrite !elem_of_cons. naive_solver.
    + destruct (put_chain node key value) as [next' flag]; simpl in *.
      destruct flag; simpl in *; rewrite !elem_of_cons; naive_solver.
Qed.

Lemma bucket_put_nodup node key value :
  NoDup node.*1 → NoDup (bucket_put node key value).*1.
Proof.
  intros Hnd. rewrite bucket_put_keys. case_bool_decide; [done|].
  apply NoDup_app. split; [done|]. split; [|apply NoDup_singleton].
  intros k Hk. rewrite list_elem_of_singleton. naive_solver.
Qed.

Lemma bucket_put_length node key value :
  length (bucket_put node key value) =
    if bool_decide (key ∈ node.*1) then length node else S (length node).
Proof.
  rewrite <-!(length_fmap fst), bucket_put_keys.
  case_bool_decide; [done|]. rewrite length_app. simpl. lia.
Qed.

(** ** hashmap: the representation invariant *)

Lemma chain_of_lookup m key :
  hashmap_wf m → valid_key key →
  buckets m !! bucket_of key = Some (chain_of m key).
Proof.
  intros Hwf Hk. unfold chain_of.
  destruct (lookup_lt_is_Some_2 (buckets m) (bucket_of key)) as [node Hnode].
  - rewrite (wf_length _ Hwf). by apply bucket_of_lt.
  - by rewrite Hnode.
Qed.

Lemma bucket_index_valid m key :
  hashmap_wf m → valid_key key →
  0 ≤ bucket_index m key ∧ Z.to_nat (bucket_index m key) = bucket_of key.
Proof.
  intros Hwf Hk. unfold bucket_index, bucket_of. rewrite (wf_nBuckets _ Hwf).
  split; [|done]. apply Z.rem_nonneg; [lia|done].
Qed.

Lemma bucket_at_valid m key :
  hashmap_wf m → valid_key key →
  bucket_at m (bucket_index m key) = Ret (chain_of m key).
Proof.
  intros Hwf Hk. unfold bucket_at.
  destruct (bucket_index_valid m key Hwf Hk) as [Hnn Hidx].
  rewrite (proj2 (Z.leb_le _ _) Hnn), Hidx.
  by rewrite (chain_of_lookup m key Hwf Hk).
Qed.

Lemma hashFunction_range key : 0 ≤ hashFunction key ∨ hashFunction key = INT_MIN.
Proof.
  unfold hashFunction. cbv zeta.
  match goal with |- context [to_int ?t <? 0] => generalize t end. intros t.
  pose proof (to_int_is_int t) as Ht. unfold is_int, INT_MIN, INT_MAX in Ht.
  destruct (Z.ltb_spec (to_int t) 0); [|by left].
  destruct (decide (to_int t = -2147483648)) as [->|Hne]; [by right|].
  left. rewrite to_int_id by (unfold is_int, INT_MIN, INT_MAX; lia). lia.
Qed.

Lemma bucket_at_invalid m key :
  hashmap_wf m → ¬ valid_key key → bucket_at m (bucket_index m key) = Undefined.
Proof.
  intros Hwf Hk. unfold bucket_at, bucket_index. rewrite (wf_nBuckets _ Hwf).
  unfold valid_key in Hk.
  destruct (hashFunction_range key) as [? | ->]; [done|]. done.
Qed.

Lemma get_spec m key :
  hashmap_wf m → valid_key key →
  get m key =
    match chain_of m key with
    | [] => Throw (exn_cstr "Error: Key is not in map.")
    | _ => Ret (default 0 (table_lookup m key))
    end.
Proof.
  intros Hwf Hk. unfold get. rewrite (bucket_at_valid m key Hwf Hk).
  simpl_outcome. unfold table_lookup.
  destruct (chain_of m key) as [|e node]; [done|].
  by destruct (get_chain (e :: node) key).
Qed.

Lemma containsKey_spec m key :
  hashmap_wf m → valid_key key →
  containsKey m key = Ret (bool_decide (is_Some (table_lookup m key))).
Proof.
  intros Hwf Hk. unfold containsKey. by rewrite (bucket_at_valid m key Hwf Hk).
Qed.

Lemma put_spec m key value :
  hashmap_wf m → valid_key key →
  put m key value =
    Ret {| buckets := <[bucket_of key := bucket_put (chain_of m key) key value]> (buckets m);
           nBuckets := nBuckets m;
           nElems := if bool_decide (key ∈ (chain_of m key).*1) then nElems m
                     else to_int (nElems m + 1) |}.
Proof.
  intros Hwf Hk. unfold put. rewrite (bucket_at_valid m key Hwf Hk).
  simpl_outcome. destruct (bucket_index_valid m key Hwf Hk) as [_ ->].
  unfold bucket_put.
  pose proof (put_chain_spec (chain_of m key) key value) as (Hf & _ & _).
  destruct (chain_of m key) as [|e node] eqn:Hchain; [done|].
  rewrite <-Hf. destruct (put_chain (e :: node) key value) as [chain flag].
  by destruct flag.
Qed.

Lemma put_Ret_valid m key value m' :
  hashmap_wf m → put m key value = Ret m' → valid_key key.
Proof.
  intros Hwf Hput. destruct (decide (valid_key key)) as [|Hk]; [done|].
  unfold put in Hput. by rewrite (bucket_at_invalid m key Hwf Hk) in Hput.
Qed.

Lemma new_hashmap_wf : hashmap_wf new_hashmap.
Proof.
  split; [reflexivity|reflexivity| | |reflexivity].
  - intros i node key value Hi Hin. exfalso.
    change (buckets new_hashmap) with (replicate 10 ([] : bucket)) in Hi.
    apply lookup_replicate in Hi as [-> _]. by apply not_elem_of_nil in Hin.
  - intros i node Hi.
    change (buckets new_hashmap) with (replicate 10 ([] : bucket)) in Hi.
    apply lookup_replicate in Hi as [-> _]. constructor.
Qed.

Lemma join_cons {A} (x : list A) (l : list (list A)) : mjoin (x :: l) = x ++ mjoin l.
Proof. done. Qed.

Lemma join_insert_length (l : list bucket) i node node' :
  l !! i = Some node →
  (length (mjoin (<[i := node']> l)) + length node =
   length (mjoin l) + length node')%nat.
Proof.
  intros Hi. rewrite <-(take_drop_middle l i node Hi) at 2.
  rewrite insert_take_drop by (by eapply lookup_lt_Some).
  rewrite !join_app, !join_cons, !length_app. lia.
Qed.

Lemma put_wf m key value m' :
  hashmap_wf m → is_int key → is_int value →
  put m key value = Ret m' → hashmap_wf m'.
Proof.
  intros Hwf Hik Hiv Hput.
  pose proof (put_Ret_valid _ _ _ _ Hwf Hput) as Hk.
  rewrite (put_spec m key value Hwf Hk) in Hput. apply Ret_inj in Hput. subst m'.
  pose proof (chain_of_lookup m key Hwf Hk) as Hchain.
  split; cbn [buckets nBuckets nElems].
  - apply (wf_nBuckets _ Hwf).
  - rewrite length_insert. apply (wf_length _ Hwf).
  - intros i node k v Hi Hin.
    destruct (decide (i = bucket_of key)) as [->|Hne].
    + rewrite list_lookup_insert_eq in Hi by (by eapply lookup_lt_Some).
      injection Hi as <-. apply bucket_put_elem in Hin as [[= -> ->]|Hin]; [done|].
      by eapply (wf_bucket _ Hwf).
    + rewrite list_lookup_insert_ne in Hi by done. by eapply (wf_bucket _ Hwf).
  - intros i node Hi.
    destruct (decide (i = bucket_of key)) as [->|Hne].
    + rewrite list_lookup_insert_eq in Hi by (by eapply lookup_lt_Some).
      injection Hi as <-. apply bucket_put_nodup. by eapply (wf_nodup _ Hwf).
    + rewrite list_lookup_insert_ne in Hi by done. by eapply (wf_nodup _ Hwf).
  - unfold entries; cbn [buckets].
    pose proof (join_insert_length (buckets m) _ _
                  (bucket_put (chain_of m key) key value) Hchain) as Hlen.
    rewrite bucket_put_length in Hlen. rewrite (wf_nElems _ Hwf).
    fold (entries m) in Hlen. case_bool_decide.
    + f_equal. lia.
    + rewrite to_int_add_l. f_equal. lia.
Qed.

Lemma constructed_wf ops m : constructed ops m → hashmap_wf m.
Proof.
  induction 1 as [|ops m key value m' Hc IH Hk Hv Hput]; [apply new_hashmap_wf|].
  exact (put_wf m key value m' IH Hk Hv Hput).
Qed.

Lemma reachable_wf m : reachable m → hashmap_wf m.
Proof. intros [ops Hops]. by eapply constructed_wf. Qed.

Lemma table_lookup_put m key value m' key' :
  hashmap_wf m → put m key value = Ret m' →
  table_lookup m' key' = if decide (key' = key) then Some value else table_lookup m key'.
Proof.
  intros Hwf Hput.
  pose proof (put_Ret_valid _ _ _ _ Hwf Hput) as Hk.
  rewrite (put_spec m key value Hwf Hk) in Hput. apply Ret_inj in Hput. subst m'.
  pose proof (chain_of_lookup m key Hwf Hk) as Hchain.
  unfold table_lookup, chain_of at 1; cbn [buckets].
  destruct (decide (bucket_of key' = bucket_of key)) as [Heq|Hne].
  - rewrite Heq, list_lookup_insert_eq by (by eapply lookup_lt_Some). simpl.
    rewrite get_chain_bucket_put. case_decide; [done|].
    unfold chain_of. by rewrite Heq.
  - rewrite list_lookup_insert_ne by done. case_decide; [congruence|done].
Qed.

(** ** hashmap: keys and entries *)

Lemma flat_map_lookup_seq {A B} (f : A → list B) (l : list A) :
  flat_map (λ i, match l !! i with Some x => f x | None => [] end) (seq 0 (length l))
  = mjoin (f <$> l).
Proof.
  induction l as [|x l IH]; [done|].
  rewrite fmap_cons, join_cons, <-IH. cbn [length seq flat_map]. f_equal.
  by rewrite <-seq_shift, !flat_map_concat_map, map_map.
Qed.

Lemma keys_entries m : hashmap_wf m → keys m = (entries m).*1.
Proof.
  intros Hwf. unfold keys, entries.
  rewrite (wf_nBuckets _ Hwf). change (Z.to_nat 10) with 10%nat.
  rewrite <-(wf_length _ Hwf), flat_map_lookup_seq.
  generalize (buckets m). intros l. induction l as [|x l IH]; [done|].
  by rewrite fmap_cons, !join_cons, fmap_app, IH.
Qed.

Lemma elem_of_entries_bucket m key value :
  hashmap_wf m →
  (key, value) ∈ entries m ↔ valid_key key ∧ (key, value) ∈ chain_of m key.
Proof.
  intros Hwf. unfold entries. rewrite list_elem_of_join. split.
  - intros (node & Hin & Hnode). apply list_elem_of_lookup in Hnode as [i Hi].
    destruct (wf_bucket _ Hwf i node key value Hi Hin) as (Hk & Hb & _).
    split; [done|]. unfold chain_of. by rewrite Hb, Hi.
  - intros [Hk Hin]. exists (chain_of m key). split; [done|].
    eapply list_elem_of_lookup_2. by apply chain_of_lookup.
Qed.

Lemma chain_of_nodup m key : hashmap_wf m → NoDup (chain_of m key).*1.
Proof.
  intros Hwf. unfold chain_of.
  destruct (buckets m !! bucket_of key) as [node|] eqn:Hnode; simpl.
  - by eapply (wf_nodup _ Hwf).
  - constructor.
Qed.

Lemma chain_of_valid m key key' value :
  hashmap_wf m → (key', value) ∈ chain_of m key → valid_key key'.
Proof.
  intros Hwf. unfold chain_of.
  destruct (buckets m !! bucket_of key) as [node|] eqn:Hnode; simpl.
  - intros Hin. by destruct (wf_bucket _ Hwf _ _ _ _ Hnode Hin).
  - intros H. by apply not_elem_of_nil in H.
Qed.

Lemma elem_of_entries m key value :
  hashmap_wf m → (key, value) ∈ entries m ↔ table_lookup m key = Some value.
Proof.
  intros Hwf. rewrite elem_of_entries_bucket by done. unfold table_lookup.
  rewrite get_chain_Some by (by apply chain_of_nodup).
  split; [naive_solver|]. intros Hin. split; [|done]. by eapply chain_of_valid.
Qed.

Lemma elem_of_keys m key :
  hashmap_wf m → key ∈ keys m ↔ is_Some (table_lookup m key).
Proof.
  intros Hwf. rewrite keys_entries by done. rewrite list_elem_of_fmap. split.
  - intros ([k v] & -> & Hin). apply elem_of_entries in Hin; [|done]. by exists v.
  - intros [v Hv]. exists (key, v). split; [done|]. by apply elem_of_entries.
Qed.

Lemma keys_valid m key : hashmap_wf m → key ∈ keys m → valid_key key.
Proof.
  intros Hwf. rewrite keys_entries by done. rewrite list_elem_of_fmap.
  intros ([k v] & -> & Hin). by apply elem_of_entries_bucket in Hin as [? _].
Qed.

Lemma entries_is_int m key value :
  hashmap_wf m → (key, value) ∈ entries m → is_int key ∧ is_int value.
Proof.
  intros Hwf. unfold entries. rewrite list_elem_of_join.
  intros (node & Hin & Hnode). apply list_elem_of_lookup in Hnode as [i Hi].
  by destruct (wf_bucket _ Hwf i node key value Hi Hin) as (_ & _ & ? & ?).
Qed.

Lemma NoDup_join_buckets (l : list bucket) (off : nat) :
  (∀ i node key value, l !! i = Some node → (key, value) ∈ node →
     bucket_of key = (off + i)%nat) →
  (∀ i node, l !! i = Some node → NoDup node.*1) →
  NoDup (mjoin l).*1.
Proof.
  revert off. induction l as [|node l IH]; intros off Hb Hnd; [constructor|].
  rewrite join_cons, fmap_app. apply NoDup_app. split; [by apply (Hnd 0%nat)|]. split.
  - intros k Hk1 Hk2.
    apply list_elem_of_fmap in Hk1 as ([k1 v1] & -> & Hin1).
    apply list_elem_of_fmap in Hk2 as ([k2 v2] & Heq & Hin2). simpl in Heq. subst k2.
    apply list_elem_of_join in Hin2 as (node2 & Hin2 & Hnode2).
    apply list_elem_of_lookup in Hnode2 as [i Hi].
    pose proof (Hb 0%nat node k1 v1 eq_refl Hin1).
    pose proof (Hb (S i) node2 k1 v2 Hi Hin2). lia.
  - apply (IH (S off)).
    + intros i node' k v Hi Hin. rewrite (Hb (S i) node' k v Hi Hin). lia.
    + intros i node' Hi. by apply (Hnd (S i)).
Qed.

Lemma NoDup_entries m : hashmap_wf m → NoDup (entries m).*1.
Proof.
  intros Hwf. apply (NoDup_join_buckets _ 0).
  - intros i node k v Hi Hin. by destruct (wf_bucket _ Hwf _ _ _ _ Hi Hin) as (_ & ? & _).
  - apply (wf_nodup _ Hwf).
Qed.

Lemma NoDup_keys m : hashmap_wf m → NoDup (keys m).
Proof. intros Hwf. rewrite keys_entries by done. by apply NoDup_entries. Qed.

(** [get] on a key of the table returns the value held for it. *)
Lemma get_present m key value :
  hashmap_wf m → (key, value) ∈ entries m → get m key = Ret value.
Proof.
  intros Hwf Hin. pose proof Hin as Hin'.
  apply elem_of_entries_bucket in Hin as [Hk Hchain]; [|done].
  apply elem_of_entries in Hin'; [|done].
  rewrite get_spec, Hin' by done.
  destruct (chain_of m key); [by apply not_elem_of_nil in Hchain|done].
Qed.

(** ** Decimal text *)

Lemma byte_value_digit_char d : 0 ≤ d ≤ 9 → byte_value (digit_char d) = 48 + d.
Proof.
  intros Hd. unfold digit_char, byte_value.
  rewrite N_ascii_embedding by lia. lia.
Qed.

Lemma isdigit_digit_char d : 0 ≤ d ≤ 9 → isdigit (digit_char d) = true.
Proof.
  intros Hd. unfold isdigit. rewrite byte_value_digit_char by done.
  apply andb_true_intro. split; apply Z.leb_le; lia.
Qed.

Lemma isdigit_range c : isdigit c = true ↔ 48 ≤ byte_value c ≤ 57.
Proof.
  unfold isdigit. rewrite andb_true_iff, !Z.leb_le. done.
Qed.

(** The digits written for [n] are decimal digits, at least one, and
    [read_digits] reads [n] back from them. *)
Lemma digits_of_spec fuel n acc :
  0 ≤ n < 10 ^ Z.of_nat (S fuel) →
  ∃ ds (k : nat),
    digits_of (S fuel) n acc = ds ++ acc
    ∧ ds ≠ []
    ∧ Forall (λ c, isdigit c = true) ds
    ∧ ∀ a any rest,
        read_digits (ds ++ rest) a any = read_digits rest (a * 10 ^ Z.of_nat k + n) true.
Proof.
  revert n acc. induction fuel as [|fuel IH]; intros n acc Hn.
  - change (10 ^ Z.of_nat 1) with 10 in Hn.
    exists [digit_char n], 1%nat. cbn [digits_of].
    rewrite Z.mod_small, Z.div_small by lia. simpl.
    split; [done|]. split; [done|]. split.
    + constructor; [|constructor]. apply isdigit_digit_char. lia.
    + intros a any rest. rewrite isdigit_digit_char, byte_value_digit_char by lia.
      f_equal. lia.
  - rewrite Nat2Z.inj_succ, Z.pow_succ_r in Hn by lia.
    pose proof (Z.mod_pos_bound n 10 ltac:(lia)) as Hmod.
    pose proof (Z.div_mod n 10 ltac:(lia)) as Hdiv.
    change (digits_of (S (S fuel)) n acc) with
      (if n `div` 10 =? 0 then digit_char (n `mod` 10) :: acc
       else digits_of (S fuel) (n `div` 10) (digit_char (n `mod` 10) :: acc)).
    destruct (Z.eqb_spec (n `div` 10) 0) as [Hz|Hnz].
    + exists [digit_char (n `mod` 10)], 1%nat.
      split; [done|]. split; [done|]. split.
      * constructor; [|constructor]. apply isdigit_digit_char. lia.
      * intros a any rest. simpl.
        rewrite isdigit_digit_char, byte_value_digit_char by lia. f_equal. lia.
    + destruct (IH (n `div` 10) (digit_char (n `mod` 10) :: acc))
        as (ds & k & Hds & Hne & Hall & Hread).
      { split; [apply Z.div_pos; lia|]. apply Z.div_lt_upper_bound; lia. }
      exists (ds ++ [digit_char (n `mod` 10)]), (S k).
      split; [by rewrite Hds, <-app_assoc|].
      split; [by destruct ds|]. split.
      * apply Forall_app. split; [done|].
        constructor; [|constructor]. apply isdigit_digit_char. lia.
      * intros a any rest. rewrite <-app_assoc, Hread. simpl.
        rewrite isdigit_digit_char, byte_value_digit_char by lia. f_equal.
        rewrite Nat2Z.inj_succ, Z.pow_succ_r by lia. lia.
Qed.

(** The characters of a header entry: digits and the minus sign. *)
Lemma digit_not_special c :
  isdigit c = true →
  isspace c = false ∧ Ascii.eqb c "-" = false ∧ Ascii.eqb c "+" = false
  ∧ Ascii.eqb c ":" = false
  ∧ byte_value c ≠ 44 ∧ byte_value c ≠ 125 ∧ byte_value c ≠ EOF.
Proof.
  intros Hc. apply isdigit_range in Hc. unfold isspace, EOF.
  split; [|split; [|split; [|split; [|lia]]]].
  - apply orb_false_intro; [apply Z.eqb_neq; lia|].
    apply andb_false_intro2, Z.leb_gt. lia.
  - apply Ascii.eqb_neq. intros ->. change (byte_value "-") with 45 in Hc. lia.
  - apply Ascii.eqb_neq. intros ->. change (byte_value "+") with 43 in Hc. lia.
  - apply Ascii.eqb_neq. intros ->. change (byte_value ":") with 58 in Hc. lia.
Qed.

Lemma int_bound z : is_int z → 0 ≤ Z.abs z < 10 ^ Z.of_nat 10.
Proof. unfold is_int, INT_MIN, INT_MAX. change (10 ^ Z.of_nat 10) with 10000000000. lia. Qed.

(** [string_of_int] is an optional minus sign followed by digits. *)
Lemma string_of_int_shape z :
  is_int z →
  ∃ ds (k : nat),
    string_of_int z = (if z <? 0 then ["-"%char] else []) ++ ds
    ∧ ds ≠ []
    ∧ Forall (λ c, isdigit c = true) ds
    ∧ ∀ a any rest,
        read_digits (ds ++ rest) a any
        = read_digits rest (a * 10 ^ Z.of_nat k + Z.abs z) true.
Proof.
  intros Hz. pose proof (int_bound z Hz) as Hb. unfold string_of_int.
  destruct (Z.ltb_spec z 0).
  - destruct (digits_of_spec 9 (- z) []) as (ds & k & Hds & Hne & Hall & Hread); [lia|].
    exists ds, k. rewrite Hds, app_nil_r. replace (Z.abs z) with (- z) by lia. done.
  - destruct (digits_of_spec 9 z []) as (ds & k & Hds & Hne & Hall & Hread); [lia|].
    exists ds, k. rewrite Hds, app_nil_r. replace (Z.abs z) with z by lia. done.
Qed.

Lemma stoi_string_of_int z : is_int z → stoi (string_of_int z) = Ret z.
Proof.
  intros Hz. destruct (string_of_int_shape z Hz) as (ds & k & -> & Hne & Hall & Hread).
  specialize (Hread 0 false []). rewrite app_nil_r in Hread.
  destruct ds as [|c ds]; [done|]. pose proof Hall as Hall'.
  apply Forall_cons in Hall' as [Hc _].
  destruct (digit_not_special c Hc) as (Hsp & Hminus & Hplus & _).
  unfold stoi. unfold is_int in Hz.
  destruct (Z.ltb_spec z 0).
  - cbn [app skip_space]. change (isspace "-") with false. cbv iota.
    change (Ascii.eqb "-" "-") with true. cbv iota. rewrite Hread. cbn [read_digits].
    replace (- (0 * 10 ^ Z.of_nat k + Z.abs z)) with z by lia.
    rewrite (proj2 (Z.leb_le _ _) (proj1 Hz)), (proj2 (Z.leb_le _ _) (proj2 Hz)). done.
  - cbn [app skip_space]. rewrite Hsp, Hminus, Hplus, Hread. cbn [read_digits].
    replace (0 * 10 ^ Z.of_nat k + Z.abs z) with z by lia.
    rewrite (proj2 (Z.leb_le _ _) (proj1 Hz)), (proj2 (Z.leb_le _ _) (proj2 Hz)). done.
Qed.

Lemma string_of_int_chars z :
  is_int z → string_of_int z ≠ [] ∧ Forall number_char (string_of_int z).
Proof.
  intros Hz. destruct (string_of_int_shape z Hz) as (ds & k & -> & Hne & Hall & _).
  split; [by destruct (z <? 0), ds|].
  apply Forall_app. split.
  - destruct (z <? 0); constructor; [|constructor]. by vm_compute.
  - eapply Forall_impl; [exact Hall|]. intros c Hc.
    destruct (digit_not_special c Hc) as (_ & _ & _ & ? & ? & ? & _). done.
Qed.

(** ** Writing the header *)

Lemma appended_nil out : at_end out → appended out [] = out.
Proof.
  unfold at_end, appended. destruct out; simpl. intros ->.
  by rewrite app_nil_r.
Qed.

Lemma appended_appended out a b : appended (appended out a) b = appended out (a ++ b).
Proof. unfold appended; simpl. by rewrite app_assoc. Qed.

Lemma at_end_appended out str : at_end (appended out str).
Proof. done. Qed.

Lemma ostream_put_at_end out c : at_end out → ostream_put out c = appended out [c].
Proof.
  unfold at_end, ostream_put, appended. intros ->.
  rewrite take_ge, drop_ge by lia. rewrite !length_app. simpl.
  f_equal. lia.
Qed.

Lemma ostream_write_at_end out str :
  at_end out → ostream_write out str = appended out str.
Proof.
  unfold ostream_write. revert out. induction str as [|c str IH]; intros out Hend.
  - by rewrite appended_nil.
  - simpl. rewrite ostream_put_at_end by done.
    rewrite IH by apply at_end_appended. apply appended_appended.
Qed.

Lemma at_end_write out str : at_end out → at_end (ostream_write out str).
Proof. intros Hend. by rewrite ostream_write_at_end. Qed.

Ltac solve_at_end :=
  repeat first [assumption | apply at_end_appended | apply at_end_write].

Lemma print_entries_spec m es out :
  hashmap_wf m → Forall (λ e, e ∈ entries m) es → at_end out →
  print_entries out m es.*1 = Ret (appended out (entries_text es)).
Proof.
  intros Hwf. revert out. induction es as [|[k v] es IH]; intros out Hes Hend.
  - by rewrite appended_nil.
  - apply Forall_cons in Hes as [He Hes].
    rewrite fmap_cons. cbn [print_entries fst].
    rewrite (get_present m k v Hwf He). simpl_outcome.
    rewrite !ostream_write_at_end, !appended_appended by solve_at_end.
    destruct es as [|e es].
    + done.
    + rewrite (fmap_cons fst e es).
      rewrite <-(fmap_cons fst e es), IH by solve_at_end.
      rewrite appended_appended. f_equal.
      cbn [entries_text]. unfold entry_text. cbn [fst snd].
      by rewrite <-!app_assoc.
Qed.

Lemma operator_out_spec m out :
  hashmap_wf m → at_end out →
  operator_out out m = Ret (appended out (header_text (entries m))).
Proof.
  intros Hwf Hend. unfold operator_out.
  rewrite ostream_write_at_end by done.
  rewrite keys_entries by done.
  rewrite print_entries_spec; [|done|by apply Forall_forall|solve_at_end].
  simpl_outcome.
  rewrite ostream_write_at_end, !appended_appended by solve_at_end.
  done.
Qed.

Lemma serialize_spec m : hashmap_wf m → serialize m = Ret (header_text (entries m)).
Proof.
  intros Hwf. unfold serialize. by rewrite operator_out_spec.
Qed.

(** ** Reading the header *)

Lemma advance_0 s : advance s 0 = s.
Proof. unfold advance. destruct s; simpl. by rewrite Nat.add_0_r. Qed.

Lemma advance_advance s a b : advance (advance s a) b = advance s (a + b).
Proof. unfold advance; simpl. by rewrite Nat.add_assoc. Qed.

Lemma good_advance s n : good s → good (advance s n).
Proof. done. Qed.

Lemma unread_advance s n : unread (advance s n) = drop n (unread s).
Proof. unfold unread, advance; simpl. by rewrite drop_drop. Qed.

Lemma unread_length s : (length (unread s) ≤ length (ibuf s))%nat.
Proof. unfold unread. rewrite length_drop. lia. Qed.

Lemma istream_get_cons s c rest :
  good s → unread s = c :: rest →
  istream_get s = (byte_value c, advance s 1).
Proof.
  intros [Heof Hfail] Hun. unfold istream_get, advance.
  rewrite Heof, Hfail. simpl.
  assert (ibuf s !! gpos s = Some c) as ->.
  { unfold unread in Hun. rewrite <-(Nat.add_0_r (gpos s)), <-lookup_drop. by rewrite Hun. }
  by rewrite Nat.add_1_r.
Qed.

Lemma istream_get_nil s :
  good s → unread s = [] →
  (istream_get s).1 = EOF ∧ eof (istream_get s).2 = true.
Proof.
  intros [Heof Hfail] Hun. unfold istream_get.
  rewrite Heof, Hfail. simpl.
  assert (ibuf s !! gpos s = None) as ->; [|done].
  unfold unread in Hun. apply lookup_ge_None.
  apply (f_equal length) in Hun. rewrite length_drop in Hun. simpl in Hun.
  destruct (decide (gpos s < length (ibuf s))%nat); lia.
Qed.

Lemma read_token_spec cs : ∀ fuel s c0 acc d rest,
  good s → Forall token_char (c0 :: cs) →
  byte_value d = 44 ∨ byte_value d = 125 →
  unread s = cs ++ d :: rest →
  (length cs < fuel)%nat →
  read_token fuel s (byte_value c0) acc
  = Ret (advance s (S (length cs)), byte_value d, acc ++ c0 :: cs).
Proof.
  induction cs as [|c1 cs IH]; intros fuel s c0 acc d rest Hgood Htok Hd Hun Hfuel.
  - destruct fuel as [|fuel]; [simpl in Hfuel; lia|].
    apply Forall_cons in Htok as [[H44 H125] _].
    cbn [read_token].
    rewrite (proj2 (Z.eqb_neq _ _) H44), (proj2 (Z.eqb_neq _ _) H125).
    assert ((byte_value c0 =? EOF) = false) as ->.
    { apply Z.eqb_neq. pose proof (byte_value_range c0). unfold EOF. lia. }
    cbn [orb]. rewrite (istream_get_cons s d rest Hgood Hun).
    destruct fuel; cbn [read_token];
      (destruct Hd as [-> | ->]; cbn [Z.eqb orb Pos.eqb]);
      by rewrite char_of_byte_value.
  - destruct fuel as [|fuel]; [simpl in Hfuel; lia|].
    apply Forall_cons in Htok as [[H44 H125] Htok].
    cbn [read_token].
    rewrite (proj2 (Z.eqb_neq _ _) H44), (proj2 (Z.eqb_neq _ _) H125).
    assert ((byte_value c0 =? EOF) = false) as ->.
    { apply Z.eqb_neq. pose proof (byte_value_range c0). unfold EOF. lia. }
    cbn [orb]. rewrite (istream_get_cons s c1 (cs ++ d :: rest) Hgood Hun).
    rewrite (IH fuel (advance s 1) c1 (acc ++ [char_of_int (byte_value c0)]) d rest);
      [|done|done|done| |simpl in Hfuel; lia].
    + rewrite advance_advance, char_of_byte_value, <-app_assoc. done.
    + rewrite unread_advance, Hun. done.
Qed.

Lemma find_char_app sk sv :
  Forall (λ c, Ascii.eqb c ":" = false) sk →
  find_char ":" (sk ++ ":"%char :: sv) = Some (length sk).
Proof.
  induction sk as [|c sk IH]; intros Hsk; [done|].
  apply Forall_cons in Hsk as [Hc Hsk]. simpl. rewrite Hc, IH by done. done.
Qed.

Lemma drop_app_cons {A} (l1 : list A) x l2 :
  drop (length l1 + 1) (l1 ++ x :: l2) = l2.
Proof. rewrite Nat.add_1_r. by induction l1. Qed.

Lemma put_token_spec m key value :
  is_int key → is_int value →
  put_token m (entry_text (key, value)) = put m key value.
Proof.
  intros Hk Hv. unfold put_token, entry_text. cbn [fst snd].
  change ([":"%char] ++ string_of_int value) with (":"%char :: string_of_int value).
  destruct (string_of_int_chars key Hk) as [_ Hkc].
  rewrite find_char_app
    by (eapply Forall_impl; [exact Hkc|]; by intros c (? & _)).
  unfold substr. rewrite !length_app. cbn [length].
  assert ((length (string_of_int key) + S (length (string_of_int value))
           <? 0)%nat = false) as -> by (apply Nat.ltb_ge; lia).
  assert ((length (string_of_int key) + S (length (string_of_int value))
           <? length (string_of_int key) + 1)%nat = false) as ->
    by (apply Nat.ltb_ge; lia).
  simpl_outcome. rewrite drop_0, take_app_length.
  rewrite stoi_string_of_int by done. simpl_outcome.
  rewrite drop_app_cons, take_ge by lia.
  rewrite stoi_string_of_int by done. done.
Qed.

Lemma entry_text_chars key value :
  is_int key → is_int value →
  entry_text (key, value) ≠ [] ∧ Forall token_char (entry_text (key, value)).
Proof.
  intros Hk Hv. unfold entry_text. cbn [fst snd].
  destruct (string_of_int_chars key Hk) as [Hne Hkc].
  destruct (string_of_int_chars value Hv) as [_ Hvc].
  split; [by destruct (string_of_int key)|].
  apply Forall_app. split; [|apply Forall_app; split].
  - eapply Forall_impl; [exact Hkc|]. by intros c (_ & ? & ?).
  - constructor; [|constructor]. by vm_compute.
  - eapply Forall_impl; [exact Hvc|]. by intros c (_ & ? & ?).
Qed.

Lemma entries_text_cons e0 e es :
  entries_text (e0 :: e :: es)
  = entry_text e0 ++ [","%char; " "%char] ++ entries_text (e :: es).
Proof. done. Qed.

Lemma read_entries_spec es : ∀ fuel s c0 cs m m' payload,
  good s →
  Forall (λ e, is_int e.1 ∧ is_int e.2) es →
  entries_text es ++ ["}"%char] = c0 :: cs →
  unread s = cs ++ payload →
  put_all m es = Ret m' →
  (length es < fuel)%nat →
  read_entries fuel s (byte_value c0) m = Ret (advance s (length cs), m').
Proof.
  induction es as [|[k v] es IH];
    intros fuel s c0 cs m m' payload Hgood Hint Htext Hun Hput Hfuel.
  - destruct fuel as [|fuel]; [simpl in Hfuel; lia|].
    simpl in Htext. injection Htext as <- <-.
    simpl in Hput. apply Ret_inj in Hput. subst m'.
    cbn [read_entries read_token]. change (byte_value "}") with 125.
    cbn [Z.eqb Pos.eqb orb]. simpl_outcome.
    by rewrite advance_0.
  - destruct fuel as [|fuel]; [simpl in Hfuel; lia|].
    apply Forall_cons in Hint as [[Hk Hv] Hint]. cbn [fst snd] in Hk, Hv.
    destruct (entry_text_chars k v Hk Hv) as [Hne Htok].
    cbn [put_all] in Hput. apply bind_Ret_inv in Hput as (m1 & Hput1 & Hput).
    destruct (entry_text (k, v)) as [|t0 ts] eqn:Hentry; [done|].
    pose proof (unread_length s) as Hlen.
    destruct es as [|e es].
    + cbn [entries_text] in Htext. rewrite Hentry in Htext.
      injection Htext as <- <-.
      simpl in Hput. apply Ret_inj in Hput. subst m'.
      cbn [read_entries].
      rewrite (read_token_spec ts _ s t0 [] "}"%char payload);
        [|done|done|by right|by rewrite Hun, <-app_assoc
         |rewrite Hun, !length_app in Hlen; cbn [length] in Hlen; lia].
      simpl_outcome. change (byte_value "}") with 125. cbn [Z.eqb Pos.eqb].
      cbn [app]. rewrite <-Hentry, put_token_spec, Hput1 by done. simpl_outcome.
      rewrite length_app. cbn [length]. by rewrite Nat.add_1_r.
    + rewrite entries_text_cons, Hentry in Htext.
      destruct (entries_text (e :: es) ++ ["}"%char]) as [|c1 cs1] eqn:Htext1.
      { by destruct (entries_text (e :: es)). }
      rewrite <-!app_assoc in Htext. cbn [app] in Htext.
      rewrite Htext1 in Htext. injection Htext as <- <-.
      rewrite <-app_assoc in Hun. cbn [app] in Hun.
      assert (unread (advance s (S (length ts)))
              = " "%char :: c1 :: cs1 ++ payload) as Hun1.
      { rewrite unread_advance, Hun, <-Nat.add_1_r. apply drop_app_cons. }
      assert (unread (advance (advance s (S (length ts))) 1)
              = c1 :: cs1 ++ payload) as Hun2.
      { by rewrite unread_advance, Hun1. }
      assert (unread (advance (advance (advance s (S (length ts))) 1) 1)
              = cs1 ++ payload) as Hun3.
      { by rewrite unread_advance, Hun2. }
      cbn [read_entries].
      rewrite (read_token_spec ts _ s t0 [] ","%char
                 (" "%char :: c1 :: cs1 ++ payload));
        [|done|done|by left|done
         |rewrite Hun, !length_app in Hlen; cbn [length] in Hlen; lia].
      simpl_outcome. change (byte_value ",") with 44. cbn [Z.eqb Pos.eqb].
      rewrite (istream_get_cons _ _ _ (good_advance _ _ Hgood) Hun1).
      rewrite (istream_get_cons _ _ _ (good_advance _ _ (good_advance _ _ Hgood)) Hun2).
      cbn [app]. rewrite <-Hentry, put_token_spec, Hput1 by done. simpl_outcome.
      rewrite (IH fuel _ c1 cs1 m1 m' payload); [|done|done|done|done|done|].
      * rewrite !advance_advance, length_app. cbn [length].
        by replace (S (length ts) + (1 + (1 + length cs1)))%nat
          with (length ts + S (S (S (length cs1))))%nat by lia.
      * simpl in Hfuel |- *. lia.
Qed.

Lemma entries_text_length es :
  Forall (λ e, is_int e.1 ∧ is_int e.2) es →
  (length es ≤ length (entries_text es))%nat.
Proof.
  induction es as [|[k v] es IH]; intros Hint; [done|].
  apply Forall_cons in Hint as [[Hk Hv] Hint]. cbn [fst snd] in Hk, Hv.
  destruct (entry_text_chars k v Hk Hv) as [Hne _].
  destruct es as [|e es].
  - cbn [entries_text]. destruct (entry_text (k, v)); [done|simpl; lia].
  - rewrite entries_text_cons, !length_app. specialize (IH Hint).
    cbn [length] in *. lia.
Qed.

Lemma operator_in_spec es m m' payload :
  Forall (λ e, is_int e.1 ∧ is_int e.2) es →
  put_all m es = Ret m' →
  operator_in (open_ibitstream (header_text es ++ payload)) m
  = Ret (advance (open_ibitstream (header_text es ++ payload))
                 (length (header_text es)), m').
Proof.
  intros Hint Hput. unfold operator_in.
  set (s := open_ibitstream (header_text es ++ payload)).
  assert (good s) as Hgood by done.
  destruct (entries_text es ++ ["}"%char]) as [|c0 cs] eqn:Htext.
  { by destruct (entries_text es). }
  assert (header_text es = "{"%char :: c0 :: cs) as Hheader.
  { unfold header_text. cbn [app]. by rewrite Htext. }
  assert (unread s = "{"%char :: c0 :: cs ++ payload) as Hun.
  { unfold unread, s. cbn [gpos open_ibitstream ibuf]. by rewrite drop_0, Hheader. }
  assert (unread (advance s 1) = c0 :: cs ++ payload) as Hun1.
  { by rewrite unread_advance, Hun. }
  assert (unread (advance (advance s 1) 1) = cs ++ payload) as Hun2.
  { by rewrite unread_advance, Hun1. }
  rewrite (istream_get_cons _ _ _ Hgood Hun).
  rewrite (istream_get_cons _ _ _ (good_advance _ _ Hgood) Hun1).
  rewrite (read_entries_spec es _ _ c0 cs m m' payload); [|done|done|done|done|done|].
  - rewrite !advance_advance, Hheader. done.
  - pose proof (entries_text_length es Hint) as Hlen.
    apply (f_equal length) in Htext. rewrite length_app in Htext.
    cbn [advance ibuf s open_ibitstream].
    rewrite Hheader, length_app. cbn [length] in *. lia.
Qed.

(** ** Rebuilding a table from its entries *)

Lemma bucket_put_fresh node key value :
  key ∉ node.*1 → bucket_put node key value = node ++ [(key, value)].
Proof.
  intros Hk. unfold bucket_put.
  pose proof (put_chain_spec node key value) as (Hf & _ & Hs).
  destruct (put_chain node key value) as [chain flag]. cbn [fst snd] in *.
  rewrite bool_decide_eq_false_2 in Hf by done. subst flag. by rewrite Hs.
Qed.

Lemma filter_all {A} (P : A → Prop) `{∀ x, Decision (P x)} (l : list A) :
  Forall P l → filter P l = l.
Proof.
  induction 1 as [|x l Hx _ IH]; [done|].
  by rewrite filter_cons_True, IH.
Qed.

Lemma filter_none {A} (P : A → Prop) `{∀ x, Decision (P x)} (l : list A) :
  Forall (λ x, ¬ P x) l → filter P l = [].
Proof.
  induction 1 as [|x l Hx _ IH]; [done|].
  by rewrite filter_cons_False, IH.
Qed.

Lemma filter_join_buckets (bs : list bucket) : ∀ off target,
  (∀ j node key value, bs !! j = Some node → (key, value) ∈ node →
     bucket_of key = (off + j)%nat) →
  filter (λ e, bucket_of e.1 = target) (mjoin bs)
  = if decide (off ≤ target)%nat then default [] (bs !! (target - off)%nat) else [].
Proof.
  induction bs as [|b bs IH]; intros off target Hplace.
  - cbn. by case_decide.
  - rewrite join_cons, filter_app.
    rewrite (IH (S off) target)
      by (intros j node k v Hj Hin; rewrite (Hplace (S j) node k v Hj Hin); lia).
    assert (∀ e, e ∈ b → bucket_of e.1 = off) as Hb.
    { intros [k v] Hin. cbn [fst]. rewrite (Hplace 0%nat b k v eq_refl Hin). lia. }
    destruct (decide (target = off)) as [->|Hne].
    + rewrite filter_all by (by apply Forall_forall).
      rewrite decide_False, decide_True by lia.
      by rewrite Nat.sub_diag, app_nil_r.
    + rewrite filter_none
        by (apply Forall_forall; intros e He; rewrite (Hb e He); lia).
      cbn [app]. repeat case_decide; try lia; [|done].
      replace (target - off)%nat with (S (target - S off)) by lia. done.
Qed.

Lemma put_all_fresh es : ∀ m0,
  hashmap_wf m0 →
  Forall (λ e, valid_key e.1 ∧ is_int e.1 ∧ is_int e.2) es →
  NoDup es.*1 →
  (∀ k, k ∈ es.*1 → table_lookup m0 k = None) →
  ∃ m1, put_all m0 es = Ret m1 ∧ hashmap_wf m1
      ∧ ∀ i, (i < 10)%nat →
          buckets m1 !! i
          = Some (default [] (buckets m0 !! i) ++ filter (λ e, bucket_of e.1 = i) es).
Proof.
  induction es as [|[k v] es IH]; intros m0 Hwf Hall Hnd Hfresh.
  - exists m0. split; [done|]. split; [done|]. intros i Hi.
    rewrite filter_nil, app_nil_r.
    destruct (lookup_lt_is_Some_2 (buckets m0) i) as [node ->]; [|done].
    by rewrite (wf_length _ Hwf).
  - apply Forall_cons in Hall as [(Hk & Hik & Hiv) Hall]. cbn [fst snd] in *.
    rewrite fmap_cons in Hnd. apply NoDup_cons in Hnd as [Hkes Hnd].
    pose proof (put_spec m0 k v Hwf Hk) as Hput.
    pose proof (chain_of_lookup m0 k Hwf Hk) as Hchain.
    assert (k ∉ (chain_of m0 k).*1) as Hkchain.
    { apply get_chain_None. apply Hfresh. rewrite fmap_cons. apply list_elem_of_here. }
    rewrite bucket_put_fresh in Hput by done.
    set (m01 := {| buckets := <[bucket_of k := chain_of m0 k ++ [(k, v)]]> (buckets m0);
                   nBuckets := nBuckets m0;
                   nElems := if bool_decide (k ∈ (chain_of m0 k).*1) then nElems m0
                             else to_int (nElems m0 + 1) |}) in *.
    pose proof (put_wf m0 k v m01 Hwf Hik Hiv Hput) as Hwf01.
    destruct (IH m01 Hwf01 Hall Hnd) as (m1 & Hput1 & Hwf1 & Hb1).
    { intros k' Hk'. rewrite (table_lookup_put m0 k v m01 k' Hwf Hput).
      case_decide; [by subst|]. apply Hfresh. rewrite fmap_cons. by apply list_elem_of_further. }
    exists m1. split; [|split; [done|]].
    + cbn [put_all]. by rewrite Hput.
    + intros i Hi. rewrite (Hb1 i Hi). f_equal. cbn [buckets m01].
      destruct (decide (i = bucket_of k)) as [->|Hne].
      * rewrite list_lookup_insert_eq by (by eapply lookup_lt_Some).
        rewrite Hchain, filter_cons_True by done. cbn [default from_option id].
        by rewrite <-app_assoc.
      * rewrite list_lookup_insert_ne by done.
        by rewrite filter_cons_False by (cbn [fst]; congruence).
Qed.

Lemma table_lookup_new key : table_lookup new_hashmap key = None.
Proof.
  unfold table_lookup, chain_of.
  change (buckets new_hashmap) with (replicate 10 ([] : bucket)).
  destruct (replicate 10 [] !! bucket_of key) as [node|] eqn:Hnode; [|done].
  by apply lookup_replicate in Hnode as [-> _].
Qed.

Lemma hashmap_eq m1 m2 :
  hashmap_wf m1 → hashmap_wf m2 → buckets m1 = buckets m2 → m1 = m2.
Proof.
  intros Hwf1 Hwf2 Hb.
  pose proof (wf_nBuckets _ Hwf1). pose proof (wf_nBuckets _ Hwf2).
  pose proof (wf_nElems _ Hwf1) as He1. pose proof (wf_nElems _ Hwf2) as He2.
  unfold entries in *. destruct m1, m2; simpl in *. congruence.
Qed.

Lemma entries_valid m :
  hashmap_wf m → Forall (λ e, valid_key e.1 ∧ is_int e.1 ∧ is_int e.2) (entries m).
Proof.
  intros Hwf. apply Forall_forall. intros [k v] Hin. cbn [fst snd].
  destruct (entries_is_int m k v Hwf Hin).
  by apply elem_of_entries_bucket in Hin as [? _].
Qed.

Lemma entries_ints m :
  hashmap_wf m → Forall (λ e, is_int e.1 ∧ is_int e.2) (entries m).
Proof.
  intros Hwf. eapply Forall_impl; [by apply entries_valid|]. naive_solver.
Qed.

(** Putting the entries of a table, in iteration order, into a new table
    gives the table back. *)
Lemma put_all_entries m : hashmap_wf m → put_all new_hashmap (entries m) = Ret m.
Proof.
  intros Hwf.
  destruct (put_all_fresh (entries m) new_hashmap new_hashmap_wf)
    as (m1 & Hput & Hwf1 & Hb).
  - by apply entries_valid.
  - by apply NoDup_entries.
  - intros k _. apply table_lookup_new.
  - rewrite Hput. f_equal. apply hashmap_eq; [done|done|].
    apply list_eq. intros i.
    destruct (decide (i < 10)%nat) as [Hi|Hi].
    + rewrite (Hb i Hi).
      change (buckets new_hashmap) with (replicate 10 ([] : bucket)).
      rewrite lookup_replicate_2 by done. cbn [default from_option id app].
      unfold entries. rewrite (filter_join_buckets (buckets m) 0 i).
      * rewrite decide_True, Nat.sub_0_r by lia.
        destruct (lookup_lt_is_Some_2 (buckets m) i) as [node ->]; [|done].
        by rewrite (wf_length _ Hwf).
      * intros j node k v Hj Hin.
        by destruct (wf_bucket _ Hwf j node k v Hj Hin) as (_ & ? & _).
    + rewrite !lookup_ge_None_2; [done| |].
      * rewrite (wf_length _ Hwf). lia.
      * rewrite (wf_length _ Hwf1). lia.
Qed.

(** The header of a table read into a new table gives the table back, and
    leaves the stream just behind the header. *)
Lemma operator_in_header m payload :
  hashmap_wf m →
  operator_in (open_ibitstream (header_text (entries m) ++ payload)) new_hashmap
  = Ret (advance (open_ibitstream (header_text (entries m) ++ payload))
                 (length (header_text (entries m))), m).
Proof.
  intros Hwf. apply operator_in_spec; [by apply entries_ints|by apply put_all_entries].
Qed.

(** ** The frequency analyzer *)

Section Frequency.
Context {PF : Platform}.

Lemma valid_key_char c : valid_key (int_of_char c).
Proof. apply valid_key_small. pose proof (int_of_char_range c). lia. Qed.

Lemma add_count_S held n :
  (∀ v, held = Some v → is_int v) →
  add_count (add_count held 1) n = add_count held (S n).
Proof.
  intros Hint. destruct n as [|n]; [done|].
  unfold add_count. cbn [default from_option id]. f_equal.
  rewrite to_int_add_l. f_equal. lia.
Qed.

Lemma put_Ret m key value :
  hashmap_wf m → valid_key key → ∃ m', put m key value = Ret m'.
Proof. intros Hwf Hk. rewrite put_spec by done. eauto. Qed.

Lemma char_to_hash_spec c h :
  hashmap_wf h →
  ∃ h', char_to_hash c h = Ret h' ∧ hashmap_wf h'
      ∧ ∀ key, table_lookup h' key =
               if decide (key = int_of_char c) then add_count (table_lookup h key) 1
               else table_lookup h key.
Proof.
  intros Hwf. pose proof (valid_key_char c) as Hk.
  pose proof (int_of_char_is_int c) as Hint.
  unfold char_to_hash. rewrite containsKey_spec by done. simpl_outcome.
  destruct (table_lookup h (int_of_char c)) as [v|] eqn:Hlook.
  - rewrite bool_decide_eq_true_2 by eauto.
    rewrite get_spec, Hlook by done.
    assert (chain_of h (int_of_char c) ≠ []) as Hne.
    { unfold table_lookup in Hlook. by destruct (chain_of h (int_of_char c)). }
    destruct (chain_of h (int_of_char c)) as [|e node] eqn:Hchain; [done|].
    simpl_outcome. cbn [default from_option id].
    destruct (put_Ret h (int_of_char c) (to_int (v + 1)) Hwf Hk) as [h' Hput].
    exists h'. split; [done|]. split.
    + eapply put_wf; [done|done|apply to_int_is_int|done].
    + intros key. rewrite (table_lookup_put _ _ _ _ key Hwf Hput).
      case_decide; [|done]. subst key. by rewrite Hlook.
  - rewrite bool_decide_eq_false_2 by (by intros [? ?]).
    destruct (put_Ret h (int_of_char c) 1 Hwf Hk) as [h' Hput].
    exists h'. split; [done|]. split.
    + eapply put_wf; [done|done| |done]. by vm_compute.
    + intros key. rewrite (table_lookup_put _ _ _ _ key Hwf Hput).
      case_decide; [|done]. subst key. by rewrite Hlook.
Qed.

Lemma table_lookup_is_int m key value :
  hashmap_wf m → table_lookup m key = Some value → is_int value.
Proof.
  intros Hwf Hlook. apply elem_of_entries in Hlook; [|done].
  by destruct (entries_is_int m key value Hwf Hlook).
Qed.

Lemma count_chars_spec source : ∀ h,
  hashmap_wf h →
  ∃ h', count_chars source h = Ret h' ∧ hashmap_wf h'
      ∧ ∀ key, table_lookup h' key = add_count (table_lookup h key) (occurrences key source).
Proof.
  induction source as [|c source IH]; intros h Hwf.
  - exists h. split; [done|]. split; [done|]. intros key. reflexivity.
  - destruct (char_to_hash_spec c h Hwf) as (h1 & Hh1 & Hwf1 & Hlook1).
    destruct (IH h1 Hwf1) as (h' & Hh' & Hwf' & Hlook').
    exists h'. split; [|split; [done|]].
    + cbn [count_chars]. by rewrite Hh1.
    + intros key. rewrite Hlook', Hlook1. unfold occurrences.
      destruct (decide (key = int_of_char c)) as [->|Hne].
      * rewrite filter_cons_True by done. cbn [length].
        apply add_count_S. intros v Hv. exact (table_lookup_is_int h _ v Hwf Hv).
      * by rewrite filter_cons_False by congruence.
Qed.

(** The table the analyzer builds in a new [hashmap]. *)
Lemma buildFrequencyMap_spec source :
  ∃ m, buildFrequencyMap source new_hashmap = Ret m ∧ hashmap_wf m
     ∧ ∀ key, table_lookup m key =
              if decide (key = 256) then Some 1
              else add_count None (occurrences key source).
Proof.
  destruct (count_chars_spec source new_hashmap new_hashmap_wf) as (h & Hh & Hwf & Hlook).
  assert (valid_key 256) as Hk by (apply valid_key_small; lia).
  destruct (put_Ret h 256 1 Hwf Hk) as [m Hput].
  exists m. split; [|split].
  - unfold buildFrequencyMap. by rewrite Hh.
  - eapply put_wf; [done| | |done]; by vm_compute.
  - intros key. rewrite (table_lookup_put _ _ _ _ key Hwf Hput).
    case_decide; [done|]. by rewrite Hlook, table_lookup_new.
Qed.

Lemma occurrences_pos key source :
  (0 < occurrences key source)%nat ↔ ∃ c, c ∈ source ∧ int_of_char c = key.
Proof.
  unfold occurrences. split.
  - intros Hpos. destruct (filter _ source) as [|c l] eqn:Hf; [simpl in Hpos; lia|].
    assert (c ∈ filter (λ c, int_of_char c = key) source) as Hin
      by (rewrite Hf; apply list_elem_of_here).
    apply list_elem_of_filter in Hin as [? ?]. eauto.
  - intros (c & Hin & Hc).
    assert (c ∈ filter (λ c, int_of_char c = key) source) as Hin'
      by (by apply list_elem_of_filter).
    destruct (filter _ source); [by apply not_elem_of_nil in Hin'|simpl; lia].
Qed.

(** The keys of the table: the characters of the source, and 256. *)
Lemma buildFrequencyMap_keys source m key :
  buildFrequencyMap source new_hashmap = Ret m →
  key ∈ keys m ↔ key = 256 ∨ ∃ c, c ∈ source ∧ int_of_char c = key.
Proof.
  intros Hm. destruct (buildFrequencyMap_spec source) as (m' & Hm' & Hwf & Hlook).
  rewrite Hm in Hm'. apply Ret_inj in Hm'. subst m'.
  rewrite elem_of_keys, Hlook by done. case_decide; [naive_solver|].
  rewrite <-occurrences_pos. destruct (occurrences key source); simpl.
  - split; [by intros [? ?]|]. intros [?|?]; [done|lia].
  - split; [intros _; right; lia|eauto].
Qed.

End Frequency.

(** ** The tree builder *)

Lemma huffman_tree_not_null t : huffman_tree t → t ≠ nullptr.
Proof. by destruct 1. Qed.

Lemma leaves_link c n zero one :
  zero ≠ nullptr → leaves (Node c n zero one) = leaves zero ++ leaves one.
Proof. by destruct zero. Qed.

Lemma leaves_not_nil t : huffman_tree t → leaves t ≠ [].
Proof.
  induction 1 as [c n|n zero one Hz IHz Ho IHo Hn]; [done|].
  rewrite leaves_link by (by apply huffman_tree_not_null).
  by destruct (leaves zero).
Qed.

Lemma internal_nodes_link c n zero one :
  zero ≠ nullptr →
  internal_nodes (Node c n zero one) = S (internal_nodes zero + internal_nodes one).
Proof. by destruct zero. Qed.

(** A tree of the built shape has one node with children less than it
    has leaves. *)
Lemma internal_nodes_leaves t :
  huffman_tree t → S (internal_nodes t) = length (leaves t).
Proof.
  induction 1 as [c n|n zero one Hz IHz Ho IHo Hn]; [done|].
  rewrite leaves_link, internal_nodes_link by (by apply huffman_tree_not_null).
  rewrite length_app. lia.
Qed.

Section TreeBuilder.
Context {PQ : PriorityQueue}.

Lemma top_pop_spec (pq : priority_queue) :
  pq_elements pq ≠ [] →
  ∃ x, top pq = Ret x ∧ pq_elements pq ≡ₚ x :: pq_elements (pq_pop pq).
Proof.
  intros Hne. destruct (pq_top_pop pq Hne) as (x & Htop & Hperm & _).
  exists x. unfold top. by rewrite Htop.
Qed.

Lemma push_leaves_spec m es : ∀ pq,
  hashmap_wf m → Forall (λ e, e ∈ entries m) es →
  ∃ pq', push_leaves m es.*1 pq = Ret pq'
       ∧ pq_elements pq' ≡ₚ (leaf_node <$> es) ++ pq_elements pq.
Proof.
  induction es as [|[k v] es IH]; intros pq Hwf Hes.
  - by exists pq.
  - apply Forall_cons in Hes as [He Hes].
    destruct (IH (pq_push pq (Node k v nullptr nullptr)) Hwf Hes) as (pq' & Hpq' & Hperm).
    exists pq'. split.
    + rewrite fmap_cons. cbn [push_leaves fst].
      by rewrite (get_present m k v Hwf He).
    + rewrite Hperm, pq_elements_push, fmap_cons.
      by rewrite <-Permutation_middle.
Qed.

(** The loop ends with one tree, of the built shape, whose leaves are the
    leaves of the trees it started from. *)
Lemma build_htree_loop_spec fuel : ∀ pq,
  pq_elements pq ≠ [] →
  Forall huffman_tree (pq_elements pq) →
  (length (pq_elements pq) ≤ S fuel)%nat →
  ∃ pq' t, build_htree_loop fuel pq = Ret pq'
         ∧ pq_elements pq' = [t]
         ∧ huffman_tree t
         ∧ leaves t ≡ₚ pq_elements pq ≫= leaves.
Proof.
  induction fuel as [|fuel IH]; intros pq Hne Hall Hlen.
  - destruct (pq_elements pq) as [|t [|t' l]] eqn:Hel; [done| |simpl in Hlen; lia].
    exists pq, t. apply Forall_cons in Hall as [Ht _].
    split; [|split; [done|split; [done|]]].
    + cbn [build_htree_loop]. by rewrite pq_size_elements, Hel.
    + cbn. by rewrite app_nil_r.
  - cbn [build_htree_loop]. rewrite pq_size_elements.
    destruct (Nat.ltb_spec 1 (length (pq_elements pq))) as [Hgt|Hle].
    + destruct (top_pop_spec pq Hne) as (first & Hfirst & Hperm1).
      assert (pq_elements (pq_pop pq) ≠ []) as Hne1.
      { intros Hnil. rewrite Hnil in Hperm1.
        apply Permutation_length in Hperm1. simpl in Hperm1. lia. }
      destruct (top_pop_spec (pq_pop pq) Hne1) as (second & Hsecond & Hperm2).
      rewrite Hfirst. simpl_outcome. rewrite Hsecond. simpl_outcome.
      assert (Forall huffman_tree (first :: second :: pq_elements (pq_pop (pq_pop pq))))
        as Hall'.
      { rewrite <-Hperm2, <-Hperm1. done. }
      apply Forall_cons in Hall' as [Hf Hall']. apply Forall_cons in Hall' as [Hs Hall'].
      assert (first ≠ nullptr) as Hfn by (by apply huffman_tree_not_null).
      assert (second ≠ nullptr) as Hsn by (by apply huffman_tree_not_null).
      destruct first as [|fc fn fz fo]; [done|].
      destruct second as [|sc sn sz so]; [done|].
      set (link := Node 257 (to_int (fn + sn)) (Node fc fn fz fo) (Node sc sn sz so)).
      destruct (IH (pq_push (pq_pop (pq_pop pq)) link)) as (pq' & t0 & Hloop & Hel' & Ht0 & Hleaves).
      * intros Hnil. pose proof (pq_elements_push (pq_pop (pq_pop pq)) link) as Hp.
        rewrite Hnil in Hp. by apply Permutation_nil_cons in Hp.
      * rewrite pq_elements_push. constructor; [|done].
        by apply huffman_link.
      * rewrite pq_elements_push. cbn [length].
        rewrite Hperm1, Hperm2 in Hlen. cbn [length] in Hlen. lia.
      * exists pq', t0. split; [done|]. split; [done|]. split; [done|].
        rewrite Hleaves, pq_elements_push, Hperm1, Hperm2.
        rewrite !bind_cons. unfold link. rewrite leaves_link by done.
        by rewrite <-app_assoc.
    + destruct (pq_elements pq) as [|t [|t' l]] eqn:Hel; [done| |simpl in Hle; lia].
      exists pq, t. apply Forall_cons in Hall as [Ht _].
      split; [done|]. split; [done|]. split; [done|]. cbn. by rewrite app_nil_r.
Qed.

Lemma build_htree_spec pq :
  pq_elements pq ≠ [] →
  Forall huffman_tree (pq_elements pq) →
  ∃ pq' t, build_htree pq = Ret pq'
         ∧ pq_elements pq' = [t]
         ∧ huffman_tree t
         ∧ leaves t ≡ₚ pq_elements pq ≫= leaves.
Proof.
  intros Hne Hall. apply build_htree_loop_spec; [done|done|].
  rewrite pq_size_elements. lia.
Qed.

Lemma top_singleton pq t : pq_elements pq = [t] → top pq = Ret t.
Proof.
  intros Hel. destruct (top_pop_spec pq) as (x & Htop & Hperm); [by rewrite Hel|].
  rewrite Hel in Hperm. rewrite Htop. f_equal.
  apply Permutation_length in Hperm as Hlen. simpl in Hlen.
  destruct (pq_elements (pq_pop pq)); [|simpl in Hlen; lia].
  apply Permutation_singleton_l in Hperm. by injection Hperm.
Qed.

Lemma bind_leaf_nodes es : (leaf_node <$> es) ≫= leaves = es.
Proof.
  induction es as [|[k v] es IH]; [done|].
  rewrite fmap_cons, bind_cons, IH. done.
Qed.

(** The tree built from a table with at least one entry. *)
Lemma buildEncodingTree_spec m :
  hashmap_wf m → entries m ≠ [] →
  ∃ t, buildEncodingTree m = Ret t ∧ huffman_tree t ∧ leaves t ≡ₚ entries m.
Proof.
  intros Hwf Hne. unfold buildEncodingTree. rewrite keys_entries by done.
  destruct (push_leaves_spec m (entries m) pq_empty Hwf) as (pq & Hpq & Hperm);
    [by apply Forall_forall|].
  rewrite pq_elements_empty, app_nil_r in Hperm.
  rewrite Hpq. simpl_outcome.
  destruct (build_htree_spec pq) as (pq' & t & Hbuild & Hel & Ht & Hleaves).
  - intros Hnil. rewrite Hnil in Hperm.
    apply Permutation_nil in Hperm. by destruct (entries m).
  - rewrite Hperm. apply Forall_fmap, Forall_forall. intros [k v] _.
    apply huffman_leaf.
  - rewrite Hbuild. simpl_outcome. exists t. split; [by apply top_singleton|].
    split; [done|]. by rewrite Hleaves, Hperm, bind_leaf_nodes.
Qed.

End TreeBuilder.

(** ** The encoding map *)

Lemma leaf_paths_link c n zero one str :
  zero ≠ nullptr →
  leaf_paths (Node c n zero one) str
  = leaf_paths zero (str ++ ["0"%char]) ++ leaf_paths one (str ++ ["1"%char]).
Proof. by destruct zero. Qed.

Lemma _buildEncodingMap_spec t :
  huffman_tree t →
  ∀ encodingMap str,
    _buildEncodingMap t encodingMap str
    = Ret (foldl insert_path encodingMap (leaf_paths t str)).
Proof.
  induction 1 as [c n|n zero one Hz IHz Ho IHo Hn]; intros em str.
  - cbn [_buildEncodingMap leaf_paths foldl]. simpl_outcome.
    unfold insert_path. cbn [fst snd]. by destruct (c =? 257).
  - pose proof (huffman_tree_not_null _ Hz) as Hzn.
    pose proof (huffman_tree_not_null _ Ho) as Hon.
    rewrite leaf_paths_link, foldl_app by done.
    cbn [_buildEncodingMap].
    destruct zero as [|zc zn zz zo]; [done|].
    destruct one as [|oc on oz oo]; [done|].
    rewrite IHz. simpl_outcome. rewrite IHo. simpl_outcome. done.
Qed.

Lemma map_insert_lookup (encodingMap : hashmapE) key str key' :
  map_insert encodingMap key str !! key' =
    match encodingMap !! key' with
    | Some s => Some s
    | None => if decide (key' = key) then Some str else None
    end.
Proof.
  unfold map_insert. destruct (encodingMap !! key) as [s|] eqn:Hkey.
  - destruct (encodingMap !! key') eqn:Hkey'; [done|].
    case_decide; [congruence|done].
  - rewrite lookup_insert. case_decide.
    + subst key'. rewrite Hkey. by rewrite decide_True.
    + destruct (encodingMap !! key'); [done|]. by rewrite decide_False by congruence.
Qed.

Lemma insert_path_lookup (encodingMap : hashmapE) e key' :
  insert_path encodingMap e !! key' =
    match encodingMap !! key' with
    | Some s => Some s
    | None => if decide (key' = e.1 ∧ e.1 ≠ 257) then Some e.2 else None
    end.
Proof.
  unfold insert_path. destruct (Z.eqb_spec e.1 257) as [Heq|Hne].
  - destruct (encodingMap !! key'); [done|]. by rewrite decide_False by naive_solver.
  - rewrite map_insert_lookup. destruct (encodingMap !! key'); [done|].
    repeat case_decide; naive_solver.
Qed.

Lemma foldl_insert_path_keep l : ∀ (encodingMap : hashmapE) key str,
  encodingMap !! key = Some str →
  foldl insert_path encodingMap l !! key = Some str.
Proof.
  induction l as [|e l IH]; intros em key str Hkey; [done|].
  cbn [foldl]. apply IH. by rewrite insert_path_lookup, Hkey.
Qed.

(** An entry of the map is an entry it started with or a leaf path. *)
Lemma foldl_insert_path_Some l : ∀ (encodingMap : hashmapE) key str,
  foldl insert_path encodingMap l !! key = Some str →
  encodingMap !! key = Some str ∨ (key ≠ 257 ∧ (key, str) ∈ l).
Proof.
  induction l as [|[k p] l IH]; intros em key str Hkey; [by left|].
  cbn [foldl] in Hkey. apply IH in Hkey as [Hkey|[Hne Hin]].
  - rewrite insert_path_lookup in Hkey. cbn [fst snd] in Hkey.
    destruct (em !! key); [by left|]. case_decide as Hd; [|done].
    destruct Hd as [-> Hne]. injection Hkey as <-. right. split; [done|].
    apply list_elem_of_here.
  - right. split; [done|]. by apply list_elem_of_further.
Qed.

(** A leaf path is an entry of the map when no two leaves hold the same
    character. *)
Lemma foldl_insert_path_elem l : ∀ (encodingMap : hashmapE) key str,
  NoDup l.*1 → (key, str) ∈ l → key ≠ 257 → encodingMap !! key = None →
  foldl insert_path encodingMap l !! key = Some str.
Proof.
  induction l as [|[k p] l IH]; intros em key str Hnd Hin Hne Hkey.
  - by apply not_elem_of_nil in Hin.
  - rewrite fmap_cons in Hnd. apply NoDup_cons in Hnd as [Hk Hnd].
    cbn [foldl]. apply elem_of_cons in Hin as [[= <- <-]|Hin].
    + apply foldl_insert_path_keep. rewrite insert_path_lookup, Hkey.
      by rewrite decide_True.
    + apply IH; [done|done|done|].
      rewrite insert_path_lookup, Hkey. rewrite decide_False; [done|].
      intros [-> _]. apply Hk. apply list_elem_of_fmap. by exists (k, str).
Qed.

Lemma leaf_paths_fst t : ∀ str, (leaf_paths t str).*1 = (leaves t).*1.
Proof.
  induction t as [|c n zero IHz one IHo]; intros str; [done|].
  cbn [leaf_paths leaves]. destruct zero as [|zc zn zz zo].
  - destruct one as [|oc on oz oo]; [done|].
    by rewrite !fmap_app, IHz, IHo.
  - by rewrite !fmap_app, IHz, IHo.
Qed.

Lemma leaf_paths_prefix t : ∀ str c p,
  (c, p) ∈ leaf_paths t str → str `prefix_of` p.
Proof.
  induction t as [|c0 n zero IHz one IHo]; intros str c p Hin.
  - by apply not_elem_of_nil in Hin.
  - cbn [leaf_paths] in Hin.
    assert ((c, p) ∈ leaf_paths zero (str ++ ["0"%char])
                     ++ leaf_paths one (str ++ ["1"%char]) → str `prefix_of` p) as Hrec.
    { intros Hin'. apply elem_of_app in Hin' as [Hin'|Hin'].
      - apply IHz in Hin'. etrans; [|exact Hin']. by apply prefix_app_r.
      - apply IHo in Hin'. etrans; [|exact Hin']. by apply prefix_app_r. }
    destruct zero; [|by apply Hrec]. destruct one; [|by apply Hrec].
    apply list_elem_of_singleton in Hin. by injection Hin as -> ->.
Qed.

(** The paths to the leaves of two different characters: neither is a
    prefix of the other. *)
Lemma leaf_paths_prefix_free t :
  huffman_tree t →
  ∀ str c1 p1 c2 p2,
    (c1, p1) ∈ leaf_paths t str → (c2, p2) ∈ leaf_paths t str →
    c1 ≠ c2 → ¬ p1 `prefix_of` p2.
Proof.
  induction 1 as [c n|n zero one Hz IHz Ho IHo Hn]; intros str c1 p1 c2 p2 H1 H2 Hne.
  - cbn [leaf_paths] in H1, H2.
    apply list_elem_of_singleton in H1, H2. congruence.
  - rewrite leaf_paths_link in H1, H2 by (by apply huffman_tree_not_null).
    apply elem_of_app in H1 as [H1|H1]; apply elem_of_app in H2 as [H2|H2].
    + by eapply IHz.
    + apply leaf_paths_prefix in H1 as [k1 ->]. apply leaf_paths_prefix in H2 as [k2 ->].
      intros [k Hk]. rewrite <-!app_assoc in Hk.
      apply app_inv_head in Hk. by injection Hk.
    + apply leaf_paths_prefix in H1 as [k1 ->]. apply leaf_paths_prefix in H2 as [k2 ->].
      intros [k Hk]. rewrite <-!app_assoc in Hk.
      apply app_inv_head in Hk. by injection Hk.
    + by eapply IHo.
Qed.

Lemma buildEncodingMap_spec t :
  huffman_tree t →
  buildEncodingMap t = Ret (foldl insert_path ∅ (leaf_paths t [])).
Proof. intros Ht. unfold buildEncodingMap. by apply _buildEncodingMap_spec. Qed.

(** ** Reading bits *)

Lemma bytes_bits_cons c l : bytes_bits (c :: l) = byte_bits c ++ bytes_bits l.
Proof. done. Qed.

Lemma bytes_bits_app l1 l2 : bytes_bits (l1 ++ l2) = bytes_bits l1 ++ bytes_bits l2.
Proof. unfold bytes_bits. apply bind_app. Qed.

Lemma byte_bits_length c : length (byte_bits c) = 8%nat.
Proof. done. Qed.

Lemma bytes_bits_length l : length (bytes_bits l) = (8 * length l)%nat.
Proof.
  induction l as [|c l IH]; [done|].
  rewrite bytes_bits_cons, length_app, IH, byte_bits_length. simpl. lia.
Qed.

Lemma GetNthBit_bit n x : GetNthBit n x = 0 ∨ GetNthBit n x = 1.
Proof. unfold GetNthBit. destruct (_ =? 0); auto. Qed.

Lemma byte_bits_bit c b : b ∈ byte_bits c → b = 0 ∨ b = 1.
Proof.
  unfold byte_bits. rewrite list_elem_of_fmap. intros (n & -> & _).
  apply GetNthBit_bit.
Qed.

Lemma bytes_bits_bit l b : b ∈ bytes_bits l → b = 0 ∨ b = 1.
Proof.
  unfold bytes_bits. rewrite list_elem_of_bind. intros (c & Hb & _).
  by eapply byte_bits_bit.
Qed.

Lemma pending_bits_bit s b : b ∈ pending_bits s → b = 0 ∨ b = 1.
Proof.
  unfold pending_bits. destruct (fresh s).
  - apply bytes_bits_bit.
  - rewrite elem_of_app. intros [Hb|Hb]; [|by eapply bytes_bits_bit].
    eapply byte_bits_bit, subseteq_drop, Hb.
Qed.

Lemma pending_bits_length s :
  (length (pending_bits s) ≤ 8 * length (ibuf s) + 8)%nat.
Proof.
  unfold pending_bits. pose proof (unread_length s).
  destruct (fresh s).
  - rewrite bytes_bits_length. lia.
  - rewrite length_app, length_drop, byte_bits_length, bytes_bits_length. lia.
Qed.

Lemma tellg_good s : good s → tellg s = Z.of_nat (gpos s).
Proof. intros [_ Hfail]. unfold tellg. by rewrite Hfail. Qed.

(** [readBit] returns the first pending bit and leaves the others. *)
Lemma readBit_cons s b rest :
  bit_ready s → pending_bits s = b :: rest →
  ∃ s', readBit s = (b, s') ∧ bit_ready s' ∧ pending_bits s' = rest
      ∧ ibuf s' = ibuf s.
Proof.
  intros [Hgood Hfake Hpos Hbyte] Hpend.
  unfold readBit. rewrite Hfake. unfold pending_bits in Hpend.
  fold (fresh s). destruct (fresh s) eqn:Hfresh.
  - destruct (unread s) as [|c u] eqn:Hun; [done|].
    rewrite bytes_bits_cons in Hpend.
    rewrite (istream_get_cons s c u Hgood Hun).
    assert ((byte_value c =? EOF) = false) as Hne.
    { apply Z.eqb_neq. pose proof (byte_value_range c). unfold EOF. lia. }
    cbn [set_ibits i_lastTell i_curByte i_pos]. rewrite Hne.
    eexists. split; [|split; [|split]].
    + f_equal. by injection Hpend.
    + assert (fresh (set_ibits
                (set_ibits (set_ibits (advance s 1) (i_lastTell (advance s 1))
                   (byte_value c) (i_pos (advance s 1)))
                   (tellg (set_ibits (advance s 1) (i_lastTell (advance s 1))
                      (byte_value c) (i_pos (advance s 1)))) (byte_value c) 0)
                (tellg (set_ibits (advance s 1) (i_lastTell (advance s 1))
                   (byte_value c) (i_pos (advance s 1)))) (byte_value c) (0 + 1)) = false)
        as Hmid.
      { unfold fresh. cbn [set_ibits i_lastTell i_pos].
        apply orb_false_intro; [|done].
        apply negb_false_iff, Z.eqb_eq. done. }
      split; [done|done| |].
      * intros _. cbn [set_ibits i_pos]. lia.
      * intros _. cbn [set_ibits i_curByte]. apply byte_value_range.
    + unfold pending_bits.
      match goal with |- context [fresh ?s'] =>
        assert (fresh s' = false) as ->
      end.
      { unfold fresh. cbn [set_ibits i_lastTell i_pos].
        apply orb_false_intro; [|done].
        apply negb_false_iff, Z.eqb_eq. done. }
      cbn [set_ibits i_pos i_curByte]. rewrite char_of_byte_value.
      assert (∀ a b c d, unread (set_ibits a b c d) = unread a) as Hset by done.
      rewrite !Hset, unread_advance, Hun. cbn [drop].
      injection Hpend as _ <-. done.
    + done.
  - specialize (Hpos eq_refl). specialize (Hbyte eq_refl).
    assert (byte_value (char_of_int (i_curByte s)) = i_curByte s) as Hcur.
    { rewrite byte_value_char_of_int. by apply Z.mod_small. }
    assert (byte_bits (char_of_int (i_curByte s))
            = (λ n, GetNthBit n (i_curByte s)) <$> [0; 1; 2; 3; 4; 5; 6; 7]) as Hbits.
    { unfold byte_bits. by rewrite Hcur. }
    rewrite Hbits in Hpend.
    assert (i_pos s = 0 ∨ i_pos s = 1 ∨ i_pos s = 2 ∨ i_pos s = 3 ∨ i_pos s = 4
            ∨ i_pos s = 5 ∨ i_pos s = 6 ∨ i_pos s = 7) as Hcases by lia.
    unfold fresh in Hfresh. apply orb_false_elim in Hfresh as [Htell _].
    eexists. split; [|split; [|split]].
    + f_equal.
      destruct Hcases as [H|[H|[H|[H|[H|[H|[H|H]]]]]]];
        rewrite H in Hpend |- *; by injection Hpend.
    + split; [done|done| |].
      * unfold fresh. cbn [set_ibits i_pos i_lastTell].
        intros Hf. apply orb_false_elim in Hf as [_ Hf].
        apply Z.eqb_neq in Hf. unfold NUM_BITS_IN_BYTE in Hf. lia.
      * intros _. done.
    + unfold pending_bits, fresh. cbn [set_ibits i_pos i_lastTell i_curByte].
      assert (∀ a b c d, tellg (set_ibits a b c d) = tellg a) as Htset by done.
      assert (∀ a b c d, unread (set_ibits a b c d) = unread a) as Hset by done.
      rewrite Htset, Hset, Htell, Hbits. cbn [orb].
      destruct Hcases as [H|[H|[H|[H|[H|[H|[H|H]]]]]]];
        rewrite H in Hpend |- *; by injection Hpend.
    + done.
Qed.

(** With no bit pending [readBit] returns [EOF] and the stream is at its end. *)
Lemma readBit_nil s :
  bit_ready s → pending_bits s = [] →
  (readBit s).1 = EOF ∧ eof (readBit s).2 = true.
Proof.
  intros [Hgood Hfake Hpos Hbyte] Hpend.
  unfold readBit. rewrite Hfake. unfold pending_bits in Hpend.
  fold (fresh s). destruct (fresh s) eqn:Hfresh.
  - destruct (unread s) as [|c u] eqn:Hun; [|done].
    destruct (istream_get_nil s Hgood Hun) as [Hget Heof].
    destruct (istream_get s) as [c s']. cbn [fst snd] in *. subst c.
    done.
  - specialize (Hpos eq_refl). apply (f_equal length) in Hpend.
    rewrite length_app, length_drop, byte_bits_length in Hpend. simpl in Hpend. lia.
Qed.

(** ** Writing bits *)

Lemma SetNthBit_byte c p :
  0 ≤ p < 8 →
  byte_bits (char_of_int (SetNthBit p (byte_value c)))
  = <[Z.to_nat p := 1]> (byte_bits c)
  ∧ byte_value (char_of_int (SetNthBit p (byte_value c))) = SetNthBit p (byte_value c).
Proof.
  intros Hp.
  assert (p = 0 ∨ p = 1 ∨ p = 2 ∨ p = 3 ∨ p = 4 ∨ p = 5 ∨ p = 6 ∨ p = 7)
    as Hcases by lia.
  destruct c as [[] [] [] [] [] [] [] []];
    destruct Hcases as [H|[H|[H|[H|[H|[H|[H|H]]]]]]]; subst p;
    split; vm_compute; reflexivity.
Qed.

(** [writeBit] when it starts a byte. *)
Lemma writeBit_fresh out b :
  o_fake out = false → at_end out →
  negb (o_lastTell out =? tellp out) || (o_pos out =? NUM_BITS_IN_BYTE) = true →
  b = 0 ∨ b = 1 →
  writeBit out b =
    {| obuf := obuf out ++ [char_of_int b]; ppos := S (ppos out);
       o_lastTell := Z.of_nat (S (ppos out)); o_curByte := b; o_pos := 1;
       o_fake := false |}.
Proof.
  intros Hfake Hend Hcond Hb. unfold writeBit. rewrite Hfake, Hcond.
  unfold at_end in Hend.
  destruct Hb as [-> | ->]; cbn [Z.eqb negb set_obits o_pos o_lastTell o_curByte orb];
    unfold ostream_put, tellp; cbn [set_obits obuf ppos o_lastTell o_curByte o_pos o_fake];
    rewrite Hend, take_ge, drop_ge, Hfake by lia; reflexivity.
Qed.

(** [writeBit] of a 1 inside a byte. *)
Lemma writeBit_mid_one out front cur :
  o_fake out = false → at_end out → obuf out = front ++ [cur] →
  o_lastTell out = tellp out → 1 ≤ o_pos out < 8 →
  writeBit out 1 =
    {| obuf := front ++ [char_of_int (SetNthBit (o_pos out) (o_curByte out))];
       ppos := ppos out; o_lastTell := tellp out;
       o_curByte := SetNthBit (o_pos out) (o_curByte out);
       o_pos := o_pos out + 1; o_fake := false |}.
Proof.
  intros Hfake Hend Hbuf Htell Hpos. unfold writeBit. rewrite Hfake, Htell, (Z.eqb_refl (tellp out)).
  assert ((o_pos out =? NUM_BITS_IN_BYTE) = false) as ->
    by (apply Z.eqb_neq; unfold NUM_BITS_IN_BYTE; lia).
  assert ((o_pos out =? 0) = false) as Hp0 by (apply Z.eqb_neq; lia).
  cbn [Z.eqb negb orb set_obits o_pos o_lastTell o_curByte]. rewrite Hp0.
  cbn [negb orb]. unfold ostream_put, seekp_cur, tellp.
  cbn [set_obits obuf ppos o_lastTell o_curByte o_pos o_fake].
  unfold at_end in Hend. rewrite Hend, Hbuf, Hfake, length_app. cbn [length].
  replace (Z.to_nat (Z.of_nat (length front + 1) + -1)) with (length front) by lia.
  rewrite take_app_length, drop_ge by (rewrite length_app; simpl; lia).
  unfold set_obits. cbn [obuf ppos o_lastTell o_curByte o_pos o_fake].
  by rewrite Nat.add_1_r.
Qed.

(** [writeBit] of a 0 inside a byte. *)
Lemma writeBit_mid_zero out :
  o_fake out = false → o_lastTell out = tellp out → 1 ≤ o_pos out < 8 →
  writeBit out 0 =
    {| obuf := obuf out; ppos := ppos out; o_lastTell := tellp out;
       o_curByte := o_curByte out; o_pos := o_pos out + 1; o_fake := false |}.
Proof.
  intros Hfake Htell Hpos. unfold writeBit. rewrite Hfake, Htell, (Z.eqb_refl (tellp out)).
  assert ((o_pos out =? NUM_BITS_IN_BYTE) = false) as ->
    by (apply Z.eqb_neq; unfold NUM_BITS_IN_BYTE; lia).
  assert ((o_pos out =? 0) = false) as Hp0 by (apply Z.eqb_neq; lia).
  cbn [Z.eqb negb orb set_obits o_pos o_lastTell o_curByte]. rewrite Hp0.
  cbn [negb orb]. unfold tellp, set_obits.
  cbn [obuf ppos o_lastTell o_curByte o_pos o_fake]. by rewrite Hfake.
Qed.

Lemma byte_bits_first b :
  b = 0 ∨ b = 1 →
  byte_bits (char_of_int b) = [b] ++ replicate 7 0 ∧ byte_value (char_of_int b) = b.
Proof. by intros [-> | ->]. Qed.

Lemma writeBit_step base bits out b :
  writing base bits out → b = 0 ∨ b = 1 →
  writing base (bits ++ [b]) (writeBit out b).
Proof.
  intros Hw Hb. destruct (byte_bits_first b Hb) as [Hfirst Hval].
  destruct Hw as [out Hbuf Hend Hfake Hfresh
                 |out full cur w Hbuf Hend Hfake Htell Hpos Hlen Hcur Hbits].
  - rewrite writeBit_fresh; [|done|done| |done].
    + apply (writing_some base _ [] (char_of_int b) [b]);
        cbn [obuf ppos o_lastTell o_curByte o_pos o_fake length];
        unfold at_end, tellp; cbn [obuf ppos];
        rewrite ?Hbuf, ?length_app; cbn [length]; try done; try lia.
      unfold at_end in Hend. rewrite Hend, Hbuf. lia.
    + destruct Hfresh as [Hne|Heq].
      * apply orb_true_intro. left. apply negb_true_iff, Z.eqb_neq. done.
      * apply orb_true_intro. right. by apply Z.eqb_eq.
  - destruct (decide (length w = 8%nat)) as [H8|H8].
    + rewrite writeBit_fresh; [|done|done| |done].
      * rewrite H8, Nat.sub_diag, app_nil_r in Hbits.
        rewrite <-Hbits.
        replace (bytes_bits full ++ byte_bits cur) with (bytes_bits (full ++ [cur]))
          by (rewrite bytes_bits_app, bytes_bits_cons; by rewrite app_nil_r).
        apply (writing_some base _ (full ++ [cur]) (char_of_int b) [b]);
          cbn [obuf ppos o_lastTell o_curByte o_pos o_fake length];
          unfold at_end, tellp; cbn [obuf ppos];
          rewrite ?Hbuf, ?length_app; cbn [length]; try done; try lia.
        -- by rewrite <-!app_assoc.
        -- unfold at_end in Hend. rewrite Hend, Hbuf, !length_app. cbn [length]. lia.
      * apply orb_true_intro. right. apply Z.eqb_eq. rewrite Hpos, H8. done.
    + assert (1 ≤ o_pos out < 8) as Hp by lia.
      assert (Z.to_nat (o_pos out) = length w) as Hpn by lia.
      assert (replicate (8 - length w) 0 = 0 :: replicate (8 - length (w ++ [b])) 0)
        as Hrep.
      { rewrite length_app. cbn [length].
        replace (8 - length w)%nat with (S (8 - (length w + 1))) by lia. done. }
      rewrite <-app_assoc.
      destruct Hb as [-> | ->].
      * rewrite writeBit_mid_zero by done.
        apply (writing_some base _ full cur (w ++ [0]));
          cbn [obuf ppos o_lastTell o_curByte o_pos o_fake]; try done.
        -- rewrite length_app. cbn [length]. lia.
        -- rewrite length_app. cbn [length]. lia.
        -- by rewrite Hbits, Hrep, <-app_assoc.
      * rewrite (writeBit_mid_one out (base ++ full) cur)
          by (done || by rewrite Hbuf, app_assoc).
        destruct (SetNthBit_byte cur (o_pos out)) as [Hset Hsetv]; [lia|].
        rewrite Hcur.
        apply (writing_some base _ full
                 (char_of_int (SetNthBit (o_pos out) (byte_value cur))) (w ++ [1]));
          cbn [obuf ppos o_lastTell o_curByte o_pos o_fake]; try done.
        -- by rewrite <-app_assoc.
        -- unfold at_end in *. cbn [obuf ppos].
           rewrite Hend, Hbuf, !length_app. cbn [length]. lia.
        -- rewrite length_app. cbn [length]. lia.
        -- rewrite length_app. cbn [length]. lia.
        -- rewrite Hset, Hbits, Hpn, Hrep.
           rewrite <-(Nat.add_0_r (length w)) at 1.
           rewrite insert_app_r. cbn. by rewrite <-app_assoc.
Qed.

Section BitWriter.
Context {PF : Platform}.

Lemma write_bits_writing base encoded : ∀ bits out,
  writing base bits out →
  writing base (bits ++ pattern_bits encoded) (write_bits out encoded).
Proof.
  unfold write_bits, pattern_bits.
  induction encoded as [|c encoded IH]; intros bits out Hw.
  - by rewrite app_nil_r.
  - rewrite fmap_cons, cons_middle, app_assoc. cbn [foldl].
    apply IH. unfold bit_of_char.
    destruct (Ascii.eqb c "0"); apply writeBit_step; auto.
Qed.

Lemma writing_spec base bits out :
  writing base bits out →
  ∃ payload pad,
    obuf out = base ++ payload ∧ bytes_bits payload = bits ++ replicate pad 0.
Proof.
  destruct 1 as [out Hbuf _ _ _|out full cur w Hbuf _ _ _ _ _ _ Hbits].
  - exists [], 0%nat. by rewrite Hbuf, app_nil_r.
  - exists (full ++ [cur]), (8 - length w)%nat. split; [done|].
    rewrite bytes_bits_app, bytes_bits_cons, Hbits.
    change (bytes_bits []) with ([] : list Z). by rewrite app_nil_r, app_assoc.
Qed.

(** What [encode] leaves in the file behind the header: bytes whose bits
    are the bit pattern followed by fewer than eight padding zeros. *)
Lemma write_bits_spec out encoded :
  at_end out → o_fake out = false →
  o_lastTell out ≠ tellp out ∨ o_pos out = 8 →
  ∃ payload pad,
    obuf (write_bits out encoded) = obuf out ++ payload
    ∧ bytes_bits payload = pattern_bits encoded ++ replicate pad 0.
Proof.
  intros Hend Hfake Hfresh.
  apply (writing_spec (obuf out) (pattern_bits encoded)).
  apply (write_bits_writing (obuf out) encoded [] out).
  by apply writing_none.
Qed.

End BitWriter.

(** ** The decoder *)

Lemma bit_ready_eof s : bit_ready s → eof s = false.
Proof. by intros [[? ?] _ _ _]. Qed.

(** One round of the loop at a node holding the marker 257. *)
Lemma decode_loop_link fuel s root n zero one out dec :
  eof s = false →
  decode_loop (S fuel) s root (Node 257 n zero one) out dec
  = decode_loop fuel (readBit s).2 root (if (readBit s).1 =? 0 then zero else one) out dec.
Proof.
  intros Heof. cbn [decode_loop]. rewrite Heof.
  cbn [Z.eqb Pos.eqb negb]. by destruct (readBit s).
Qed.

(** One round of the loop at a node holding the end-of-stream symbol. *)
Lemma decode_loop_eos fuel s root n zero one out dec :
  eof s = false →
  decode_loop (S fuel) s root (Node 256 n zero one) out dec = Ret (dec, s, out).
Proof. intros Heof. cbn [decode_loop]. by rewrite Heof. Qed.

(** One round of the loop at a node holding a character: the character
    is emitted and the round goes on as a round at the root. *)
Lemma decode_loop_char fuel s rn rzero rone c n zero one out dec :
  eof s = false → c ≠ 257 → c ≠ 256 →
  decode_loop (S fuel) s (Node 257 rn rzero rone) (Node c n zero one) out dec
  = decode_loop (S fuel) s (Node 257 rn rzero rone) (Node 257 rn rzero rone)
      (out ++ [char_of_int c]) (dec ++ [char_of_int c]).
Proof.
  intros Heof H257 H256. rewrite decode_loop_link by done.
  cbn [decode_loop]. rewrite Heof.
  rewrite (proj2 (Z.eqb_neq _ _) H257), (proj2 (Z.eqb_neq _ _) H256).
  cbn [negb]. by destruct (readBit s).
Qed.

(** Once the stream is at its end the loop returns. *)
Lemma decode_loop_at_eof fuel s root node out dec :
  eof s = true → decode_loop fuel s root node out dec = Ret (dec, s, out).
Proof. intros Heof. destruct fuel; cbn [decode_loop]; by rewrite Heof. Qed.

Lemma bit_of_char_0 : bit_of_char "0" = 0.
Proof. done. Qed.

Lemma bit_of_char_1 : bit_of_char "1" = 1.
Proof. done. Qed.

(** Following the bits of a root-to-leaf path leads to the leaf. *)
Lemma decode_descend t :
  huffman_tree t →
  ∀ str c p, (c, p) ∈ leaf_paths t str →
  ∃ q n, p = str ++ q ∧
    ∀ s fuel root out dec rest,
      bit_ready s → pending_bits s = pattern_bits q ++ rest →
      ∃ s', bit_ready s' ∧ pending_bits s' = rest ∧ ibuf s' = ibuf s
          ∧ decode_loop (length q + fuel) s root t out dec
            = decode_loop fuel s' root (Node c n nullptr nullptr) out dec.
Proof.
  induction 1 as [c0 n0|n0 zero one Hz IHz Ho IHo Hn]; intros str c p Hin.
  - cbn [leaf_paths] in Hin. apply list_elem_of_singleton in Hin.
    injection Hin as -> ->. exists [], n0. split; [by rewrite app_nil_r|].
    intros s fuel root out dec rest Hready Hpend.
    change (pattern_bits [] ++ rest) with rest in Hpend.
    exists s. split; [done|]. split; [done|]. split; [done|]. reflexivity.
  - rewrite leaf_paths_link in Hin by (by apply huffman_tree_not_null).
    apply elem_of_app in Hin as [Hin|Hin].
    + destruct (IHz _ _ _ Hin) as (q & n & -> & Hq).
      exists ("0"%char :: q), n. split; [by rewrite <-app_assoc|].
      intros s fuel root out dec rest Hready Hpend.
      cbn [pattern_bits fmap list_fmap app] in Hpend. rewrite bit_of_char_0 in Hpend.
      destruct (readBit_cons s 0 _ Hready Hpend) as (s1 & Hread & Hready1 & Hpend1 & Hbuf1).
      destruct (Hq s1 fuel root out dec rest Hready1 Hpend1)
        as (s' & Hready' & Hpend' & Hbuf' & Hloop).
      exists s'. split; [done|]. split; [done|]. split; [congruence|].
      cbn [length Nat.add]. rewrite decode_loop_link by (by apply bit_ready_eof).
      by rewrite Hread.
    + destruct (IHo _ _ _ Hin) as (q & n & -> & Hq).
      exists ("1"%char :: q), n. split; [by rewrite <-app_assoc|].
      intros s fuel root out dec rest Hready Hpend.
      cbn [pattern_bits fmap list_fmap app] in Hpend. rewrite bit_of_char_1 in Hpend.
      destruct (readBit_cons s 1 _ Hready Hpend) as (s1 & Hread & Hready1 & Hpend1 & Hbuf1).
      destruct (Hq s1 fuel root out dec rest Hready1 Hpend1)
        as (s' & Hready' & Hpend' & Hbuf' & Hloop).
      exists s'. split; [done|]. split; [done|]. split; [congruence|].
      cbn [length Nat.add]. rewrite decode_loop_link by (by apply bit_ready_eof).
      by rewrite Hread.
Qed.

Lemma pattern_bits_app l1 l2 : pattern_bits (l1 ++ l2) = pattern_bits l1 ++ pattern_bits l2.
Proof. apply fmap_app. Qed.

Lemma pattern_bits_length l : length (pattern_bits l) = length l.
Proof. apply length_fmap. Qed.

(** Reading the codewords of a sequence of symbols emits the symbols and
    leaves the loop at the root again. *)
Lemma decode_loop_symbols rn rzero rone encodingMap syms :
  let root := Node 257 rn rzero rone in
  huffman_tree root →
  Forall (emitted_symbol root encodingMap) syms →
  ∀ s out dec k tail,
    bit_ready s →
    pending_bits s = pattern_bits (syms ≫= codeword encodingMap) ++ tail →
    ∃ s', bit_ready s' ∧ pending_bits s' = tail ∧ ibuf s' = ibuf s
        ∧ decode_loop (length (pending_bits s) + S k) s root root out dec
          = decode_loop (length tail + S k) s' root root
              (out ++ (char_of_int <$> syms)) (dec ++ (char_of_int <$> syms)).
Proof.
  intros root Hroot. induction syms as [|x syms IH]; intros Hsyms s out dec k tail Hready Hpend.
  - change (pattern_bits ([] ≫= codeword encodingMap) ++ tail) with tail in Hpend.
    exists s. rewrite Hpend, !app_nil_r. done.
  - apply Forall_cons in Hsyms as [(H256 & H257 & Hx) Hsyms].
    rewrite bind_cons, pattern_bits_app, <-app_assoc in Hpend.
    destruct (decode_descend root Hroot [] x _ Hx) as (q & n & Hq & Hdesc).
    cbn [app] in Hq. rewrite Hq in Hpend.
    destruct (Hdesc s (length (pattern_bits (syms ≫= codeword encodingMap) ++ tail) + S k)%nat
                root out dec _ Hready Hpend)
      as (s1 & Hready1 & Hpend1 & Hbuf1 & Hloop1).
    destruct (IH Hsyms s1 (out ++ [char_of_int x]) (dec ++ [char_of_int x]) k tail
                Hready1 Hpend1)
      as (s' & Hready' & Hpend' & Hbuf' & Hloop').
    exists s'. split; [done|]. split; [done|]. split; [congruence|].
    rewrite Hpend, length_app, pattern_bits_length, <-Nat.add_assoc, Hloop1.
    rewrite Nat.add_succ_r.
    unfold root. rewrite decode_loop_char by (done || by apply bit_ready_eof).
    fold root. rewrite <-Nat.add_succ_r, <-Hpend1, Hloop'.
    by rewrite fmap_cons, !(cons_middle (char_of_int x)), !app_assoc, !app_nil_r.
Qed.

(** Reading the codeword of the end-of-stream symbol ends the loop. *)
Lemma decode_loop_end root encodingMap s out dec k tail :
  huffman_tree root →
  (256, codeword encodingMap 256) ∈ leaf_paths root [] →
  bit_ready s →
  pending_bits s = pattern_bits (codeword encodingMap 256) ++ tail →
  ∃ s', decode_loop (length (pending_bits s) + S k) s root root out dec
        = Ret (dec, s', out).
Proof.
  intros Hroot H256 Hready Hpend.
  destruct (decode_descend root Hroot [] 256 _ H256) as (q & n & Hq & Hdesc).
  cbn [app] in Hq. rewrite Hq in Hpend.
  destruct (Hdesc s (length tail + S k)%nat root out dec _ Hready Hpend)
    as (s1 & Hready1 & Hpend1 & Hbuf1 & Hloop1).
  exists s1.
  rewrite Hpend, length_app, pattern_bits_length, <-Nat.add_assoc, Hloop1.
  rewrite Nat.add_succ_r. apply decode_loop_eos. by apply bit_ready_eof.
Qed.

(** Running out of bits inside a codeword ends the loop as well. *)
Lemma decode_descend_partial t :
  huffman_tree t →
  ∀ str r c b q s fuel root out dec,
    (c, str ++ r ++ b :: q) ∈ leaf_paths t str →
    bit_ready s → pending_bits s = pattern_bits r →
    ∃ s', decode_loop (length r + S fuel) s root t out dec = Ret (dec, s', out).
Proof.
  induction 1 as [c0 n0|n0 zero one Hz IHz Ho IHo Hn];
    intros str r c b q s fuel root out dec Hin Hready Hpend.
  - cbn [leaf_paths] in Hin. apply list_elem_of_singleton in Hin.
    injection Hin as _ Hstr. apply (f_equal length) in Hstr.
    rewrite !length_app in Hstr. cbn [length] in Hstr. lia.
  - rewrite leaf_paths_link in Hin by (by apply huffman_tree_not_null).
    destruct r as [|b0 r].
    + change (pattern_bits []) with ([] : list Z) in Hpend.
      destruct (readBit_nil s Hready Hpend) as [_ Heof].
      eexists. cbn [length Nat.add].
      rewrite decode_loop_link by (by apply bit_ready_eof).
      by apply decode_loop_at_eof.
    + cbn [pattern_bits fmap list_fmap] in Hpend. fold (pattern_bits r) in Hpend.
      pose proof (bit_ready_eof s Hready) as Heof.
      cbn [length Nat.add]. rewrite decode_loop_link by done.
      apply elem_of_app in Hin as [Hin|Hin].
      * pose proof (leaf_paths_prefix _ _ _ _ Hin) as [k Hk].
        rewrite <-!app_assoc in Hk. apply app_inv_head in Hk.
        cbn [app] in Hk. injection Hk as -> Hk.
        rewrite bit_of_char_0 in Hpend.
        destruct (readBit_cons s 0 _ Hready Hpend) as (s1 & Hread & Hready1 & Hpend1 & _).
        rewrite Hread. cbn [fst snd Z.eqb].
        apply (IHz (str ++ ["0"%char]) r c b q); [|done|done].
        by rewrite <-app_assoc.
      * pose proof (leaf_paths_prefix _ _ _ _ Hin) as [k Hk].
        rewrite <-!app_assoc in Hk. apply app_inv_head in Hk.
        cbn [app] in Hk. injection Hk as -> Hk.
        rewrite bit_of_char_1 in Hpend.
        destruct (readBit_cons s 1 _ Hready Hpend) as (s1 & Hread & Hready1 & Hpend1 & _).
        rewrite Hread. cbn [fst snd Z.eqb].
        apply (IHo (str ++ ["1"%char]) r c b q); [|done|done].
        by rewrite <-app_assoc.
Qed.

Lemma decode_fuel s :
  ∃ k, (8 * length (ibuf s) + 9 = length (pending_bits s) + S k)%nat.
Proof.
  pose proof (pending_bits_length s).
  exists (8 * length (ibuf s) + 8 - length (pending_bits s))%nat. lia.
Qed.

(** A tree that is a single leaf has the one path, the empty one. *)
Lemma leaf_paths_leaf c n x p :
  (x, p) ∈ leaf_paths (Node c n nullptr nullptr) [] → x = c ∧ p = [].
Proof. cbn [leaf_paths]. intros Hin. apply list_elem_of_singleton in Hin. by injection Hin. Qed.

(** [decode] on the codewords of [syms] followed by the codeword of the
    end-of-stream symbol returns the characters of [syms]; what follows in
    the file is not looked at. *)
Lemma decode_complete root encodingMap syms s out tail :
  huffman_tree root →
  Forall (emitted_symbol root encodingMap) syms →
  (256, codeword encodingMap 256) ∈ leaf_paths root [] →
  bit_ready s →
  pending_bits s
  = pattern_bits ((syms ≫= codeword encodingMap) ++ codeword encodingMap 256) ++ tail →
  ∃ s', decode s root out
        = Ret (char_of_int <$> syms, s', out ++ (char_of_int <$> syms)).
Proof.
  intros Hroot Hsyms H256 Hready Hpend. unfold decode.
  destruct (decode_fuel s) as [k ->].
  rewrite pattern_bits_app, <-app_assoc in Hpend.
  destruct Hroot as [c n|n zero one Hz Ho Hn].
  - apply leaf_paths_leaf in H256 as [<- H256].
    destruct syms as [|x syms].
    + exists s. rewrite app_nil_r, Nat.add_succ_r.
      apply decode_loop_eos. by apply bit_ready_eof.
    + apply Forall_cons in Hsyms as [(Hx & _ & Hin) _].
      by apply leaf_paths_leaf in Hin as [-> _].
  - assert (huffman_tree (Node 257 n zero one)) as Hroot by (by apply huffman_link).
    destruct (decode_loop_symbols n zero one encodingMap syms Hroot Hsyms
                s out [] k _ Hready Hpend)
      as (s1 & Hready1 & Hpend1 & Hbuf1 & Hloop1).
    rewrite Hloop1.
    destruct (decode_loop_end _ encodingMap s1
                (out ++ (char_of_int <$> syms)) ([] ++ (char_of_int <$> syms)) k tail
                Hroot H256 Hready1 Hpend1) as (s' & Hloop').
    exists s'. by rewrite <-Hpend1, Hloop'.
Qed.

(** [decode] on the codewords of [syms] followed by an unfinished codeword
    and the end of the file returns the characters of [syms]. *)
Lemma decode_exhausted root encodingMap syms r s out :
  huffman_tree root →
  Forall (emitted_symbol root encodingMap) syms →
  unfinished_codeword root r →
  bit_ready s →
  pending_bits s = pattern_bits ((syms ≫= codeword encodingMap) ++ r) →
  ∃ s', decode s root out
        = Ret (char_of_int <$> syms, s', out ++ (char_of_int <$> syms)).
Proof.
  intros Hroot Hsyms (c & b & q & Hr) Hready Hpend. unfold decode.
  destruct (decode_fuel s) as [k ->].
  rewrite pattern_bits_app in Hpend.
  destruct Hroot as [c0 n|n zero one Hz Ho Hn].
  - apply leaf_paths_leaf in Hr as [_ Hr]. by destruct r.
  - assert (huffman_tree (Node 257 n zero one)) as Hroot by (by apply huffman_link).
    destruct (decode_loop_symbols n zero one encodingMap syms Hroot Hsyms
                s out [] k _ Hready Hpend)
      as (s1 & Hready1 & Hpend1 & Hbuf1 & Hloop1).
    rewrite Hloop1, pattern_bits_length.
    destruct (decode_descend_partial _ Hroot [] r c b q s1 k (Node 257 n zero one)
                (out ++ (char_of_int <$> syms)) ([] ++ (char_of_int <$> syms))
                Hr Hready1 Hpend1) as (s' & Hloop').
    exists s'. by rewrite Hloop'.
Qed.

(** ** The codewords of the keys of a table *)

Section Pipeline.
Context {PF : Platform} {PQ : PriorityQueue}.

(** Every key of the table other than 257 has a codeword, the path to
    its leaf. *)
Lemma key_codeword m t encodingMap key :
  hashmap_wf m → huffman_tree t → leaves t ≡ₚ entries m →
  buildEncodingMap t = Ret encodingMap →
  key ∈ keys m → key ≠ 257 →
  is_Some (encodingMap !! key) ∧ (key, codeword encodingMap key) ∈ leaf_paths t [].
Proof.
  intros Hwf Ht Hleaves Hmap Hkey Hne.
  rewrite buildEncodingMap_spec in Hmap by done. apply Ret_inj in Hmap. subst encodingMap.
  assert ((leaf_paths t []).*1 ≡ₚ keys m) as Hperm.
  { rewrite leaf_paths_fst, keys_entries by done. by rewrite Hleaves. }
  assert (NoDup (leaf_paths t []).*1) as Hnd.
  { rewrite Hperm. by apply NoDup_keys. }
  assert (key ∈ (leaf_paths t []).*1) as Hin by (by rewrite Hperm).
  apply list_elem_of_fmap in Hin as ([k p] & -> & Hin). cbn [fst] in *.
  pose proof (foldl_insert_path_elem _ ∅ k p Hnd Hin Hne (lookup_empty _)) as Hlook.
  unfold codeword. rewrite Hlook. split; [by eexists|done].
Qed.

(** ** The encoder *)

Lemma map_index_Some (encodingMap : hashmapE) key :
  is_Some (encodingMap !! key) →
  map_index encodingMap key = (codeword encodingMap key, encodingMap).
Proof. intros [p Hp]. unfold map_index, codeword. by rewrite Hp. Qed.

Lemma encode_key_Some (encodingMap : hashmapE) key encoded size :
  is_Some (encodingMap !! key) →
  encode_key key (encodingMap, encoded, size)
  = (encodingMap, encoded ++ codeword encodingMap key,
     to_int (size + Z.of_nat (length (codeword encodingMap key)))).
Proof. intros Hkey. unfold encode_key. by rewrite !map_index_Some. Qed.

Lemma encode_loop_spec (encodingMap : hashmapE) input : ∀ encoded size,
  Forall (λ c, is_Some (encodingMap !! int_of_char c)) input →
  ∃ size',
    encode_loop input (encodingMap, encoded, size)
    = (encodingMap, encoded ++ ((int_of_char <$> input) ≫= codeword encodingMap), size').
Proof.
  induction input as [|c input IH]; intros encoded size Hall.
  - exists size. by rewrite app_nil_r.
  - apply Forall_cons in Hall as [Hc Hall]. cbn [encode_loop].
    rewrite encode_key_Some by done.
    destruct (IH (encoded ++ codeword encodingMap (int_of_char c))
                 (to_int (size + Z.of_nat (length (codeword encodingMap (int_of_char c)))))
                 Hall) as [size' ->].
    exists size'. by rewrite fmap_cons, bind_cons, app_assoc.
Qed.

(** The bit pattern: the codewords of the characters, then the codeword
    of the end-of-stream symbol; the map is left as it was. *)
Lemma encode_spec (encodingMap : hashmapE) input output size makeFile :
  Forall (λ c, is_Some (encodingMap !! int_of_char c)) input →
  is_Some (encodingMap !! 256) →
  let encoded := ((int_of_char <$> input) ≫= codeword encodingMap)
                 ++ codeword encodingMap 256 in
  ∃ size',
    encode input encodingMap output size makeFile
    = (encoded, encodingMap,
       if makeFile then write_bits output encoded else output, size').
Proof.
  intros Hall H256 encoded. unfold encode.
  destruct (encode_loop_spec encodingMap input [] size Hall) as [size1 ->].
  rewrite encode_key_Some by done. cbn [app]. eexists. reflexivity.
Qed.

(** ** compress *)

(** What [compress] computes on the way, and what it writes. *)
Lemma compress_spec file :
  ∃ m t encodingMap payload pad,
    buildFrequencyMap file new_hashmap = Ret m ∧ hashmap_wf m
    ∧ buildEncodingTree m = Ret t ∧ huffman_tree t ∧ leaves t ≡ₚ entries m
    ∧ buildEncodingMap t = Ret encodingMap
    ∧ Forall (emitted_symbol t encodingMap) (int_of_char <$> file)
    ∧ (256, codeword encodingMap 256) ∈ leaf_paths t []
    ∧ let encoded := ((int_of_char <$> file) ≫= codeword encodingMap)
                     ++ codeword encodingMap 256 in
      compress file = Ret (encoded, header_text (entries m) ++ payload)
      ∧ bytes_bits payload = pattern_bits encoded ++ replicate pad 0.
Proof.
  destruct (buildFrequencyMap_spec file) as (m & Hm & Hwf & Hlook).
  assert (256 ∈ keys m) as H256.
  { apply (buildFrequencyMap_keys file m 256 Hm). by left. }
  assert (entries m ≠ []) as Hne.
  { rewrite keys_entries in H256 by done. intros Hnil. rewrite Hnil in H256.
    by apply not_elem_of_nil in H256. }
  destruct (buildEncodingTree_spec m Hwf Hne) as (t & Ht & Hshape & Hleaves).
  pose proof (buildEncodingMap_spec t Hshape) as Hmap.
  set (encodingMap := foldl insert_path ∅ (leaf_paths t [])) in *.
  assert (∀ c, c ∈ file →
            is_Some (encodingMap !! int_of_char c)
            ∧ (int_of_char c, codeword encodingMap (int_of_char c)) ∈ leaf_paths t [])
    as Hchars.
  { intros c Hc. apply (key_codeword m t); try done.
    - apply (buildFrequencyMap_keys file m _ Hm). right. eauto.
    - pose proof (int_of_char_range c). lia. }
  destruct (key_codeword m t encodingMap 256 Hwf Hshape Hleaves Hmap H256)
    as [Heos Heos_path]; [done|].
  assert (Forall (λ c, is_Some (encodingMap !! int_of_char c)) file) as Hall.
  { apply Forall_forall. intros c Hc. by apply Hchars. }
  set (out := appended new_obitstream (header_text (entries m))).
  destruct (encode_spec encodingMap file out 0 true Hall Heos) as [size' Henc].
  destruct (write_bits_spec out
              (((int_of_char <$> file) ≫= codeword encodingMap) ++ codeword encodingMap 256))
    as (payload & pad & Hbuf & Hbits); [done|done|by right|].
  exists m, t, encodingMap, payload, pad.
  split; [done|]. split; [done|]. split; [done|]. split; [done|]. split; [done|].
  split; [done|]. split; [|split; [done|]].
  - apply Forall_fmap, Forall_forall. intros c Hc. unfold emitted_symbol. cbn.
    pose proof (int_of_char_range c). split; [lia|]. split; [lia|]. by apply Hchars.
  - cbv zeta. split; [|done].
    unfold compress. rewrite Hm. simpl_outcome. rewrite Ht. simpl_outcome.
    rewrite Hmap. simpl_outcome.
    rewrite operator_out_spec by done. simpl_outcome.
    fold out. rewrite Henc. by rewrite Hbuf.
Qed.

(** ** decompress *)

Lemma fresh_header file n : fresh (advance (open_ibitstream file) n) = true.
Proof. unfold fresh. apply orb_true_intro. by right. Qed.

Lemma bit_ready_header file n :
  bit_ready (advance (open_ibitstream file) n).
Proof. split; [done|done| |]; intros Hf; by rewrite fresh_header in Hf. Qed.

Lemma pending_bits_header header payload :
  pending_bits (advance (open_ibitstream (header ++ payload)) (length header))
  = bytes_bits payload.
Proof.
  unfold pending_bits. rewrite fresh_header.
  rewrite unread_advance. unfold unread. cbn [open_ibitstream ibuf gpos].
  by rewrite drop_0, drop_app_length.
Qed.

(** [decompress] of what [compress] wrote returns the bytes of the file
    and writes them to the output file. *)
Lemma decompress_compress file :
  ∃ encoded container,
    compress file = Ret (encoded, container)
    ∧ decompress container = Ret (file, file).
Proof.
  destruct (compress_spec file)
    as (m & t & encodingMap & payload & pad & Hm & Hwf & Ht & Hshape & Hleaves
        & Hmap & Hsyms & Heos & Hcompress & Hbits).
  cbv zeta in Hcompress, Hbits.
  eexists _, _. split; [exact Hcompress|].
  unfold decompress. rewrite operator_in_header by done. simpl_outcome.
  rewrite Ht. simpl_outcome.
  destruct (decode_complete t encodingMap (int_of_char <$> file)
              (advance (open_ibitstream (header_text (entries m) ++ payload))
                       (length (header_text (entries m))))
              [] (replicate pad 0) Hshape Hsyms Heos (bit_ready_header _ _))
    as (s' & Hdecode).
  { by rewrite pending_bits_header, Hbits. }
  rewrite Hdecode. simpl_outcome.
  assert (char_of_int <$> (int_of_char <$> file) = file) as ->; [|done].
  rewrite <-list_fmap_compose. rewrite <-(list_fmap_id file) at 2.
  apply list_fmap_ext. intros _ c _. apply char_of_int_of_char.
Qed.

End Pipeline.

(** ** Construction histories *)

Lemma constructed_inv ops m :
  constructed ops m →
  (ops = [] ∧ m = new_hashmap)
  ∨ ∃ ops' n key value,
      ops = ops' ++ [(key, value)] ∧ constructed ops' n ∧ put n key value = Ret m.
Proof. destruct 1; [by left|right; eauto 10]. Qed.

Lemma constructed_functional ops : ∀ m1 m2,
  constructed ops m1 → constructed ops m2 → m1 = m2.
Proof.
  induction ops as [|op ops IH] using rev_ind; intros m1 m2 H1 H2.
  - apply constructed_inv in H1 as [[_ ->]|(ops1 & ? & ? & ? & Heq & _)];
      [|by destruct ops1].
    apply constructed_inv in H2 as [[_ ->]|(ops2 & ? & ? & ? & Heq & _)];
      [done|by destruct ops2].
  - apply constructed_inv in H1 as [[Heq _]|(ops1 & n1 & k1 & v1 & Heq1 & Hc1 & Hput1)];
      [by destruct ops|].
    apply constructed_inv in H2 as [[Heq _]|(ops2 & n2 & k2 & v2 & Heq2 & Hc2 & Hput2)];
      [by destruct ops|].
    apply app_inj_tail in Heq1 as [-> ->]. apply app_inj_tail in Heq2 as [-> [= -> ->]].
    rewrite (IH n1 n2 Hc1 Hc2) in Hput1. rewrite Hput1 in Hput2. by apply Ret_inj in Hput2.
Qed.

Lemma constructed_put_all ops : ∀ ops0 m0 m,
  constructed ops0 m0 →
  Forall (λ e, is_int e.1 ∧ is_int e.2) ops →
  put_all m0 ops = Ret m →
  constructed (ops0 ++ ops) m.
Proof.
  induction ops as [|[k v] ops IH]; intros ops0 m0 m Hc Hint Hput.
  - rewrite app_nil_r. apply Ret_inj in Hput. by subst.
  - apply Forall_cons in Hint as [[Hk Hv] Hint]. cbn [fst snd] in Hk, Hv.
    cbn [put_all] in Hput. apply bind_Ret_inv in Hput as (m1 & Hput1 & Hput).
    rewrite cons_middle, app_assoc. eapply IH; [|done|done].
    by eapply constructed_put.
Qed.

(** A table obtained by a sequence of [put]s of [int]s is reachable. *)
Lemma reachable_put_all ops m :
  Forall (λ e, is_int e.1 ∧ is_int e.2) ops →
  put_all new_hashmap ops = Ret m → reachable m.
Proof.
  intros Hint Hput. exists ops.
  apply (constructed_put_all ops [] new_hashmap m); [constructor|done|done].
Qed.

(** ** Merging a list of entries into a table *)

Lemma put_all_lookup es : ∀ m,
  hashmap_wf m →
  Forall (λ e, valid_key e.1 ∧ is_int e.1 ∧ is_int e.2) es →
  NoDup es.*1 →
  ∃ m', put_all m es = Ret m' ∧ hashmap_wf m'
      ∧ ∀ key, table_lookup m' key =
               match get_chain es key with
               | Some v => Some v
               | None => table_lookup m key
               end.
Proof.
  induction es as [|[k v] es IH]; intros m Hwf Hall Hnd.
  - by exists m.
  - apply Forall_cons in Hall as [(Hk & Hik & Hiv) Hall]. cbn [fst snd] in *.
    rewrite fmap_cons in Hnd. apply NoDup_cons in Hnd as [Hkes Hnd].
    destruct (put_Ret m k v Hwf Hk) as [m1 Hput1].
    pose proof (put_wf m k v m1 Hwf Hik Hiv Hput1) as Hwf1.
    destruct (IH m1 Hwf1 Hall Hnd) as (m' & Hput & Hwf' & Hlook).
    exists m'. split; [|split; [done|]].
    + cbn [put_all]. by rewrite Hput1.
    + intros key. rewrite Hlook, (table_lookup_put m k v m1 key Hwf Hput1).
      cbn [get_chain]. destruct (Z.eqb_spec k key) as [->|Hne].
      * cbn [fst] in Hkes. apply get_chain_None in Hkes. rewrite Hkes.
        by rewrite decide_True.
      * destruct (get_chain es key); [done|]. by rewrite decide_False by congruence.
Qed.

Lemma get_chain_entries m key :
  hashmap_wf m → get_chain (entries m) key = table_lookup m key.
Proof.
  intros Hwf. pose proof (NoDup_entries m Hwf) as Hnd.
  destruct (get_chain (entries m) key) as [v|] eqn:Hget.
  - apply get_chain_Some in Hget; [|done]. symmetry. by apply elem_of_entries.
  - destruct (table_lookup m key) as [v|] eqn:Hlook; [|done].
    apply elem_of_entries in Hlook; [|done].
    apply get_chain_Some in Hlook; [|done]. congruence.
Qed.

Lemma get_key m key :
  hashmap_wf m → key ∈ keys m →
  ∃ value, table_lookup m key = Some value ∧ get m key = Ret value.
Proof.
  intros Hwf Hkey. apply elem_of_keys in Hkey as [v Hv]; [|done].
  exists v. split; [done|]. apply get_present; [done|]. by apply elem_of_entries.
Qed.

(** ** Exact counts *)

Lemma total_count_app es1 es2 : total_count (es1 ++ es2) = total_count es1 + total_count es2.
Proof.
  induction es1 as [|e es1 IH]; [done|].
  cbn [app total_count foldr] in *. fold (total_count (es1 ++ es2)).
  fold (total_count es1). lia.
Qed.

Lemma total_count_nonneg es : Forall (λ e, 0 ≤ e.2) es → 0 ≤ total_count es.
Proof.
  induction 1 as [|e es He _ IH]; [done|].
  cbn [total_count foldr]. fold (total_count es). lia.
Qed.

Lemma total_count_perm es1 es2 : es1 ≡ₚ es2 → total_count es1 = total_count es2.
Proof.
  induction 1 as [|e es1 es2 _ IH|e1 e2 es|es1 es2 es3 _ IH1 _ IH2]; [done| | |congruence].
  - cbn [total_count foldr]. fold (total_count es1). fold (total_count es2). lia.
  - cbn [total_count foldr]. lia.
Qed.

(** With counts that are not negative and whose total is an [int], the
    [int] sums of the tree are the exact sums. *)
Lemma huffman_tree_exact t :
  huffman_tree t →
  Forall (λ e, 0 ≤ e.2) (leaves t) → total_count (leaves t) ≤ INT_MAX →
  exact_counts t ∧ node_count t = total_count (leaves t).
Proof.
  induction 1 as [c n|n zero one Hz IHz Ho IHo Hn]; intros Hnn Htotal.
  - split; [constructor|]. cbn. lia.
  - rewrite leaves_link in Hnn, Htotal |- * by (by apply huffman_tree_not_null).
    apply Forall_app in Hnn as [Hnnz Hnno]. rewrite total_count_app in Htotal |- *.
    pose proof (total_count_nonneg _ Hnnz). pose proof (total_count_nonneg _ Hnno).
    destruct IHz as [Hez Hcz]; [done|lia|]. destruct IHo as [Heo Hco]; [done|lia|].
    assert (n = node_count zero + node_count one) as Hexact.
    { rewrite Hn. apply to_int_id. unfold is_int, INT_MIN, INT_MAX in *. lia. }
    split; [by constructor|]. cbn [node_count]. lia.
Qed.

(** A tree of the built shape with one leaf is that leaf. *)
Lemma huffman_tree_single t e :
  huffman_tree t → leaves t ≡ₚ [e] → t = leaf_node e.
Proof.
  intros Ht Hperm. apply Permutation_singleton_r in Hperm.
  destruct Ht as [c n|n zero one Hz Ho Hn].
  - cbn in Hperm. by injection Hperm as <-.
  - rewrite leaves_link in Hperm by (by apply huffman_tree_not_null).
    pose proof (leaves_not_nil _ Hz). pose proof (leaves_not_nil _ Ho).
    apply (f_equal length) in Hperm. rewrite length_app in Hperm.
    destruct (leaves zero), (leaves one); try done. simpl in Hperm. lia.
Qed.

(** ** More on the table *)

(** The well-formed tables are the reachable ones. *)
Lemma wf_reachable m : hashmap_wf m → reachable m.
Proof.
  intros Hwf. apply (reachable_put_all (entries m)).
  - by apply entries_ints.
  - by apply put_all_entries.
Qed.

Lemma reachable_put m key value m' :
  reachable m → is_int key → is_int value → put m key value = Ret m' → reachable m'.
Proof.
  intros [ops Hc] Hk Hv Hput. exists (ops ++ [(key, value)]). by eapply constructed_put.
Qed.

Lemma keys_chain m key :
  hashmap_wf m → valid_key key → key ∈ keys m ↔ key ∈ (chain_of m key).*1.
Proof.
  intros Hwf Hk. rewrite elem_of_keys by done. unfold table_lookup.
  apply get_chain_is_Some.
Qed.

Lemma chain_of_bucket m key key' :
  bucket_of key = bucket_of key' → chain_of m key = chain_of m key'.
Proof. unfold chain_of. by intros ->. Qed.

Lemma chain_of_elem m key k v :
  hashmap_wf m → valid_key key → (k, v) ∈ chain_of m key →
  k ∈ keys m ∧ bucket_of k = bucket_of key.
Proof.
  intros Hwf Hk Hin. pose proof (chain_of_lookup m key Hwf Hk) as Hchain.
  destruct (wf_bucket m Hwf _ _ k v Hchain Hin) as (Hvk & Hb & _ & _).
  split; [|done]. rewrite keys_entries by done.
  apply list_elem_of_fmap. exists (k, v). split; [done|].
  apply elem_of_entries_bucket; [done|]. split; [done|].
  by rewrite (chain_of_bucket m k key).
Qed.

(** The bucket of a key is empty exactly when no key of the table shares it. *)
Lemma chain_of_nil m key :
  hashmap_wf m → valid_key key →
  chain_of m key = [] ↔ ∀ k, k ∈ keys m → bucket_of k ≠ bucket_of key.
Proof.
  intros Hwf Hk. split.
  - intros Hnil k Hin Hb. pose proof (keys_valid m k Hwf Hin) as Hvk.
    apply (keys_chain m k Hwf Hvk) in Hin.
    rewrite (chain_of_bucket m k key Hb), Hnil in Hin. by apply not_elem_of_nil in Hin.
  - intros Hnone. destruct (chain_of m key) as [|[k v] rest] eqn:Hchain; [done|].
    destruct (chain_of_elem m key k v Hwf Hk) as [Hin Hb].
    { rewrite Hchain. apply list_elem_of_here. }
    by destruct (Hnone k Hin).
Qed.

(** Replacing a bucket by one with the same keys, or with one more key. *)
Lemma join_insert_split (l : list bucket) i node node' :
  l !! i = Some node →
  mjoin l = mjoin (take i l) ++ node ++ mjoin (drop (S i) l)
  ∧ mjoin (<[i := node']> l) = mjoin (take i l) ++ node' ++ mjoin (drop (S i) l).
Proof.
  intros Hi. pose proof (lookup_lt_Some _ _ _ Hi) as Hlt. split.
  - rewrite <-(take_drop_middle l i node Hi) at 1. by rewrite join_app, join_cons.
  - rewrite insert_take_drop by done. by rewrite join_app, join_cons.
Qed.

Lemma put_keys_spec m key value m' :
  hashmap_wf m → put m key value = Ret m' →
  ∃ before after,
    keys m = before ++ after
    ∧ keys m' = (if bool_decide (key ∈ keys m) then before ++ after
                 else before ++ key :: after)
    ∧ nElems m' = (if bool_decide (key ∈ keys m) then nElems m
                   else to_int (nElems m + 1)).
Proof.
  intros Hwf Hput. pose proof (put_Ret_valid _ _ _ _ Hwf Hput) as Hk.
  pose proof (chain_of_lookup m key Hwf Hk) as Hchain.
  pose proof Hput as Hput'.
  rewrite (put_spec m key value Hwf Hk) in Hput'. apply Ret_inj in Hput'.
  destruct (join_insert_split (buckets m) (bucket_of key) (chain_of m key)
              (bucket_put (chain_of m key) key value) Hchain) as [Hold Hnew].
  assert (keys m = (entries m).*1) as Hkm by (by apply keys_entries).
  assert (keys m' = (mjoin (<[bucket_of key := bucket_put (chain_of m key) key value]>
                              (buckets m))).*1) as Hkm'.
  { subst m'. unfold keys. cbn [buckets nBuckets]. rewrite (wf_nBuckets m Hwf).
    replace (Z.to_nat 10) with (length (<[bucket_of key :=
               bucket_put (chain_of m key) key value]> (buckets m))).
    - rewrite (flat_map_lookup_seq (λ node : bucket, node.*1)).
      generalize (<[bucket_of key := bucket_put (chain_of m key) key value]> (buckets m)).
      induction l as [|x l IH]; [done|]. csimpl. by rewrite fmap_app, IH.
    - rewrite length_insert. by rewrite (wf_length m Hwf). }
  unfold entries in Hkm. rewrite Hold in Hkm. rewrite Hnew in Hkm'.
  rewrite !fmap_app in Hkm, Hkm'. rewrite bucket_put_keys in Hkm'.
  assert (bool_decide (key ∈ (chain_of m key).*1) = bool_decide (key ∈ keys m)) as Hdec.
  { apply bool_decide_ext. symmetry. by apply keys_chain. }
  rewrite Hdec in Hkm'.
  exists ((mjoin (take (bucket_of key) (buckets m))).*1 ++ (chain_of m key).*1),
         ((mjoin (drop (S (bucket_of key)) (buckets m))).*1).
  split; [by rewrite <-app_assoc|]. split.
  - rewrite Hkm'. destruct (bool_decide (key ∈ keys m)).
    + by rewrite <-app_assoc.
    + by rewrite <-!app_assoc.
  - subst m'. cbn [nElems]. by rewrite Hdec.
Qed.

(** ** Copies of a table *)

Lemma copy_entries_put_all myMap es : ∀ this,
  hashmap_wf myMap → Forall (λ e, e ∈ entries myMap) es →
  copy_entries this myMap es.*1 = put_all this es.
Proof.
  induction es as [|[k v] es IH]; intros this Hwf Hall; [done|].
  apply Forall_cons in Hall as [Hin Hall].
  cbn [fmap list_fmap fst copy_entries put_all].
  rewrite (get_present myMap k v Hwf Hin). simpl_outcome.
  destruct (put this k v) as [this'| | | |]; simpl_outcome; try done.
  by apply IH.
Qed.

Lemma copy_entries_keys this myMap :
  hashmap_wf myMap → copy_entries this myMap (keys myMap) = put_all this (entries myMap).
Proof.
  intros Hwf. rewrite keys_entries by done.
  apply copy_entries_put_all; [done|]. by apply Forall_forall.
Qed.

(** [put] does not look at [nElems]. *)
Lemma put_nElems m c key value m' d :
  buckets c = buckets m → nBuckets c = nBuckets m →
  nElems c = to_int (nElems m + d) →
  put m key value = Ret m' →
  ∃ c', put c key value = Ret c' ∧ buckets c' = buckets m'
      ∧ nBuckets c' = nBuckets m' ∧ nElems c' = to_int (nElems m' + d).
Proof.
  intros Hb Hn He. unfold put, bucket_index, bucket_at. rewrite Hb, Hn.
  destruct (0 <=? Z.rem (hashFunction key) (nBuckets m)); [|done].
  destruct (buckets m !! Z.to_nat (Z.rem (hashFunction key) (nBuckets m)))
    as [node|]; [|done]. simpl_outcome.
  assert (to_int (nElems c + 1) = to_int (to_int (nElems m + 1) + d)) as Hinc.
  { rewrite He, !to_int_add_l. f_equal. lia. }
  destruct node as [|e node].
  - intros Hput. apply Ret_inj in Hput. subst m'. eexists. split; [done|].
    cbn [buckets nBuckets nElems]. by rewrite Hinc.
  - destruct (put_chain (e :: node) key value) as [chain [|]];
      intros Hput; apply Ret_inj in Hput; subst m';
      (eexists; split; [done|]); cbn [buckets nBuckets nElems]; by rewrite ?Hinc.
Qed.

Lemma put_all_nElems es : ∀ m c m' d,
  buckets c = buckets m → nBuckets c = nBuckets m →
  nElems c = to_int (nElems m + d) →
  put_all m es = Ret m' →
  ∃ c', put_all c es = Ret c' ∧ buckets c' = buckets m'
      ∧ nBuckets c' = nBuckets m' ∧ nElems c' = to_int (nElems m' + d).
Proof.
  induction es as [|[k v] es IH]; intros m c m' d Hb Hn He Hput.
  - apply Ret_inj in Hput. subst m'. by exists c.
  - cbn [put_all] in Hput |- *. apply bind_Ret_inv in Hput as (m1 & Hput1 & Hput).
    destruct (put_nElems m c k v m1 d Hb Hn He Hput1) as (c1 & Hc1 & Hb1 & Hn1 & He1).
    rewrite Hc1. simpl_outcome. by apply (IH m1 c1 m' d).
Qed.

Lemma keys_buckets c m :
  buckets c = buckets m → nBuckets c = nBuckets m → keys c = keys m.
Proof. unfold keys. by intros -> ->. Qed.

Lemma get_buckets c m key :
  buckets c = buckets m → nBuckets c = nBuckets m → get c key = get m key.
Proof. unfold get, bucket_index, bucket_at. by intros -> ->. Qed.

(** ** More on the encoder *)

Lemma codeword_map_index (encodingMap : hashmapE) key key' :
  codeword (map_index encodingMap key).2 key' = codeword encodingMap key'.
Proof.
  unfold map_index, codeword. destruct (encodingMap !! key) eqn:Hkey; [done|].
  cbn [snd]. destruct (decide (key' = key)) as [->|Hne].
  - by rewrite lookup_insert_eq, Hkey.
  - by rewrite lookup_insert_ne.
Qed.

Lemma map_index_fst (encodingMap : hashmapE) key :
  (map_index encodingMap key).1 = codeword encodingMap key.
Proof. unfold map_index, codeword. by destruct (encodingMap !! key). Qed.

Lemma encode_key_spec (encodingMap : hashmapE) key encoded size :
  encode_key key (encodingMap, encoded, size)
  = ((map_index encodingMap key).2, encoded ++ codeword encodingMap key,
     to_int (size + Z.of_nat (length (codeword encodingMap key)))).
Proof.
  unfold encode_key.
  destruct (map_index encodingMap key) as [str em1] eqn:H1.
  pose proof (map_index_fst encodingMap key) as Hstr.
  pose proof (codeword_map_index encodingMap key key) as Hcw.
  rewrite H1 in Hstr, Hcw. cbn [fst snd] in Hstr, Hcw. subst str.
  assert (is_Some (em1 !! key)) as Hsome.
  { apply (f_equal snd) in H1. cbn [snd] in H1. subst em1. unfold map_index.
    destruct (encodingMap !! key) eqn:Hkey; cbn [snd].
    - by rewrite Hkey.
    - by rewrite lookup_insert_eq. }
  rewrite (map_index_Some em1 key Hsome). by rewrite Hcw.
Qed.

Lemma codeword_index_all ks : ∀ (encodingMap : hashmapE) key,
  codeword (index_all encodingMap ks) key = codeword encodingMap key.
Proof.
  induction ks as [|k ks IH]; intros encodingMap key; [done|].
  cbn [index_all foldl]. fold (index_all (map_index encodingMap k).2 ks).
  by rewrite IH, codeword_map_index.
Qed.

Lemma index_all_app (encodingMap : hashmapE) ks1 ks2 :
  index_all encodingMap (ks1 ++ ks2) = index_all (index_all encodingMap ks1) ks2.
Proof. unfold index_all. by rewrite foldl_app. Qed.

Lemma index_all_lookup ks : ∀ (encodingMap : hashmapE) key,
  index_all encodingMap ks !! key =
    match encodingMap !! key with
    | Some str => Some str
    | None => if bool_decide (key ∈ ks) then Some [] else None
    end.
Proof.
  induction ks as [|k ks IH]; intros encodingMap key.
  - cbn [index_all foldl]. destruct (encodingMap !! key); [done|].
    rewrite bool_decide_eq_false_2; [done|]. apply not_elem_of_nil.
  - cbn [index_all foldl]. fold (index_all (map_index encodingMap k).2 ks).
    rewrite IH. unfold map_index.
    destruct (encodingMap !! k) eqn:Hk; cbn [snd].
    + destruct (encodingMap !! key) eqn:Hkey; [done|].
      assert (key ∈ ks ↔ key ∈ k :: ks) as Hiff.
      { rewrite elem_of_cons. split; [tauto|]. intros [->|?]; [congruence|done]. }
      by rewrite (bool_decide_ext _ _ Hiff).
    + destruct (decide (key = k)) as [->|Hne].
      * rewrite lookup_insert_eq, Hk.
        rewrite (bool_decide_eq_true_2 (k ∈ k :: ks)); [done|]. apply list_elem_of_here.
      * rewrite lookup_insert_ne by done.
        destruct (encodingMap !! key); [done|].
        assert (key ∈ ks ↔ key ∈ k :: ks) as Hiff.
        { rewrite elem_of_cons. naive_solver. }
        by rewrite (bool_decide_ext _ _ Hiff).
Qed.

Section Encoder.
Context {PF : Platform}.

Lemma encode_loop_general input : ∀ (encodingMap : hashmapE) encoded size,
  ∃ size',
    encode_loop input (encodingMap, encoded, size)
    = (index_all encodingMap (int_of_char <$> input),
       encoded ++ ((int_of_char <$> input) ≫= codeword encodingMap), size')
    ∧ to_int size'
      = to_int (size + Z.of_nat (length ((int_of_char <$> input) ≫= codeword encodingMap))).
Proof.
  induction input as [|c input IH]; intros encodingMap encoded size.
  - exists size. cbn. by rewrite app_nil_r, Z.add_0_r.
  - cbn [encode_loop]. rewrite encode_key_spec.
    assert ((int_of_char <$> input) ≫= codeword (map_index encodingMap (int_of_char c)).2
            = (int_of_char <$> input) ≫= codeword encodingMap) as Hext.
    { apply list_bind_ext; [|done]. intros key. apply codeword_map_index. }
    destruct (IH (map_index encodingMap (int_of_char c)).2
                 (encoded ++ codeword encodingMap (int_of_char c))
                 (to_int (size + Z.of_nat (length (codeword encodingMap (int_of_char c))))))
      as (size' & -> & Hsize).
    rewrite Hext in Hsize |- *.
    exists size'. rewrite fmap_cons, bind_cons. split.
    + cbn [index_all foldl]. by rewrite <-app_assoc.
    + rewrite Hsize, to_int_add_l, length_app. f_equal. lia.
Qed.

(** What [encode] returns for any map: the codewords the map has, nothing
    for the symbols it lacks. *)
Lemma encode_general (encodingMap : hashmapE) input output size makeFile :
  let encoded := ((int_of_char <$> input) ≫= codeword encodingMap)
                 ++ codeword encodingMap 256 in
  encode input encodingMap output size makeFile
  = (encoded, index_all encodingMap ((int_of_char <$> input) ++ [256]),
     if makeFile then write_bits output encoded else output,
     to_int (size + Z.of_nat (length encoded))).
Proof.
  intros encoded. unfold encode.
  destruct (encode_loop_general input encodingMap [] size) as (size' & -> & Hsize).
  rewrite encode_key_spec. rewrite codeword_index_all. cbn [app].
  fold encoded. rewrite index_all_app. cbn [index_all foldl].
  f_equal. rewrite <-to_int_add_l, Hsize, to_int_add_l. f_equal.
  unfold encoded. rewrite length_app. lia.
Qed.

End Encoder.

(** ** The layout of the container *)

Lemma writing_pad base bits out :
  writing base bits out →
  ∃ payload pad,
    obuf out = base ++ payload ∧ bytes_bits payload = bits ++ replicate pad 0
    ∧ (pad < 8)%nat.
Proof.
  destruct 1 as [out Hbuf _ _ _|out full cur w Hbuf _ _ _ _ Hw _ Hbits].
  - exists [], 0%nat. rewrite Hbuf, app_nil_r. split; [done|]. split; [done|lia].
  - exists (full ++ [cur]), (8 - length w)%nat. split; [done|]. split; [|lia].
    rewrite bytes_bits_app, bytes_bits_cons, Hbits.
    change (bytes_bits []) with ([] : list Z). by rewrite app_nil_r, app_assoc.
Qed.

Section Container.
Context {PF : Platform} {PQ : PriorityQueue}.

Lemma write_bits_pad out encoded :
  at_end out → o_fake out = false →
  o_lastTell out ≠ tellp out ∨ o_pos out = 8 →
  ∃ payload pad,
    obuf (write_bits out encoded) = obuf out ++ payload
    ∧ bytes_bits payload = pattern_bits encoded ++ replicate pad 0
    ∧ (pad < 8)%nat.
Proof.
  intros Hend Hfake Hfresh.
  apply (writing_pad (obuf out) (pattern_bits encoded)).
  apply (write_bits_writing (obuf out) encoded [] out).
  by apply writing_none.
Qed.

(** The payload [compress] writes has fewer than eight padding bits. *)
Lemma compress_layout file :
  ∃ m t encodingMap payload pad,
    buildFrequencyMap file new_hashmap = Ret m ∧ hashmap_wf m
    ∧ buildEncodingTree m = Ret t ∧ huffman_tree t ∧ leaves t ≡ₚ entries m
    ∧ buildEncodingMap t = Ret encodingMap
    ∧ Forall (emitted_symbol t encodingMap) (int_of_char <$> file)
    ∧ (256, codeword encodingMap 256) ∈ leaf_paths t []
    ∧ (pad < 8)%nat
    ∧ let encoded := ((int_of_char <$> file) ≫= codeword encodingMap)
                     ++ codeword encodingMap 256 in
      compress file = Ret (encoded, header_text (entries m) ++ payload)
      ∧ bytes_bits payload = pattern_bits encoded ++ replicate pad 0.
Proof.
  destruct (compress_spec file)
    as (m & t & encodingMap & payload & pad & Hm & Hwf & Ht & Hshape & Hleaves
        & Hmap & Hsyms & Heos & Hcompress & Hbits).
  cbv zeta in Hcompress, Hbits.
  set (encoded := ((int_of_char <$> file) ≫= codeword encodingMap)
                  ++ codeword encodingMap 256) in *.
  set (out := appended new_obitstream (header_text (entries m))).
  destruct (write_bits_pad out encoded) as (payload' & pad' & Hbuf & Hbits' & Hpad);
    [done|done|by right|].
  assert (compress file = Ret (encoded, header_text (entries m) ++ payload')) as Hc.
  { unfold compress. rewrite Hm. simpl_outcome. rewrite Ht. simpl_outcome.
    rewrite Hmap. simpl_outcome. rewrite operator_out_spec by done. simpl_outcome.
    fold out. rewrite encode_general. cbv zeta. fold encoded. by rewrite Hbuf. }
  exists m, t, encodingMap, payload', pad'.
  do 9 (split; [done|]). cbv zeta. by split.
Qed.

(** [decompress] of what [compress] wrote, with anything behind it. *)
Lemma decompress_compress_trailing file extra :
  ∃ encoded container,
    compress file = Ret (encoded, container)
    ∧ decompress (container ++ extra) = Ret (file, file).
Proof.
  destruct (compress_spec file)
    as (m & t & encodingMap & payload & pad & Hm & Hwf & Ht & Hshape & Hleaves
        & Hmap & Hsyms & Heos & Hcompress & Hbits).
  cbv zeta in Hcompress, Hbits.
  eexists _, _. split; [exact Hcompress|].
  unfold decompress. rewrite <-app_assoc.
  rewrite operator_in_header by done. simpl_outcome.
  rewrite Ht. simpl_outcome.
  destruct (decode_complete t encodingMap (int_of_char <$> file)
              (advance (open_ibitstream (header_text (entries m) ++ payload ++ extra))
                       (length (header_text (entries m))))
              [] (replicate pad 0 ++ bytes_bits extra) Hshape Hsyms Heos
              (bit_ready_header _ _))
    as (s' & Hdecode).
  { by rewrite pending_bits_header, bytes_bits_app, Hbits, <-app_assoc. }
  rewrite Hdecode. simpl_outcome.
  assert (char_of_int <$> (int_of_char <$> file) = file) as ->; [|done].
  rewrite <-list_fmap_compose. rewrite <-(list_fmap_id file) at 2.
  apply list_fmap_ext. intros _ c _. apply char_of_int_of_char.
Qed.

End Container.

(** ** Frequencies added to a table that has entries *)

Section Accumulate.
Context {PF : Platform}.

Lemma buildFrequencyMap_general source h :
  hashmap_wf h →
  ∃ m, buildFrequencyMap source h = Ret m ∧ hashmap_wf m
     ∧ ∀ key, table_lookup m key =
              if decide (key = 256) then Some 1
              else add_count (table_lookup h key) (occurrences key source).
Proof.
  intros Hh. destruct (count_chars_spec source h Hh) as (h' & Hh' & Hwf & Hlook).
  assert (valid_key 256) as Hk by (apply valid_key_small; lia).
  destruct (put_Ret h' 256 1 Hwf Hk) as [m Hput].
  exists m. split; [|split].
  - unfold buildFrequencyMap. by rewrite Hh'.
  - eapply put_wf; [done| | |done]; by vm_compute.
  - intros key. rewrite (table_lookup_put _ _ _ _ key Hwf Hput).
    case_decide; [done|]. by rewrite Hlook.
Qed.

Lemma occurrences_le key source : (occurrences key source ≤ length source)%nat.
Proof. unfold occurrences. apply length_filter. Qed.

Lemma add_count_Some held n :
  (∀ v, held = Some v → is_int v) →
  is_Some (add_count held n) ↔ is_Some held ∨ (0 < n)%nat.
Proof.
  intros Hint. destruct n as [|n]; cbn [add_count].
  - split; [by left|]. intros [?|?]; [done|lia].
  - split; [right; lia|]. by intros _.
Qed.

Lemma add_count_value v n :
  is_int v → add_count (Some v) n = Some (to_int (v + Z.of_nat n)).
Proof.
  intros Hv. destruct n as [|n]; cbn [add_count default]; [|done].
  by rewrite Z.add_0_r, to_int_id.
Qed.

End Accumulate.

(** ** The codewords *)

Lemma leaf_paths_bits t : ∀ str c p,
  Forall is_bit_char str → (c, p) ∈ leaf_paths t str → Forall is_bit_char p.
Proof.
  induction t as [|c0 n zero IHz one IHo]; intros str c p Hstr Hin.
  - by apply not_elem_of_nil in Hin.
  - cbn [leaf_paths] in Hin.
    assert ((c, p) ∈ leaf_paths zero (str ++ ["0"%char])
                     ++ leaf_paths one (str ++ ["1"%char]) → Forall is_bit_char p) as Hrec.
    { intros Hin'. apply elem_of_app in Hin' as [Hin'|Hin'].
      - apply (IHz (str ++ ["0"%char]) c p); [|done]. apply Forall_app. split; [done|].
        apply Forall_singleton. by left.
      - apply (IHo (str ++ ["1"%char]) c p); [|done]. apply Forall_app. split; [done|].
        apply Forall_singleton. by right. }
    destruct zero; [destruct one|]; try (by apply Hrec).
    apply list_elem_of_singleton in Hin. by injection Hin as -> ->.
Qed.

Lemma leaf_paths_nonempty n zero one c p :
  huffman_tree (Node 257 n zero one) → zero ≠ nullptr →
  (c, p) ∈ leaf_paths (Node 257 n zero one) [] → p ≠ [].
Proof.
  intros Ht Hz Hin. rewrite leaf_paths_link in Hin by done.
  apply elem_of_app in Hin as [Hin|Hin]; apply leaf_paths_prefix in Hin;
    destruct Hin as [q ->]; done.
Qed.

(** A tree of the built shape with two leaves or more has children. *)
Lemma huffman_tree_link t :
  huffman_tree t → (2 ≤ length (leaves t))%nat →
  ∃ n zero one, t = Node 257 n zero one ∧ huffman_tree zero ∧ huffman_tree one.
Proof.
  destruct 1 as [c n|n zero one Hz Ho Hn]; intros Hlen.
  - simpl in Hlen. lia.
  - by exists n, zero, one.
Qed.

(** ** The order of the children *)

Section Ordered.
Context {PQ : PriorityQueue}.

(** The first of two nodes taken out in a row has the lesser count. *)
Lemma top_pop_least (pq : priority_queue) :
  (1 < length (pq_elements pq))%nat →
  ∃ first second,
    top pq = Ret first ∧ top (pq_pop pq) = Ret second
    ∧ pq_elements pq ≡ₚ first :: second :: pq_elements (pq_pop (pq_pop pq))
    ∧ node_count first ≤ node_count second.
Proof.
  intros Hlen.
  assert (pq_elements pq ≠ []) as Hne by (intros Hnil; rewrite Hnil in Hlen; simpl in Hlen; lia).
  destruct (pq_top_pop pq Hne) as (first & Htop1 & Hperm1 & Hleast).
  assert (pq_elements (pq_pop pq) ≠ []) as Hne1.
  { intros Hnil. rewrite Hnil in Hperm1.
    apply Permutation_length in Hperm1. simpl in Hperm1. lia. }
  destruct (pq_top_pop (pq_pop pq) Hne1) as (second & Htop2 & Hperm2 & _).
  exists first, second. unfold top. rewrite Htop1, Htop2.
  split; [done|]. split; [done|]. split; [by rewrite Hperm1, Hperm2|].
  rewrite Forall_forall in Hleast. apply Hleast.
  rewrite Hperm1, Hperm2. apply list_elem_of_further, list_elem_of_here.
Qed.

Lemma build_htree_loop_ordered fuel : ∀ pq,
  pq_elements pq ≠ [] →
  Forall huffman_tree (pq_elements pq) →
  Forall ordered_children (pq_elements pq) →
  (length (pq_elements pq) ≤ S fuel)%nat →
  ∃ pq' t, build_htree_loop fuel pq = Ret pq'
         ∧ pq_elements pq' = [t] ∧ ordered_children t.
Proof.
  induction fuel as [|fuel IH]; intros pq Hne Hall Hord Hlen.
  - destruct (pq_elements pq) as [|t [|t' l]] eqn:Hel; [done| |simpl in Hlen; lia].
    exists pq, t. apply Forall_cons in Hord as [Ht _].
    split; [|done]. cbn [build_htree_loop]. by rewrite pq_size_elements, Hel.
  - cbn [build_htree_loop]. rewrite pq_size_elements.
    destruct (Nat.ltb_spec 1 (length (pq_elements pq))) as [Hgt|Hle].
    + destruct (top_pop_least pq Hgt) as (first & second & Hfirst & Hsecond & Hperm & Hle).
      rewrite Hfirst. simpl_outcome. rewrite Hsecond. simpl_outcome.
      rewrite Hperm in Hall, Hord, Hlen.
      apply Forall_cons in Hall as [Hf Hall]. apply Forall_cons in Hall as [Hs Hall].
      apply Forall_cons in Hord as [Hof Hord]. apply Forall_cons in Hord as [Hos Hord].
      assert (first ≠ nullptr) as Hfn by (by apply huffman_tree_not_null).
      assert (second ≠ nullptr) as Hsn by (by apply huffman_tree_not_null).
      destruct first as [|fc fn fz fo]; [done|].
      destruct second as [|sc sn sz so]; [done|].
      set (link := Node 257 (to_int (fn + sn)) (Node fc fn fz fo) (Node sc sn sz so)).
      apply (IH (pq_push (pq_pop (pq_pop pq)) link)).
      * intros Hnil. pose proof (pq_elements_push (pq_pop (pq_pop pq)) link) as Hp.
        rewrite Hnil in Hp. by apply Permutation_nil_cons in Hp.
      * rewrite pq_elements_push. constructor; [|done]. by apply huffman_link.
      * rewrite pq_elements_push. constructor; [|done]. by apply ordered_link.
      * rewrite pq_elements_push. cbn [length] in Hlen |- *. lia.
    + destruct (pq_elements pq) as [|t [|t' l]] eqn:Hel; [done| |simpl in Hle; lia].
      exists pq, t. apply Forall_cons in Hord as [Ht _]. done.
Qed.

Lemma buildEncodingTree_ordered m t :
  hashmap_wf m → entries m ≠ [] → buildEncodingTree m = Ret t → ordered_children t.
Proof.
  intros Hwf Hne. unfold buildEncodingTree. rewrite keys_entries by done.
  destruct (push_leaves_spec m (entries m) pq_empty Hwf) as (pq & Hpq & Hperm);
    [by apply Forall_forall|].
  rewrite pq_elements_empty, app_nil_r in Hperm.
  rewrite Hpq. simpl_outcome.
  destruct (build_htree_loop_ordered (pq_size pq) pq) as (pq' & t' & Hbuild & Hel & Ht').
  - intros Hnil. rewrite Hnil in Hperm.
    apply Permutation_nil in Hperm. by destruct (entries m).
  - rewrite Hperm. apply Forall_fmap, Forall_forall. intros [k v] _. apply huffman_leaf.
  - rewrite Hperm. apply Forall_fmap, Forall_forall. intros [k v] _. apply ordered_leaf.
  - rewrite pq_size_elements. lia.
  - unfold build_htree. rewrite Hbuild. simpl_outcome.
    rewrite (top_singleton pq' t' Hel). intros Heq. apply Ret_inj in Heq. by subst.
Qed.

End Ordered.

(** ** The decoder on any payload *)

(** With a root that has children and no leaf holding the marker 257,
    the loop of [decode] returns whatever the bits are; what it has
    added to the string it has written to the output. *)
Lemma decode_loop_total rn rzero rone :
  let root := Node 257 rn rzero rone in
  huffman_tree root → Forall (λ e, e.1 ≠ 257) (leaves root) →
  ∀ bits s node fuel out dec,
    huffman_tree node → Forall (λ e, e.1 ≠ 257) (leaves node) →
    bit_ready s → pending_bits s = bits → (length bits < fuel)%nat →
    ∃ more s', decode_loop fuel s root node out dec
               = Ret (dec ++ more, s', out ++ more).
Proof.
  intros root Hroot Hr257.
  assert (∀ n zero one, huffman_tree (Node 257 n zero one) →
            Forall (λ e, e.1 ≠ 257) (leaves (Node 257 n zero one)) →
            ∀ bit, huffman_tree (if bit =? 0 then zero else one)
                   ∧ Forall (λ e, e.1 ≠ 257) (leaves (if bit =? 0 then zero else one)))
    as Hchild.
  { intros n zero one Hlink Hl257 bit.
    assert (zero ≠ nullptr ∧ huffman_tree zero ∧ huffman_tree one) as (Hzn & Hz & Ho).
    { inversion Hlink as [c0 n0|n0 z0 o0 Hz Ho Hn]; subst.
      - cbn [leaves] in Hl257. rewrite Forall_singleton in Hl257. exfalso. by apply Hl257.
      - split; [by apply huffman_tree_not_null|done]. }
    rewrite leaves_link in Hl257 by done. apply Forall_app in Hl257 as [? ?].
    by destruct (bit =? 0). }
  assert (∀ c n, Forall (λ e, e.1 ≠ 257) (leaves (Node c n nullptr nullptr)) → c ≠ 257)
    as Hleaf.
  { intros c n Hl. cbn [leaves] in Hl. by rewrite Forall_singleton in Hl. }
  induction bits as [|b rest IH]; intros s node fuel out dec Hnode Hn257 Hready Hpend Hfuel.
  - destruct fuel as [|fuel]; [simpl in Hfuel; lia|].
    pose proof (bit_ready_eof s Hready) as Heof.
    destruct (readBit_nil s Hready Hpend) as [_ Heof'].
    assert (∀ n zero one out dec,
              decode_loop (S fuel) s root (Node 257 n zero one) out dec
              = Ret (dec, (readBit s).2, out)) as Hstep.
    { intros n zero one out' dec'. rewrite decode_loop_link by done.
      by apply decode_loop_at_eof. }
    destruct Hnode as [c n|n zero one Hz Ho Hn].
    + pose proof (Hleaf c n Hn257) as Hc.
      destruct (decide (c = 256)) as [->|H256].
      * exists [], s. rewrite decode_loop_eos by done. by rewrite !app_nil_r.
      * exists [char_of_int c], (readBit s).2.
        unfold root. rewrite decode_loop_char by done. apply Hstep.
    + exists [], (readBit s).2. rewrite Hstep. by rewrite !app_nil_r.
  - destruct fuel as [|fuel]; [simpl in Hfuel; lia|].
    pose proof (bit_ready_eof s Hready) as Heof.
    destruct (readBit_cons s b rest Hready Hpend) as (s1 & Hread & Hready1 & Hpend1 & _).
    assert (∀ n zero one out dec,
              huffman_tree (Node 257 n zero one) →
              Forall (λ e, e.1 ≠ 257) (leaves (Node 257 n zero one)) →
              ∃ more s', decode_loop (S fuel) s root (Node 257 n zero one) out dec
                         = Ret (dec ++ more, s', out ++ more)) as Hstep.
    { intros n zero one out' dec' Hlink Hl257. rewrite decode_loop_link by done.
      rewrite Hread. cbn [fst snd].
      destruct (Hchild n zero one Hlink Hl257 b) as [Hc Hc257].
      apply IH; [done|done|done|done|]. simpl in Hfuel. lia. }
    destruct Hnode as [c n|n zero one Hz Ho Hn].
    + pose proof (Hleaf c n Hn257) as Hc.
      destruct (decide (c = 256)) as [->|H256].
      * exists [], s. rewrite decode_loop_eos by done. by rewrite !app_nil_r.
      * unfold root. rewrite decode_loop_char by done.
        destruct (Hstep rn rzero rone (out ++ [char_of_int c]) (dec ++ [char_of_int c])
                    Hroot Hr257) as (more & s' & Hloop).
        exists (char_of_int c :: more), s'. unfold root in Hloop. rewrite Hloop.
        by rewrite <-!app_assoc.
    + apply Hstep; [by apply huffman_link|done].
Qed.

Lemma decode_total root s out :
  huffman_tree root → (2 ≤ length (leaves root))%nat →
  Forall (λ e, e.1 ≠ 257) (leaves root) →
  bit_ready s →
  ∃ decoded s', decode s root out = Ret (decoded, s', out ++ decoded).
Proof.
  intros Hroot Hlen H257 Hready.
  destruct (huffman_tree_link root Hroot Hlen) as (n & zero & one & -> & _ & _).
  destruct (decode_loop_total n zero one Hroot H257 (pending_bits s) s
              (Node 257 n zero one) (8 * length (ibuf s) + 9) out [])
    as (more & s' & Hloop); [done|done|done|done| |].
  - pose proof (pending_bits_length s). lia.
  - exists more, s'. unfold decode. by rewrite Hloop.
Qed.

(** A root without children that does not hold the end-of-stream symbol:
    after the first bit the loop is at a null pointer. *)
Lemma decode_single_leaf c n s out b rest :
  c ≠ 256 → bit_ready s → pending_bits s = b :: rest →
  decode s (Node c n nullptr nullptr) out = Undefined.
Proof.
  intros Hc Hready Hpend. unfold decode.
  pose proof (bit_ready_eof s Hready) as Heof.
  destruct (readBit_cons s b rest Hready Hpend) as (s1 & Hread & Hready1 & _ & _).
  pose proof (bit_ready_eof s1 Hready1) as Heof1.
  replace (8 * length (ibuf s) + 9)%nat with (S (S (8 * length (ibuf s) + 7))) by lia.
  cbn [decode_loop]. rewrite Heof, (proj2 (Z.eqb_neq _ _) Hc), Hread.
  destruct (negb (c =? 257)); destruct (b =? 0); by rewrite Heof1.
Qed.

(** ** Reading a header whose entries cannot all be put *)

Lemma read_entries_general es : ∀ fuel s c0 cs m payload,
  good s →
  Forall (λ e, is_int e.1 ∧ is_int e.2) es →
  entries_text es ++ ["}"%char] = c0 :: cs →
  unread s = cs ++ payload →
  (length es < fuel)%nat →
  read_entries fuel s (byte_value c0) m
  = m' ← put_all m es; Ret (advance s (length cs), m').
Proof.
  induction es as [|[k v] es IH];
    intros fuel s c0 cs m payload Hgood Hint Htext Hun Hfuel.
  - destruct fuel as [|fuel]; [simpl in Hfuel; lia|].
    simpl in Htext. injection Htext as <- <-.
    cbn [read_entries read_token put_all]. change (byte_value "}") with 125.
    cbn [Z.eqb Pos.eqb orb]. simpl_outcome.
    by rewrite advance_0.
  - destruct fuel as [|fuel]; [simpl in Hfuel; lia|].
    apply Forall_cons in Hint as [[Hk Hv] Hint]. cbn [fst snd] in Hk, Hv.
    destruct (entry_text_chars k v Hk Hv) as [Hne Htok].
    cbn [put_all].
    destruct (entry_text (k, v)) as [|t0 ts] eqn:Hentry; [done|].
    pose proof (unread_length s) as Hlen.
    destruct es as [|e es].
    + cbn [entries_text] in Htext. rewrite Hentry in Htext.
      injection Htext as <- <-.
      cbn [read_entries].
      rewrite (read_token_spec ts _ s t0 [] "}"%char payload);
        [|done|done|by right|by rewrite Hun, <-app_assoc
         |rewrite Hun, !length_app in Hlen; cbn [length] in Hlen; lia].
      simpl_outcome. change (byte_value "}") with 125. cbn [Z.eqb Pos.eqb].
      cbn [app]. rewrite <-Hentry, put_token_spec by done.
      destruct (put m k v) as [m1| | | |]; simpl_outcome; try done.
      rewrite length_app. cbn [length]. by rewrite Nat.add_1_r.
    + rewrite entries_text_cons, Hentry in Htext.
      destruct (entries_text (e :: es) ++ ["}"%char]) as [|c1 cs1] eqn:Htext1.
      { by destruct (entries_text (e :: es)). }
      rewrite <-!app_assoc in Htext. cbn [app] in Htext.
      rewrite Htext1 in Htext. injection Htext as <- <-.
      rewrite <-app_assoc in Hun. cbn [app] in Hun.
      assert (unread (advance s (S (length ts)))
              = " "%char :: c1 :: cs1 ++ payload) as Hun1.
      { rewrite unread_advance, Hun, <-Nat.add_1_r. apply drop_app_cons. }
      assert (unread (advance (advance s (S (length ts))) 1)
              = c1 :: cs1 ++ payload) as Hun2.
      { by rewrite unread_advance, Hun1. }
      assert (unread (advance (advance (advance s (S (length ts))) 1) 1)
              = cs1 ++ payload) as Hun3.
      { by rewrite unread_advance, Hun2. }
      cbn [read_entries].
      rewrite (read_token_spec ts _ s t0 [] ","%char
                 (" "%char :: c1 :: cs1 ++ payload));
        [|done|done|by left|done
         |rewrite Hun, !length_app in Hlen; cbn [length] in Hlen; lia].
      simpl_outcome. change (byte_value ",") with 44. cbn [Z.eqb Pos.eqb].
      rewrite (istream_get_cons _ _ _ (good_advance _ _ Hgood) Hun1).
      rewrite (istream_get_cons _ _ _ (good_advance _ _ (good_advance _ _ Hgood)) Hun2).
      cbn [app]. rewrite <-Hentry, put_token_spec by done.
      destruct (put m k v) as [m1| | | |]; simpl_outcome; try done.
      rewrite (IH fuel _ c1 cs1 m1 payload); [|done|done|done|done|].
      * rewrite !advance_advance, length_app. cbn [length].
        by replace (S (length ts) + (1 + (1 + length cs1)))%nat
          with (length ts + S (S (S (length cs1))))%nat by lia.
      * simpl in Hfuel |- *. lia.
Qed.

(** [in >> myMap] on the header of the entries [es] does the [put]s of
    [es] in order, and leaves the stream behind the header. *)
Lemma operator_in_general es m payload :
  Forall (λ e, is_int e.1 ∧ is_int e.2) es →
  operator_in (open_ibitstream (header_text es ++ payload)) m
  = m' ← put_all m es;
    Ret (advance (open_ibitstream (header_text es ++ payload))
                 (length (header_text es)), m').
Proof.
  intros Hint. unfold operator_in.
  set (s := open_ibitstream (header_text es ++ payload)).
  assert (good s) as Hgood by done.
  destruct (entries_text es ++ ["}"%char]) as [|c0 cs] eqn:Htext.
  { by destruct (entries_text es). }
  assert (header_text es = "{"%char :: c0 :: cs) as Hheader.
  { unfold header_text. cbn [app]. by rewrite Htext. }
  assert (unread s = "{"%char :: c0 :: cs ++ payload) as Hun.
  { unfold unread, s. cbn [gpos open_ibitstream ibuf]. by rewrite drop_0, Hheader. }
  assert (unread (advance s 1) = c0 :: cs ++ payload) as Hun1.
  { by rewrite unread_advance, Hun. }
  assert (unread (advance (advance s 1) 1) = cs ++ payload) as Hun2.
  { by rewrite unread_advance, Hun1. }
  rewrite (istream_get_cons _ _ _ Hgood Hun).
  rewrite (istream_get_cons _ _ _ (good_advance _ _ Hgood) Hun1).
  rewrite (read_entries_general es _ _ c0 cs m payload); [|done|done|done|done|].
  - rewrite !advance_advance, Hheader. done.
  - pose proof (entries_text_length es Hint) as Hlen.
    apply (f_equal length) in Htext. rewrite length_app in Htext.
    cbn [advance ibuf s open_ibitstream].
    rewrite Hheader, length_app. cbn [length] in *. lia.
Qed.

(** ** Reading a header that is not closed *)

Lemma read_token_unterminated cs : ∀ fuel s c acc,
  good s → unread s = cs → Forall token_char cs →
  c ≠ 44 → c ≠ 125 → (length cs < fuel)%nat →
  read_token fuel s c acc = Diverges.
Proof.
  induction cs as [|c1 cs IH]; intros fuel s c acc Hgood Hun Htok H44 H125 Hfuel.
  - destruct fuel as [|fuel]; [simpl in Hfuel; lia|].
    cbn [read_token].
    rewrite (proj2 (Z.eqb_neq _ _) H44), (proj2 (Z.eqb_neq _ _) H125). cbn [orb].
    destruct (c =? EOF); [done|].
    destruct (istream_get_nil s Hgood Hun) as [Hc _].
    destruct (istream_get s) as [c' s']. cbn [fst] in Hc. subst c'.
    by destruct fuel.
  - destruct fuel as [|fuel]; [simpl in Hfuel; lia|].
    apply Forall_cons in Htok as [[H44' H125'] Htok].
    cbn [read_token].
    rewrite (proj2 (Z.eqb_neq _ _) H44), (proj2 (Z.eqb_neq _ _) H125). cbn [orb].
    destruct (c =? EOF); [done|].
    rewrite (istream_get_cons s c1 cs Hgood Hun).
    apply IH; [by apply good_advance| |done|done|done|simpl in Hfuel; lia].
    by rewrite unread_advance, Hun.
Qed.

Lemma read_entries_Diverges fuel s c m :
  read_token (S (length (ibuf s))) s c [] = Diverges →
  read_entries (S fuel) s c m = Diverges.
Proof. intros Htok. cbn [read_entries]. by rewrite Htok. Qed.

Lemma operator_in_unterminated text m :
  Forall token_char (drop 1 text) →
  operator_in (open_ibitstream text) m = Diverges.
Proof.
  intros Htok. unfold operator_in.
  destruct text as [|c text]; [done|].
  destruct text as [|c0 text]; [done|].
  set (s := open_ibitstream (c :: c0 :: text)).
  assert (good s) as Hgood by done.
  rewrite (istream_get_cons s c (c0 :: text) Hgood eq_refl).
  rewrite (istream_get_cons (advance s 1) c0 text (good_advance _ _ Hgood) eq_refl).
  cbn [drop] in Htok. apply Forall_cons in Htok as [[H44 H125] Htok].
  apply read_entries_Diverges.
  apply read_token_unterminated with (cs := text); [by apply good_advance|done|done|done|done|].
  cbn [advance ibuf s open_ibitstream length]. lia.
Qed.

(** ** Bits written and read back *)

Lemma write_all_writing base bits : ∀ bits0 out,
  writing base bits0 out → Forall is_bit bits →
  writing base (bits0 ++ bits) (write_all out bits).
Proof.
  induction bits as [|b bits IH]; intros bits0 out Hw Hbits.
  - by rewrite app_nil_r.
  - apply Forall_cons in Hbits as [Hb Hbits]. cbn [write_all foldl].
    fold (write_all (writeBit out b) bits).
    rewrite cons_middle, app_assoc. apply IH; [|done]. by apply writeBit_step.
Qed.

Lemma read_bits_pending bits : ∀ s rest,
  bit_ready s → pending_bits s = bits ++ rest →
  ∃ s', read_bits (length bits) s = (bits, s') ∧ bit_ready s'
      ∧ pending_bits s' = rest ∧ ibuf s' = ibuf s.
Proof.
  induction bits as [|b bits IH]; intros s rest Hready Hpend.
  - by exists s.
  - destruct (readBit_cons s b (bits ++ rest) Hready Hpend)
      as (s1 & Hread & Hready1 & Hpend1 & Hbuf1).
    destruct (IH s1 rest Hready1 Hpend1) as (s' & Hbits & Hready' & Hpend' & Hbuf').
    exists s'. cbn [length read_bits]. rewrite Hread, Hbits.
    split; [done|]. split; [done|]. split; [done|]. congruence.
Qed.

Lemma ostream_write_new text :
  ostream_write new_obitstream text = appended new_obitstream text.
Proof. by apply ostream_write_at_end. Qed.

(** ** Fake mode *)

Lemma write_all_fake bits : ∀ out,
  o_fake out = true → at_end out →
  obuf (write_all out bits) = obuf out ++ (fake_char <$> bits)
  ∧ o_fake (write_all out bits) = true.
Proof.
  induction bits as [|b bits IH]; intros out Hfake Hend.
  - by rewrite app_nil_r.
  - cbn [write_all foldl]. fold (write_all (writeBit out b) bits).
    assert (writeBit out b = appended out [fake_char b]) as ->.
    { unfold writeBit. rewrite Hfake. by apply ostream_put_at_end. }
    destruct (IH (appended out [fake_char b])) as [-> ->];
      [done|apply at_end_appended|].
    cbn [appended obuf]. by rewrite <-app_assoc.
Qed.

Lemma read_bits_fake bits : ∀ s,
  i_fake s = true → good s → Forall is_bit bits →
  unread s = fake_char <$> bits →
  ∃ s', read_bits (length bits) s = (bits, s') ∧ i_fake s' = true ∧ good s'
      ∧ unread s' = [].
Proof.
  induction bits as [|b bits IH]; intros s Hfake Hgood Hbits Hun.
  - by exists s.
  - apply Forall_cons in Hbits as [Hb Hbits]. rewrite fmap_cons in Hun.
    assert (readBit s = (b, advance s 1)) as Hread.
    { unfold readBit. rewrite Hfake, (istream_get_cons s _ _ Hgood Hun).
      by destruct Hb as [-> | ->]. }
    destruct (IH (advance s 1)) as (s' & Hrest & Hfake' & Hgood' & Hun');
      [done|by apply good_advance|done|by rewrite unread_advance, Hun|].
    exists s'. cbn [length read_bits]. by rewrite Hread, Hrest.
Qed.

(** ** A table with one entry *)

Lemma entries_put_new key value m :
  is_int key → is_int value →
  put new_hashmap key value = Ret m → entries m = [(key, value)].
Proof.
  intros Hk Hv Hput.
  pose proof (put_wf _ _ _ _ new_hashmap_wf Hk Hv Hput) as Hwf.
  apply Permutation_singleton_r. apply NoDup_Permutation.
  - apply (NoDup_fmap_1 fst). by apply NoDup_entries.
  - apply NoDup_singleton.
  - intros [k v]. rewrite elem_of_entries by done.
    rewrite (table_lookup_put _ _ _ _ k new_hashmap_wf Hput), table_lookup_new.
    rewrite list_elem_of_singleton. case_decide; naive_solver.
Qed.

(** ** rewind *)

Lemma bit_reader_open file : bit_reader file (open_ibitstream file).
Proof. split; [done|done|by right]. Qed.

Lemma istream_get_buf s : ibuf (istream_get s).2 = ibuf s.
Proof.
  unfold istream_get. destruct (negb (eofbit s) && negb (failbit s)); [|done].
  by destruct (ibuf s !! gpos s).
Qed.

Lemma bit_reader_readBit file s : bit_reader file s → bit_reader file (readBit s).2.
Proof.
  intros [Hbuf Hfake Htell]. unfold readBit. rewrite Hfake.
  destruct (negb (i_lastTell s =? tellg s) || (i_pos s =? NUM_BITS_IN_BYTE)) eqn:Hfresh.
  - unfold istream_get.
    destruct (negb (eofbit s) && negb (failbit s)).
    + destruct (ibuf s !! gpos s) as [c|].
      * cbn [set_ibits i_lastTell i_curByte i_pos].
        assert ((byte_value c =? EOF) = false) as ->.
        { apply Z.eqb_neq. pose proof (byte_value_range c). unfold EOF. lia. }
        split; cbn; [done|done|]. left. lia.
      * by split.
    + by split.
  - split; cbn [snd set_ibits ibuf i_fake i_lastTell i_pos]; [done|done|].
    apply orb_false_elim in Hfresh as [_ Hpos].
    destruct Htell as [?|Hp]; [by left|].
    rewrite Hp in Hpos. done.
Qed.

Lemma bit_reader_read_bits file n : ∀ s,
  bit_reader file s → bit_reader file (read_bits n s).2.
Proof.
  induction n as [|n IH]; intros s Hs; [done|].
  cbn [read_bits]. pose proof (bit_reader_readBit file s Hs) as Hs1.
  destruct (readBit s) as [b s1]. cbn [snd] in Hs1.
  specialize (IH s1 Hs1). by destruct (read_bits n s1).
Qed.

Lemma rewind_ready file s :
  bit_reader file s →
  bit_ready (rewind s) ∧ pending_bits (rewind s) = bytes_bits file.
Proof.
  intros [Hbuf Hfake Htell].
  assert (fresh (rewind s) = true) as Hfresh.
  { unfold fresh, rewind, seekg_beg, istream_clear, tellg.
    cbn [failbit gpos i_lastTell i_pos]. change (Z.of_nat 0) with 0.
    destruct Htell as [Hne|Hp].
    - by rewrite (proj2 (Z.eqb_neq _ _) Hne).
    - rewrite Hp. apply orb_true_r. }
  split.
  - split; [done|done| |]; intros Hf; by rewrite Hfresh in Hf.
  - unfold pending_bits. rewrite Hfresh. unfold unread, rewind, seekg_beg, istream_clear.
    cbn [gpos ibuf failbit]. by rewrite drop_0, Hbuf.
Qed.

(** ** The length of a codeword *)

Lemma leaf_paths_length t :
  huffman_tree t →
  ∀ str c p, (c, p) ∈ leaf_paths t str →
  (length p + 1 ≤ length str + length (leaves t))%nat.
Proof.
  induction 1 as [c0 n0|n0 zero one Hz IHz Ho IHo Hn]; intros str c p Hin.
  - cbn [leaf_paths] in Hin. apply list_elem_of_singleton in Hin.
    injection Hin as -> ->. cbn [leaves length]. lia.
  - assert (zero ≠ nullptr) as Hzn by (by apply huffman_tree_not_null).
    rewrite leaf_paths_link in Hin by done. rewrite leaves_link, length_app by done.
    pose proof (leaves_not_nil _ Hz) as Hlz. pose proof (leaves_not_nil _ Ho) as Hlo.
    assert (0 < length (leaves zero))%nat by (destruct (leaves zero); [done|simpl; lia]).
    assert (0 < length (leaves one))%nat by (destruct (leaves one); [done|simpl; lia]).
    apply elem_of_app in Hin as [Hin|Hin].
    + specialize (IHz _ _ _ Hin). rewrite length_app in IHz. cbn [length] in IHz. lia.
    + specialize (IHo _ _ _ Hin). rewrite length_app in IHo. cbn [length] in IHo. lia.
Qed.

(** ** The table as a function of the calls that made it *)

Lemma last_put_snoc ops k v key :
  last_put (ops ++ [(k, v)]) key = if k =? key then Some v else last_put ops key.
Proof.
  induction ops as [|[k0 v0] ops IH]; cbn [app last_put].
  - by destruct (k =? key).
  - rewrite IH. destruct (k =? key); [done|]. done.
Qed.

Lemma constructed_lookup ops m :
  constructed ops m → ∀ key, table_lookup m key = last_put ops key.
Proof.
  induction 1 as [|ops m k v m' Hc IH Hk Hv Hput]; intros key.
  - apply table_lookup_new.
  - rewrite (table_lookup_put m k v m' key (constructed_wf _ _ Hc) Hput).
    rewrite last_put_snoc, IH.
    case_decide as Heq.
    + subst. by rewrite Z.eqb_refl.
    + by rewrite (proj2 (Z.eqb_neq k key)) by congruence.
Qed.

Lemma last_put_is_Some ops key : is_Some (last_put ops key) ↔ key ∈ ops.*1.
Proof.
  induction ops as [|[k v] ops IH]; cbn [last_put fmap list_fmap fst].
  - split; [by intros [? ?]|]. intros Hin. by apply not_elem_of_nil in Hin.
  - rewrite elem_of_cons, <-IH. destruct (last_put ops key) as [v'|].
    + split; [by right|by eexists].
    + destruct (Z.eqb_spec k key) as [->|Hne].
      * split; [by left|by eexists].
      * split; [by intros [? ?]|]. intros [?|[? ?]]; [congruence|done].
Qed.

Lemma first_keys_elem l key : key ∈ first_keys l ↔ key ∈ l.
Proof.
  induction l as [|k l IH]; cbn [first_keys]; [done|].
  rewrite !elem_of_cons, list_elem_of_filter, IH.
  destruct (decide (key = k)); naive_solver.
Qed.

Lemma first_keys_snoc l key :
  first_keys (l ++ [key])
  = if bool_decide (key ∈ l) then first_keys l else first_keys l ++ [key].
Proof.
  induction l as [|k l IH]; cbn [app first_keys].
  - rewrite bool_decide_eq_false_2 by apply not_elem_of_nil. done.
  - rewrite IH. destruct (decide (key = k)) as [->|Hne].
    + rewrite (bool_decide_eq_true_2 (k ∈ k :: l)) by apply list_elem_of_here.
      case_bool_decide; [done|].
      rewrite filter_app, filter_cons_False, filter_nil, app_nil_r by (by intros ?).
      done.
    + case_bool_decide as Hin.
      * rewrite bool_decide_eq_true_2 by (by apply list_elem_of_further). done.
      * rewrite bool_decide_eq_false_2 by (rewrite elem_of_cons; naive_solver).
        rewrite filter_app, filter_cons_True, filter_nil by done. done.
Qed.

Lemma constructed_buckets ops m :
  constructed ops m →
  ∀ i, (i < 10)%nat →
  ∃ node, buckets m !! i = Some node
        ∧ node.*1 = filter (λ key, bucket_of key = i) (first_keys ops.*1).
Proof.
  induction 1 as [|ops m k v m' Hc IH Hk Hv Hput]; intros i Hi.
  - exists []. split; [|done]. by apply lookup_replicate_2.
  - pose proof (constructed_wf _ _ Hc) as Hwf.
    pose proof (put_Ret_valid _ _ _ _ Hwf Hput) as Hvalid.
    pose proof (chain_of_lookup m k Hwf Hvalid) as Hchain.
    rewrite (put_spec m k v Hwf Hvalid) in Hput. apply Ret_inj in Hput. subst m'.
    cbn [buckets]. rewrite fmap_app. cbn [fmap list_fmap fst]. rewrite first_keys_snoc.
    destruct (IH i Hi) as (node & Hnode & Hkeys).
    destruct (decide (i = bucket_of k)) as [->|Hne].
    + rewrite Hnode in Hchain. injection Hchain as Hchain.
      rewrite list_lookup_insert_eq by (by eapply lookup_lt_Some).
      eexists. split; [done|]. rewrite bucket_put_keys, <-Hchain, Hkeys.
      assert (k ∈ filter (λ key, bucket_of key = bucket_of k) (first_keys ops.*1)
              ↔ k ∈ ops.*1) as Hiff.
      { rewrite list_elem_of_filter, first_keys_elem. split; [by intros [_ ?]|done]. }
      rewrite (bool_decide_ext _ _ Hiff). case_bool_decide; [done|].
      by rewrite filter_app, filter_cons_True, filter_nil.
    + rewrite list_lookup_insert_ne by done. exists node. split; [done|].
      rewrite Hkeys. case_bool_decide; [done|].
      by rewrite filter_app, filter_cons_False, filter_nil, app_nil_r.
Qed.

Lemma constructed_keys ops m :
  constructed ops m →
  keys m = flat_map (λ i, filter (λ key, bucket_of key = i) (first_keys ops.*1))
                    (seq 0 10).
Proof.
  intros Hc. pose proof (constructed_wf _ _ Hc) as Hwf.
  unfold keys. rewrite (wf_nBuckets m Hwf). change (Z.to_nat 10) with 10%nat.
  assert (∀ l, Forall (λ i, i < 10)%nat l →
            flat_map (λ i, match buckets m !! i with
                           | Some node => node.*1
                           | None => []
                           end) l
            = flat_map (λ i, filter (λ key, bucket_of key = i) (first_keys ops.*1)) l)
    as Hext.
  { induction l as [|i l IH]; intros Hall; [done|].
    apply Forall_cons in Hall as [Hi Hall]. cbn [flat_map].
    destruct (constructed_buckets ops m Hc i Hi) as (node & -> & ->).
    by rewrite IH. }
  apply Hext. apply Forall_forall. intros i Hi. apply elem_of_seq in Hi. lia.
Qed.

(* ===================================================================== *)
(** * The properties of the specification *)
(* ===================================================================== *)

Lemma letters_table_reachable : reachable letters_table.
Proof.
  apply (reachable_put_all [(97, 10); (256, 1)]); [|reflexivity].
  repeat constructor; cbn [fst snd]; unfold is_int, INT_MIN, INT_MAX; lia.
Qed.

Lemma other_table_reachable : reachable other_table.
Proof.
  apply (reachable_put_all [(1, 7); (97, 8)]); [|reflexivity].
  repeat constructor; cbn [fst snd]; unfold is_int, INT_MIN, INT_MAX; lia.
Qed.

Section Properties.
Context {PF : Platform} {PQ : PriorityQueue}.

(** The tree of a table that has a key. *)
Lemma buildEncodingTree_Ret m t :
  reachable m → keys m ≠ [] → buildEncodingTree m = Ret t →
  huffman_tree t ∧ leaves t ≡ₚ entries m.
Proof.
  intros Hm Hkeys Ht. apply reachable_wf in Hm.
  rewrite keys_entries in Hkeys by done.
  destruct (buildEncodingTree_spec m Hm) as (t' & Ht' & Hshape & Hleaves).
  { by intros Hnil; rewrite Hnil in Hkeys. }
  rewrite Ht' in Ht. apply Ret_inj in Ht. by subst t'.
Qed.

(** C1: for every finite byte sequence X, the empty one included,
    [compress] returns, and [decompress] of the container it wrote returns
    exactly X and writes exactly X, with the tree rebuilt from the
    container's own header.  This holds whichever the signedness of [char]
    and whichever conforming priority queue. *)
Theorem compress_decompress_round_trip (X : list ascii) :
  ∃ encoded container,
    compress X = Ret (encoded, container)
    ∧ decompress container = Ret (X, X).
Proof. apply decompress_compress. Qed.

(** C2, as the code behaves: for a container whose header is the
    serialization of a table and whose payload is made of the codewords of
    symbols other than the end-of-stream one, followed by a codeword that
    is cut short (possibly by nothing at all), [decompress] returns
    normally with the symbols decoded so far; no error is raised. *)
Theorem decompress_truncated_payload m t encodingMap syms r payload :
  reachable m → keys m ≠ [] →
  buildEncodingTree m = Ret t →
  buildEncodingMap t = Ret encodingMap →
  Forall (λ x, x ∈ keys m ∧ x ≠ 256 ∧ x ≠ 257) syms →
  unfinished_codeword t r →
  bytes_bits payload = pattern_bits ((syms ≫= codeword encodingMap) ++ r) →
  serialize m = Ret (header_text (entries m))
  ∧ decompress (header_text (entries m) ++ payload)
    = Ret (char_of_int <$> syms, char_of_int <$> syms).
Proof.
  intros Hm Hkeys Ht Hmap Hsyms Hr Hbits.
  destruct (buildEncodingTree_Ret m t Hm Hkeys Ht) as [Hshape Hleaves].
  apply reachable_wf in Hm. split; [by apply serialize_spec|].
  unfold decompress. rewrite operator_in_header by done. simpl_outcome.
  rewrite Ht. simpl_outcome.
  destruct (decode_exhausted t encodingMap syms r
              (advance (open_ibitstream (header_text (entries m) ++ payload))
                       (length (header_text (entries m))))
              [] Hshape) as (s' & Hdecode); [|done|apply bit_ready_header| |].
  - eapply Forall_impl; [exact Hsyms|]. intros x (Hx & H256 & H257).
    split; [done|]. split; [done|].
    by apply (key_codeword m t encodingMap x).
  - by rewrite pending_bits_header.
  - rewrite Hdecode. by simpl_outcome.
Qed.

(** C5: for the tree the Tree Builder returns for a table that has a key,
    no codeword of the map the Encoding Map Builder returns is a
    prefix of the codeword of another symbol. *)
Theorem encoding_map_prefix_free m t encodingMap :
  reachable m → keys m ≠ [] →
  buildEncodingTree m = Ret t →
  buildEncodingMap t = Ret encodingMap →
  ∀ a b ca cb,
    encodingMap !! a = Some ca → encodingMap !! b = Some cb → a ≠ b →
    ¬ ca `prefix_of` cb.
Proof.
  intros Hm Hkeys Ht Hmap a b ca cb Ha Hb Hab.
  destruct (buildEncodingTree_Ret m t Hm Hkeys Ht) as [Hshape _].
  rewrite (buildEncodingMap_spec t Hshape) in Hmap. apply Ret_inj in Hmap. subst encodingMap.
  apply foldl_insert_path_Some in Ha as [Ha|[_ Ha]]; [by rewrite lookup_empty in Ha|].
  apply foldl_insert_path_Some in Hb as [Hb|[_ Hb]]; [by rewrite lookup_empty in Hb|].
  by apply (leaf_paths_prefix_free t Hshape [] a ca b cb).
Qed.

(** C6, as the code behaves: for a table with at least one entry the tree
    has exactly one leaf per entry of the table, holding its key and its
    count, and no other leaf; every node with children holds the marker 257
    and the [int] sum of its children's counts, which is their exact sum
    when no count is negative and the counts add up to at most [INT_MAX];
    the nodes with children are one fewer than the leaves; a one-entry
    table yields the single leaf of that entry. *)
Theorem buildEncodingTree_shape m :
  reachable m → keys m ≠ [] →
  ∃ t, buildEncodingTree m = Ret t
     ∧ leaves t ≡ₚ entries m
     ∧ (leaves t).*1 ≡ₚ keys m ∧ NoDup (keys m)
     ∧ huffman_tree t
     ∧ S (internal_nodes t) = length (keys m)
     ∧ (Forall (λ e, 0 ≤ e.2) (entries m) → total_count (entries m) ≤ INT_MAX →
        exact_counts t ∧ node_count t = total_count (entries m))
     ∧ (∀ e, entries m = [e] → t = leaf_node e).
Proof.
  intros Hm Hkeys. apply reachable_wf in Hm.
  rewrite keys_entries in Hkeys |- * by done.
  destruct (buildEncodingTree_spec m Hm) as (t & Ht & Hshape & Hleaves).
  { by intros Hnil; rewrite Hnil in Hkeys. }
  exists t. split; [done|]. split; [done|]. split; [by rewrite Hleaves|].
  split; [by apply NoDup_entries|]. split; [done|]. split; [|split].
  - rewrite length_fmap, <-Hleaves. by apply internal_nodes_leaves.
  - intros Hnn Htotal. rewrite <-(total_count_perm _ _ Hleaves) in Htotal |- *.
    apply huffman_tree_exact; [done| |done]. by rewrite Hleaves.
  - intros e He. rewrite He in Hleaves. by apply huffman_tree_single.
Qed.

(** C8: for the empty input the frequency table is {256:1}, the tree is
    the single leaf holding 256, the encoding map gives 256 the empty
    codeword, [encode] returns the empty bit pattern, leaves the output
    stream as it was and the bit count at 0, and [decode] at that leaf
    returns the empty string without touching the input stream or the
    output. *)
Theorem empty_input_pipeline :
  ∃ m, buildFrequencyMap [] new_hashmap = Ret m
     ∧ keys m = [256] ∧ get m 256 = Ret 1
     ∧ buildEncodingTree m = Ret (Node 256 1 nullptr nullptr)
     ∧ buildEncodingMap (Node 256 1 nullptr nullptr) = Ret {[256 := []]}
     ∧ (∀ output, encode [] {[256 := []]} output 0 true
                  = ([], {[256 := []]}, output, 0))
     ∧ (∀ input output, decode input (Node 256 1 nullptr nullptr) output
                        = Ret ([], input, output)).
Proof.
  destruct (buildFrequencyMap_spec []) as (m & Hm & Hwf & _).
  exists m. split; [done|].
  assert (m = {| buckets := [[]; []; []; []; []; []; []; []; []; [(256, 1)]];
                 nBuckets := 10; nElems := 1 |}) as Heq.
  { apply Ret_inj. rewrite <-Hm. reflexivity. }
  assert (entries m = [(256, 1)]) as Hentries by (by rewrite Heq).
  split; [by rewrite Heq|]. split; [by rewrite Heq|]. split; [|split; [|split]].
  - destruct (buildEncodingTree_spec m Hwf) as (t & Ht & Hshape & Hleaves).
    { by rewrite Hentries. }
    rewrite Hentries in Hleaves.
    by rewrite (huffman_tree_single t (256, 1) Hshape Hleaves) in Ht.
  - reflexivity.
  - intros output. reflexivity.
  - intros input output. unfold decode.
    destruct (eof input) eqn:Heof.
    + by apply decode_loop_at_eof.
    + replace (8 * length (ibuf input) + 9)%nat
        with (S (8 * length (ibuf input) + 8)) by lia.
      by apply decode_loop_eos.
Qed.

End Properties.

(** C3: the table that holds only the key 1 is asked for the key 97, which
    it does not hold but which belongs to the same bucket: [get] returns
    0 as if it were the value of the key, although [containsKey]
    answers that the key is absent; no exception is thrown. *)
Theorem get_absent_key_returns_zero :
  (m ← put new_hashmap 1 5; get m 97) = Ret 0
  ∧ (m ← put new_hashmap 1 5; containsKey m 97) = Ret false
  ∧ (m ← put new_hashmap 1 5; Ret (keys m)) = Ret [1].
Proof. by vm_compute. Qed.

(** C4: where plain [char] is signed, the byte 255 of a file is counted
    under the key -1, a key outside [0,256]. *)
Theorem buildFrequencyMap_signed_char_key :
  ∃ m, @buildFrequencyMap signed_char [byte_char 255] new_hashmap = Ret m
     ∧ keys m = [-1; 256] ∧ get m (-1) = Ret 1 ∧ get m 255 = Throw (exn_cstr "Error: Key is not in map.").
Proof. eexists. by vm_compute. Qed.

(** C7: serializing a table T writes [{], the [key:value] entries of T in
    the order of [keys], separated by a comma and a space, and [}];
    reading that text into a new table gives T back, with the same keys
    and values; the text [{}] is read as the empty table. *)
Theorem header_round_trip (T : hashmap) :
  reachable T →
  serialize T = Ret (header_text (entries T))
  ∧ (entries T).*1 = keys T
  ∧ Forall (λ e, get T e.1 = Ret e.2) (entries T)
  ∧ deserialize (header_text (entries T)) new_hashmap = Ret T
  ∧ deserialize (chars "{}") new_hashmap = Ret new_hashmap.
Proof.
  intros HT. apply reachable_wf in HT.
  split; [by apply serialize_spec|]. split; [by rewrite keys_entries|].
  split; [|split].
  - apply Forall_forall. intros [k v] Hin. by apply get_present.
  - unfold deserialize.
    rewrite <-(app_nil_r (header_text (entries T))).
    rewrite operator_in_header by done. by simpl_outcome.
  - by vm_compute.
Qed.

(** C9: two tables constructed by the same sequence of [put]s have the
    same sequence of [keys], and both serialize to the same header. *)
Theorem keys_deterministic ops m1 m2 :
  constructed ops m1 → constructed ops m2 →
  keys m1 = keys m2
  ∧ ∃ header, serialize m1 = Ret header ∧ serialize m2 = Ret header.
Proof.
  intros H1 H2. rewrite (constructed_functional ops m1 m2 H1 H2).
  split; [done|]. exists (header_text (entries m2)).
  split; apply serialize_spec; by eapply constructed_wf.
Qed.

(** C10: reading the header of a table [h] into a table [m] that has
    entries returns the table in which every key of [h] has the value it
    has in [h], every other key of [m] has kept its value, and the keys
    are those of [m] and those of [h]. *)
Theorem operator_in_merges m h :
  reachable m → reachable h →
  serialize h = Ret (header_text (entries h))
  ∧ ∃ m', deserialize (header_text (entries h)) m = Ret m'
        ∧ (∀ key, key ∈ keys h → get m' key = get h key)
        ∧ (∀ key, key ∈ keys m → key ∉ keys h → get m' key = get m key)
        ∧ (∀ key, key ∈ keys m' ↔ key ∈ keys m ∨ key ∈ keys h).
Proof.
  intros Hm Hh. apply reachable_wf in Hm. apply reachable_wf in Hh.
  split; [by apply serialize_spec|].
  destruct (put_all_lookup (entries h) m Hm (entries_valid h Hh) (NoDup_entries h Hh))
    as (m' & Hput & Hwf' & Hlook).
  assert (∀ key, table_lookup m' key =
                 match table_lookup h key with
                 | Some v => Some v
                 | None => table_lookup m key
                 end) as Hlook'.
  { intros key. by rewrite Hlook, get_chain_entries. }
  exists m'. split; [|split; [|split]].
  - unfold deserialize. rewrite <-(app_nil_r (header_text (entries h))).
    rewrite (operator_in_spec (entries h) m m' []); [by simpl_outcome| |done].
    by apply entries_ints.
  - intros key Hkey. destruct (get_key h key Hh Hkey) as (v & Hv & ->).
    apply get_present; [done|]. apply elem_of_entries; [done|].
    by rewrite Hlook', Hv.
  - intros key Hkey Hnot. destruct (get_key m key Hm Hkey) as (v & Hv & ->).
    apply get_present; [done|]. apply elem_of_entries; [done|].
    rewrite Hlook'. rewrite elem_of_keys in Hnot by done.
    destruct (table_lookup h key); [|done]. by destruct Hnot.
  - intros key. rewrite !elem_of_keys by done. rewrite Hlook'.
    destruct (table_lookup h key) as [v|]; [|naive_solver].
    split; [by right|]. by intros _.
Qed.

(** ** The properties on concrete tables and files *)

(** The container of ten letters [a] is the header, a byte of eight
    1 bits and a byte holding two 1 bits and the end-of-stream bit 0.
    Without its last byte it is decompressed, without an error, as
    eight letters. *)
Lemma decompress_truncated_returns_partial :
  @compress signed_char list_queue (chars "aaaaaaaaaa")
  = Ret (chars "11111111110", chars "{97:10, 256:1}" ++ [byte_char 255; byte_char 3])
  ∧ @decompress list_queue (chars "{97:10, 256:1}" ++ [byte_char 255])
    = Ret (chars "aaaaaaaa", chars "aaaaaaaa").
Proof. by vm_compute. Qed.

Lemma decompress_truncated_payload_witness :
  @decompress list_queue (chars "{97:10, 256:1}" ++ [byte_char 255])
  = Ret (chars "aaaaaaaa", chars "aaaaaaaa").
Proof.
  apply (@decompress_truncated_payload list_queue letters_table
           (Node 257 11 (Node 256 1 nullptr nullptr) (Node 97 10 nullptr nullptr))
           (<[97 := ["1"%char]]> (<[256 := ["0"%char]]> ∅))
           [97; 97; 97; 97; 97; 97; 97; 97] [] [byte_char 255]).
  - exact letters_table_reachable.
  - by vm_compute.
  - by vm_compute.
  - by vm_compute.
  - repeat (apply Forall_cons; split;
            [split; [apply (bool_decide_unpack _); by vm_compute|by split]|]).
    by apply Forall_nil.
  - exists 256, "0"%char, []. apply (bool_decide_unpack _). by vm_compute.
  - by vm_compute.
Defined.

Lemma encoding_map_prefix_free_witness :
  ¬ ["1"%char] `prefix_of` ["0"%char].
Proof.
  apply (@encoding_map_prefix_free list_queue letters_table
           (Node 257 11 (Node 256 1 nullptr nullptr) (Node 97 10 nullptr nullptr))
           (<[97 := ["1"%char]]> (<[256 := ["0"%char]]> ∅))
           letters_table_reachable) with (a := 97) (b := 256).
  - by vm_compute.
  - by vm_compute.
  - by vm_compute.
  - by vm_compute.
  - by vm_compute.
  - lia.
Defined.

(** The counts 2147483647 and 1 add up to 2147483648, and the node
    above their leaves holds -2147483648. *)
Lemma buildEncodingTree_count_overflow :
  put_all new_hashmap [(1, 2147483647); (2, 1)] = Ret large_counts_table
  ∧ keys large_counts_table = [2; 1]
  ∧ @buildEncodingTree list_queue large_counts_table
    = Ret (Node 257 (-2147483648) (Node 2 1 nullptr nullptr)
             (Node 1 2147483647 nullptr nullptr))
  ∧ -2147483648 ≠ 1 + 2147483647.
Proof. repeat split; [by vm_compute..|lia]. Qed.

Lemma buildEncodingTree_shape_witness :
  ∃ t, @buildEncodingTree list_queue letters_table = Ret t
     ∧ leaves t ≡ₚ [(97, 10); (256, 1)]
     ∧ exact_counts t ∧ node_count t = 11.
Proof.
  destruct (@buildEncodingTree_shape list_queue letters_table letters_table_reachable)
    as (t & Ht & Hleaves & _ & _ & _ & _ & Hexact & _).
  - by vm_compute.
  - exists t. split; [exact Ht|]. split; [exact Hleaves|]. apply Hexact.
    + repeat constructor; cbn [snd]; lia.
    + by vm_compute.
Defined.

Lemma header_round_trip_witness :
  serialize letters_table = Ret (chars "{97:10, 256:1}")
  ∧ deserialize (chars "{97:10, 256:1}") new_hashmap = Ret letters_table.
Proof.
  destruct (header_round_trip letters_table letters_table_reachable)
    as (Hout & _ & _ & Hin & _).
  split; [exact Hout|exact Hin].
Defined.

Lemma keys_deterministic_witness :
  keys letters_table = keys letters_table
  ∧ ∃ header, serialize letters_table = Ret header
            ∧ serialize letters_table = Ret header.
Proof.
  assert (constructed [(97, 10); (256, 1)] letters_table) as Hc.
  { apply (constructed_put_all [(97, 10); (256, 1)] [] new_hashmap letters_table);
      [constructor| |reflexivity].
    repeat constructor; cbn [fst snd]; unfold is_int, INT_MIN, INT_MAX; lia. }
  exact (keys_deterministic [(97, 10); (256, 1)] letters_table letters_table Hc Hc).
Defined.

Lemma operator_in_merges_witness :
  ∃ m', deserialize (chars "{97:10, 256:1}") other_table = Ret m'
      ∧ get m' 97 = Ret 10 ∧ get m' 1 = Ret 7 ∧ get m' 256 = Ret 1.
Proof.
  destruct (operator_in_merges other_table letters_table
              other_table_reachable letters_table_reachable)
    as (_ & m' & Hin & Hnew & Hold & _).
  exists m'. split; [exact Hin|]. split; [|split].
  - rewrite (Hnew 97); [reflexivity|]. apply (bool_decide_unpack _). by vm_compute.
  - rewrite (Hold 1); [reflexivity| |].
    + apply (bool_decide_unpack _). by vm_compute.
    + apply (bool_decide_unpack _). by vm_compute.
  - rewrite (Hnew 256); [reflexivity|]. apply (bool_decide_unpack _). by vm_compute.
Defined.

(* ===================================================================== *)
(** * Further properties of the code *)
(* ===================================================================== *)

(** ** hashmap.cpp *)

(** X1: on a table, [put(key, value)] with a key whose hash is not
    [INT_MIN] returns; afterwards [get(key)] returns [value],
    [containsKey(key)] is true, and [get] of every other key of the table
    returns what it returned before. *)
Theorem put_then_get m key value :
  reachable m → is_int key → is_int value → valid_key key →
  ∃ m', put m key value = Ret m' ∧ reachable m'
      ∧ get m' key = Ret value
      ∧ containsKey m' key = Ret true
      ∧ ∀ key', key' ≠ key → key' ∈ keys m → get m' key' = get m key'.
Proof.
  intros Hm Hik Hiv Hk. pose proof (reachable_wf m Hm) as Hwf.
  destruct (put_Ret m key value Hwf Hk) as [m' Hput].
  pose proof (put_wf m key value m' Hwf Hik Hiv Hput) as Hwf'.
  pose proof (table_lookup_put m key value m') as Hlook.
  exists m'. split; [done|]. split; [exact (reachable_put m key value m' Hm Hik Hiv Hput)|]. split; [|split].
  - apply get_present; [done|]. apply elem_of_entries; [done|].
    rewrite Hlook by done. by rewrite decide_True by done.
  - rewrite containsKey_spec by done. rewrite Hlook by done.
    by rewrite decide_True by done.
  - intros key' Hne Hin. destruct (get_key m key' Hwf Hin) as (v & Hv & ->).
    apply get_present; [done|]. apply elem_of_entries; [done|].
    rewrite Hlook by done. by rewrite decide_False by done.
Qed.

Lemma put_then_get_witness :
  ∃ m', put letters_table 1 5 = Ret m' ∧ get m' 1 = Ret 5 ∧ get m' 97 = Ret 10.
Proof.
  destruct (put_then_get letters_table 1 5 letters_table_reachable)
    as (m' & Hput & _ & Hget & _ & Hother).
  - unfold is_int, INT_MIN, INT_MAX. lia.
  - unfold is_int, INT_MIN, INT_MAX. lia.
  - apply valid_key_small. lia.
  - exists m'. split; [exact Hput|]. split; [exact Hget|].
    rewrite (Hother 97); [reflexivity|lia|].
    apply (bool_decide_unpack _). by vm_compute.
Defined.

(** X2: [get] of a key the table does not hold never finds a value:
    [containsKey] answers false; [get] throws the string
    "Error: Key is not in map." when no key of the table has the same
    bucket index, and returns 0 when some key of the table has it. *)
Theorem get_absent_key m key :
  reachable m → valid_key key → key ∉ keys m →
  containsKey m key = Ret false
  ∧ ((∀ k, k ∈ keys m → bucket_of k ≠ bucket_of key) →
     get m key = Throw (exn_cstr "Error: Key is not in map."))
  ∧ ((∃ k, k ∈ keys m ∧ bucket_of k = bucket_of key) → get m key = Ret 0).
Proof.
  intros Hm Hk Hnot. apply reachable_wf in Hm.
  assert (table_lookup m key = None) as Hnone.
  { rewrite elem_of_keys in Hnot by done.
    destruct (table_lookup m key); [|done]. by destruct Hnot. }
  split; [|split].
  - rewrite containsKey_spec by done. rewrite Hnone.
    apply f_equal, bool_decide_eq_false. by intros [? ?].
  - intros Hnone'. rewrite get_spec by done.
    by rewrite (proj2 (chain_of_nil m key Hm Hk) Hnone').
  - intros (k & Hin & Hb). rewrite get_spec by done. rewrite Hnone.
    destruct (chain_of m key) eqn:Hchain; [|done].
    by destruct (proj1 (chain_of_nil m key Hm Hk) Hchain k Hin).
Qed.

Lemma get_absent_key_witness :
  get letters_table 1 = Ret 0
  ∧ get letters_table 2 = Throw (exn_cstr "Error: Key is not in map.").
Proof.
  split.
  - apply (get_absent_key letters_table 1 letters_table_reachable).
    + apply valid_key_small. lia.
    + apply (bool_decide_unpack _). by vm_compute.
    + exists 97. split; [apply (bool_decide_unpack _)|]; by vm_compute.
  - apply (get_absent_key letters_table 2 letters_table_reachable).
    + apply valid_key_small. lia.
    + apply (bool_decide_unpack _). by vm_compute.
    + apply (Forall_forall (λ k, bucket_of k ≠ bucket_of 2) (keys letters_table)).
      repeat (apply Forall_cons; split; [by vm_compute|]). by apply Forall_nil.
Defined.

(** X3: [containsKey(key)] returns true exactly for the keys that
    [keys()] lists, and never throws. *)
Theorem containsKey_iff_keys m key :
  reachable m → valid_key key →
  containsKey m key = Ret (bool_decide (key ∈ keys m)).
Proof.
  intros Hm Hk. apply reachable_wf in Hm. rewrite containsKey_spec by done.
  f_equal. apply bool_decide_ext. symmetry. by apply elem_of_keys.
Qed.

Lemma containsKey_iff_keys_witness :
  containsKey letters_table 97 = Ret true ∧ containsKey letters_table 98 = Ret false.
Proof.
  split.
  - rewrite (containsKey_iff_keys letters_table 97 letters_table_reachable);
      [by vm_compute|]. apply valid_key_small. lia.
  - rewrite (containsKey_iff_keys letters_table 98 letters_table_reachable);
      [by vm_compute|]. apply valid_key_small. lia.
Defined.

(** X4: [keys()] lists no key twice, and [size()] is the number of keys
    listed, as an [int]. *)
Theorem size_counts_keys m :
  reachable m →
  NoDup (keys m)
  ∧ size m = to_int (Z.of_nat (length (keys m)))
  ∧ (Z.of_nat (length (keys m)) ≤ INT_MAX → size m = Z.of_nat (length (keys m))).
Proof.
  intros Hm. apply reachable_wf in Hm. split; [by apply NoDup_keys|].
  assert (size m = to_int (Z.of_nat (length (keys m)))) as Hsize.
  { unfold size. rewrite (wf_nElems m Hm), keys_entries by done.
    by rewrite length_fmap. }
  split; [done|]. intros Hle. rewrite Hsize. apply to_int_id.
  unfold is_int, INT_MIN, INT_MAX in *. lia.
Qed.

Lemma size_counts_keys_witness : size letters_table = 2.
Proof.
  destruct (size_counts_keys letters_table letters_table_reachable) as (_ & _ & Hsize).
  apply Hsize. by vm_compute.
Defined.

(** X5: [put] of a key the table holds leaves [keys()] and [size()] as
    they were; [put] of a new key adds that one key to [keys()], the
    other keys keeping their order, and adds one to [size()]. *)
Theorem put_keys_order m key value m' :
  reachable m → put m key value = Ret m' →
  (key ∈ keys m → keys m' = keys m ∧ size m' = size m)
  ∧ (key ∉ keys m →
     size m' = to_int (size m + 1)
     ∧ ∃ before after, keys m = before ++ after ∧ keys m' = before ++ key :: after).
Proof.
  intros Hm Hput. apply reachable_wf in Hm.
  destruct (put_keys_spec m key value m' Hm Hput) as (before & after & Hk & Hk' & Hn).
  unfold size. split.
  - intros Hin. rewrite bool_decide_eq_true_2 in Hk', Hn by done.
    split; [congruence|done].
  - intros Hnot. rewrite bool_decide_eq_false_2 in Hk', Hn by done.
    split; [done|]. by exists before, after.
Qed.

Lemma put_keys_order_witness :
  ∃ m', put letters_table 97 4 = Ret m' ∧ keys m' = [97; 256] ∧ size m' = 2.
Proof.
  eexists. split; [by vm_compute|].
  apply (put_keys_order letters_table 97 4 _ letters_table_reachable).
  - by vm_compute.
  - apply (bool_decide_unpack _). by vm_compute.
Defined.



(** X7: after [a = b] with two tables, [a] is [b]: the same keys in the
    same order with the same values, and the same [size()], whatever [a]
    held; assigning a table to itself leaves it as it is. *)
Theorem operator_assign_copies this myMap :
  reachable this → reachable myMap →
  operator_assign this (Some myMap) = Ret myMap
  ∧ operator_assign this None = Ret this.
Proof.
  intros Hthis Hmy. apply reachable_wf in Hthis. apply reachable_wf in Hmy.
  split; [|done]. unfold operator_assign, clear_buckets.
  rewrite (wf_nBuckets this Hthis), (wf_length this Hthis).
  change (Z.to_nat 10 <=? 10)%nat with true. cbn [mbind outcome_bind].
  rewrite drop_ge by (rewrite (wf_length this Hthis); done).
  rewrite copy_entries_keys by done.
  by apply put_all_entries.
Qed.

Lemma operator_assign_copies_witness :
  operator_assign other_table (Some letters_table) = Ret letters_table.
Proof.
  apply (operator_assign_copies other_table letters_table
           other_table_reachable letters_table_reachable).
Defined.

(** X8: the copy made by the copy constructor has the keys of the
    original in the same order and the same value for every key; its
    [size()] is the size of the original added to whatever the member
    [nElems], which the constructor does not initialise, held. *)
Theorem copy_hashmap_size uninit myMap :
  reachable myMap → is_int uninit →
  ∃ copy, copy_hashmap uninit myMap = Ret copy
        ∧ keys copy = keys myMap
        ∧ (∀ key, get copy key = get myMap key)
        ∧ size copy = to_int (size myMap + uninit).
Proof.
  intros Hmy Hu. apply reachable_wf in Hmy. unfold copy_hashmap.
  rewrite copy_entries_keys by done. rewrite (wf_nBuckets myMap Hmy).
  destruct (put_all_nElems (entries myMap) new_hashmap
              {| nBuckets := 10; buckets := createBucketArray 10; nElems := uninit |}
              myMap uninit) as (copy & Hcopy & Hb & Hn & He).
  - done.
  - done.
  - cbn [nElems new_hashmap]. by rewrite Z.add_0_l, to_int_id.
  - by apply put_all_entries.
  - exists copy. split; [done|]. split; [by apply keys_buckets|].
    split; [|done]. intros key. by apply get_buckets.
Qed.

Lemma copy_hashmap_size_witness :
  ∃ copy, copy_hashmap 7 letters_table = Ret copy
        ∧ keys copy = [97; 256] ∧ size copy = 9.
Proof.
  destruct (copy_hashmap_size 7 letters_table letters_table_reachable)
    as (copy & Hcopy & Hkeys & _ & Hsize).
  - unfold is_int, INT_MIN, INT_MAX. lia.
  - exists copy. split; [exact Hcopy|]. split; [exact Hkeys|exact Hsize].
Defined.

(** ** util.h *)

Section Codec_properties.
Context {PF : Platform} {PQ : PriorityQueue}.

(** X9: the table [buildFrequencyMap] makes of a source has as keys the
    values [int(c)] of the characters of the source and 256; 256 has the
    count 1 and a character its number of occurrences, as an [int]; the
    keys lie between -128 and 256, and between 0 and 256 where plain
    [char] is unsigned. *)
Theorem buildFrequencyMap_counts (source : list ascii) :
  ∃ m, buildFrequencyMap source new_hashmap = Ret m
     ∧ reachable m
     ∧ (∀ key, key ∈ keys m ↔ key = 256 ∨ ∃ c, c ∈ source ∧ int_of_char c = key)
     ∧ get m 256 = Ret 1
     ∧ (∀ c, c ∈ source →
          get m (int_of_char c)
          = Ret (to_int (Z.of_nat (occurrences (int_of_char c) source))))
     ∧ (Z.of_nat (length source) ≤ INT_MAX →
        ∀ c, c ∈ source →
          get m (int_of_char c) = Ret (Z.of_nat (occurrences (int_of_char c) source)))
     ∧ (∀ key, key ∈ keys m → -128 ≤ key ≤ 256)
     ∧ (char_is_signed = false → ∀ key, key ∈ keys m → 0 ≤ key ≤ 256).
Proof.
  destruct (buildFrequencyMap_spec source) as (m & Hm & Hwf & Hlook).
  pose proof (λ key, buildFrequencyMap_keys source m key Hm) as Hkeys.
  assert (∀ c, c ∈ source →
            get m (int_of_char c)
            = Ret (to_int (Z.of_nat (occurrences (int_of_char c) source)))) as Hget.
  { intros c Hc. apply get_present; [done|]. apply elem_of_entries; [done|].
    rewrite Hlook. pose proof (int_of_char_range c).
    rewrite decide_False by lia.
    assert (0 < occurrences (int_of_char c) source)%nat as Hpos.
    { apply occurrences_pos. eauto. }
    destruct (occurrences (int_of_char c) source); [lia|done]. }
  exists m. split; [done|]. split; [by apply wf_reachable|].
  split; [done|]. split; [|split; [done|split; [|split]]].
  - apply get_present; [done|]. apply elem_of_entries; [done|].
    by rewrite Hlook, decide_True.
  - intros Hlen c Hc. rewrite Hget by done. f_equal. apply to_int_id.
    pose proof (occurrences_le (int_of_char c) source).
    unfold is_int, INT_MIN, INT_MAX in *. lia.
  - intros key Hin. apply Hkeys in Hin as [->|(c & _ & <-)]; [lia|].
    pose proof (int_of_char_range c). lia.
  - intros Hunsigned key Hin. apply Hkeys in Hin as [->|(c & _ & <-)]; [lia|].
    pose proof (byte_value_range c). unfold int_of_char. rewrite Hunsigned.
    cbn [andb]. lia.
Qed.

(** X10: [buildFrequencyMap] on a table that already has entries adds
    to them: a key of the table other than 256 holds its former value
    plus the occurrences in the source, 256 holds 1 whatever it held,
    and the keys are those of the table, those of the source and 256. *)
Theorem buildFrequencyMap_accumulates (source : list ascii) (h : hashmap) :
  reachable h →
  ∃ m, buildFrequencyMap source h = Ret m
     ∧ reachable m
     ∧ get m 256 = Ret 1
     ∧ (∀ key, key ∈ keys m ↔
               key ∈ keys h ∨ key = 256 ∨ ∃ c, c ∈ source ∧ int_of_char c = key)
     ∧ (∀ key v, key ≠ 256 → key ∈ keys h → get h key = Ret v →
          get m key = Ret (to_int (v + Z.of_nat (occurrences key source)))).
Proof.
  intros Hh. apply reachable_wf in Hh.
  destruct (buildFrequencyMap_general source h Hh) as (m & Hm & Hwf & Hlook).
  assert (∀ key v, table_lookup h key = Some v → is_int v) as Hint.
  { intros key v Hv. by apply (table_lookup_is_int h key). }
  exists m. split; [done|]. split; [by apply wf_reachable|]. split; [|split].
  - apply get_present; [done|]. apply elem_of_entries; [done|].
    by rewrite Hlook, decide_True.
  - intros key. rewrite !elem_of_keys, Hlook by done. case_decide; [naive_solver|].
    rewrite add_count_Some by (intros v Hv; by eapply Hint).
    rewrite occurrences_pos. naive_solver.
  - intros key v Hne Hin Hget.
    destruct (get_key h key Hh Hin) as (v' & Hv' & Hget').
    rewrite Hget' in Hget. apply Ret_inj in Hget. subst v'.
    apply get_present; [done|]. apply elem_of_entries; [done|].
    rewrite Hlook, decide_False, Hv' by done. apply add_count_value. by eapply Hint.
Qed.

(** X11: [encode] never fails, whatever the map: the string returned is
    made of the codewords the map has for the characters of the input, in
    order, and for 256, a symbol the map lacks contributing nothing; the
    bit count is the size passed in plus the length of that string, as an
    [int]; the symbols the map lacked are added to it with the empty
    codeword; the output stream is written only if [makeFile] is set. *)
Theorem encode_any_map (encodingMap : hashmapE) (input : list ascii)
    (output : obitstream) (size : Z) (makeFile : bool) :
  let encoded := ((int_of_char <$> input) ≫= codeword encodingMap)
                 ++ codeword encodingMap 256 in
  ∃ encodingMap',
    encode input encodingMap output size makeFile
    = (encoded, encodingMap',
       if makeFile then write_bits output encoded else output,
       to_int (size + Z.of_nat (length encoded)))
    ∧ ∀ key, encodingMap' !! key =
             match encodingMap !! key with
             | Some str => Some str
             | None =>
                 if bool_decide (key ∈ (int_of_char <$> input) ++ [256])
                 then Some [] else None
             end.
Proof.
  intros encoded. eexists. split; [apply encode_general|].
  intros key. apply index_all_lookup.
Qed.

(** X12: the file [compress] writes is the header of the frequency table
    of the input followed by the payload; the payload holds the bits of
    the string returned, first bit in the lowest bit of the first byte,
    then fewer than eight zero bits, so its length is the length of the
    string divided by eight and rounded up. *)
Theorem compress_container_layout (file : list ascii) :
  ∃ m header encoded payload pad,
    buildFrequencyMap file new_hashmap = Ret m
    ∧ serialize m = Ret header
    ∧ compress file = Ret (encoded, header ++ payload)
    ∧ Forall is_bit_char encoded
    ∧ bytes_bits payload = pattern_bits encoded ++ replicate pad 0
    ∧ (pad < 8)%nat
    ∧ (8 * length payload = length encoded + pad)%nat.
Proof.
  destruct (compress_layout file)
    as (m & t & encodingMap & payload & pad & Hm & Hwf & Ht & Hshape & Hleaves
        & Hmap & Hsyms & Heos & Hpad & Hcompress & Hbits).
  cbv zeta in Hcompress, Hbits.
  exists m, (header_text (entries m)),
    (((int_of_char <$> file) ≫= codeword encodingMap) ++ codeword encodingMap 256),
    payload, pad.
  split; [done|]. split; [by apply serialize_spec|]. split; [done|].
  split; [|split; [done|split; [done|]]].
  - apply Forall_app. split.
    + apply Forall_forall. intros b Hb. apply list_elem_of_bind in Hb as (x & Hb & Hx).
      rewrite Forall_forall in Hsyms. destruct (Hsyms x Hx) as (_ & _ & Hpath).
      pose proof (leaf_paths_bits t [] x _ (Forall_nil_2 _) Hpath) as Hall.
      rewrite Forall_forall in Hall. by apply Hall.
    + exact (leaf_paths_bits t [] 256 _ (Forall_nil_2 _) Heos).
  - apply (f_equal length) in Hbits.
    by rewrite bytes_bits_length, length_app, length_replicate, pattern_bits_length in Hbits.
Qed.

(** X13: [decompress] stops at the end-of-stream codeword: the container
    [compress] wrote, followed by any bytes at all, is decompressed to
    the original input. *)
Theorem decompress_ignores_trailing_bytes (file extra : list ascii) :
  ∃ encoded container,
    compress file = Ret (encoded, container)
    ∧ decompress (container ++ extra) = Ret (file, file).
Proof. apply decompress_compress_trailing. Qed.

(** X14: the encoding map built for a table has a codeword for exactly
    the keys of the table other than 257; the codeword of a key is the
    path from the root to the leaf of that key, made of the characters 0
    and 1; it has fewer characters than the table has keys, so it is
    empty when the key is the only one, and it is not empty when the table
    has two keys or more. *)
Theorem encoding_map_codewords m t encodingMap :
  reachable m → keys m ≠ [] →
  buildEncodingTree m = Ret t →
  buildEncodingMap t = Ret encodingMap →
  (∀ key, is_Some (encodingMap !! key) ↔ key ∈ keys m ∧ key ≠ 257)
  ∧ (∀ key str, encodingMap !! key = Some str →
       (key, str) ∈ leaf_paths t [] ∧ Forall is_bit_char str)
  ∧ (∀ key str, encodingMap !! key = Some str → (length str < length (keys m))%nat)
  ∧ ((2 ≤ length (keys m))%nat →
     ∀ key str, encodingMap !! key = Some str → str ≠ []).
Proof.
  intros Hm Hkeys Ht Hmap. pose proof (reachable_wf m Hm) as Hwf.
  assert (huffman_tree t ∧ leaves t ≡ₚ entries m) as [Hshape Hleaves].
  { rewrite keys_entries in Hkeys by done.
    destruct (buildEncodingTree_spec m Hwf) as (t' & Ht' & ? & ?).
    - by intros Hnil; rewrite Hnil in Hkeys.
    - rewrite Ht' in Ht. apply Ret_inj in Ht. by subst t'. }
  pose proof Hmap as Hmap'.
  rewrite (buildEncodingMap_spec t Hshape) in Hmap'. apply Ret_inj in Hmap'.
  assert (∀ key str, encodingMap !! key = Some str →
            key ≠ 257 ∧ (key, str) ∈ leaf_paths t []) as Hpath.
  { intros key str Hlook. rewrite <-Hmap' in Hlook.
    apply foldl_insert_path_Some in Hlook as [Hlook|Hlook]; [|done].
    by rewrite lookup_empty in Hlook. }
  assert ((leaf_paths t []).*1 ≡ₚ keys m) as Hperm.
  { rewrite leaf_paths_fst, keys_entries by done. by rewrite Hleaves. }
  assert (length (leaves t) = length (keys m)) as Hlen.
  { rewrite keys_entries, length_fmap by done. by rewrite Hleaves. }
  split; [|split; [|split]].
  - intros key. split.
    + intros [str Hlook]. destruct (Hpath key str Hlook) as [Hne Hin].
      split; [|done]. rewrite <-Hperm. apply list_elem_of_fmap. by exists (key, str).
    + intros [Hin Hne]. by apply (key_codeword m t encodingMap key).
  - intros key str Hlook. destruct (Hpath key str Hlook) as [_ Hin].
    split; [done|]. exact (leaf_paths_bits t [] key str (Forall_nil_2 _) Hin).
  - intros key str Hlook. destruct (Hpath key str Hlook) as [_ Hin].
    pose proof (leaf_paths_length t Hshape [] key str Hin) as Hbound.
    rewrite Hlen in Hbound. cbn [length] in Hbound. lia.
  - intros Htwo key str Hlook. destruct (Hpath key str Hlook) as [_ Hin].
    rewrite <-Hlen in Htwo.
    destruct (huffman_tree_link t Hshape Htwo) as (n & zero & one & -> & Hz & _).
    apply (leaf_paths_nonempty n zero one key str Hshape); [|done].
    by apply huffman_tree_not_null.
Qed.

(** X15: in the tree built for a table, at every node with children the
    zero child is the node that came out of the priority queue first:
    its count is at most the count of the one child. *)
Theorem buildEncodingTree_children_ordered m t :
  reachable m → keys m ≠ [] →
  buildEncodingTree m = Ret t → ordered_children t.
Proof.
  intros Hm Hkeys Ht. apply reachable_wf in Hm.
  apply (buildEncodingTree_ordered m t Hm); [|done].
  rewrite keys_entries in Hkeys by done. by intros Hnil; rewrite Hnil in Hkeys.
Qed.

(** X16: a header with one symbol other than the end-of-stream symbol,
    followed by at least one byte: once [decode] has read the first bit it
    follows a null child pointer of the single leaf and dereferences it. *)
Theorem decompress_single_symbol_header key value payload :
  is_int key → is_int value → valid_key key → key ≠ 256 → payload ≠ [] →
  decompress (header_text [(key, value)] ++ payload) = Undefined.
Proof.
  intros Hk Hv Hvalid H256 Hpay.
  destruct (put_Ret new_hashmap key value new_hashmap_wf Hvalid) as [m Hput].
  pose proof (put_wf _ _ _ _ new_hashmap_wf Hk Hv Hput) as Hwf.
  pose proof (entries_put_new key value m Hk Hv Hput) as Hentries.
  unfold decompress.
  rewrite (operator_in_general [(key, value)] new_hashmap payload)
    by (apply Forall_cons; split; [done|apply Forall_nil_2]).
  cbn [put_all]. rewrite Hput. simpl_outcome.
  destruct (buildEncodingTree_spec m Hwf) as (t & Ht & Hshape & Hleaves);
    [by rewrite Hentries|].
  rewrite Hentries in Hleaves.
  rewrite (huffman_tree_single t _ Hshape Hleaves) in Ht. rewrite Ht. simpl_outcome.
  destruct payload as [|c payload]; [done|].
  rewrite (decode_single_leaf key value _ [] (GetNthBit 0 (byte_value c))
             (tail (byte_bits c) ++ bytes_bits payload)); [done|done| |].
  - apply bit_ready_header.
  - by rewrite pending_bits_header, bytes_bits_cons.
Qed.

(** X17: when the header holds two symbols or more and none is 257,
    [decompress] returns whatever bytes follow the header: no bit
    sequence leads [decode] to a null pointer, and the string returned is
    the text written to the output. *)
Theorem decompress_any_payload m payload :
  reachable m → (2 ≤ length (keys m))%nat → 257 ∉ keys m →
  ∃ decoded, decompress (header_text (entries m) ++ payload) = Ret (decoded, decoded).
Proof.
  intros Hm Htwo H257. apply reachable_wf in Hm.
  assert (entries m ≠ []) as Hne.
  { intros Hnil. rewrite keys_entries, Hnil in Htwo by done. simpl in Htwo. lia. }
  destruct (buildEncodingTree_spec m Hm Hne) as (t & Ht & Hshape & Hleaves).
  destruct (decode_total t
              (advance (open_ibitstream (header_text (entries m) ++ payload))
                       (length (header_text (entries m)))) [] Hshape)
    as (decoded & s' & Hdecode).
  - rewrite Hleaves. by rewrite keys_entries, length_fmap in Htwo.
  - rewrite Hleaves. apply Forall_forall. intros [k v] Hin Heq. cbn [fst] in Heq.
    subst k. apply H257. rewrite keys_entries by done.
    apply list_elem_of_fmap. by exists (257, v).
  - apply bit_ready_header.
  - exists decoded. unfold decompress. rewrite operator_in_header by done.
    simpl_outcome. rewrite Ht. simpl_outcome. by rewrite Hdecode.
Qed.

End Codec_properties.

(** ** The properties of util.h on concrete tables and files *)

Lemma buildFrequencyMap_accumulates_witness :
  ∃ m, @buildFrequencyMap signed_char (chars "ab") letters_table = Ret m
     ∧ get m 97 = Ret 11 ∧ get m 256 = Ret 1.
Proof.
  destruct (@buildFrequencyMap_accumulates signed_char (chars "ab") letters_table
              letters_table_reachable) as (m & Hm & _ & H256 & _ & Hadd).
  exists m. split; [exact Hm|]. split; [|exact H256].
  apply (Hadd 97 10).
  - lia.
  - apply (bool_decide_unpack _). by vm_compute.
  - by vm_compute.
Defined.

Lemma encoding_map_codewords_witness :
  is_Some ((<[97 := ["1"%char]]> (<[256 := ["0"%char]]> (∅ : hashmapE))) !! 97)
  ↔ 97 ∈ keys letters_table ∧ 97 ≠ 257.
Proof.
  apply (@encoding_map_codewords list_queue letters_table
           (Node 257 11 (Node 256 1 nullptr nullptr) (Node 97 10 nullptr nullptr))
           (<[97 := ["1"%char]]> (<[256 := ["0"%char]]> ∅))
           letters_table_reachable).
  - by vm_compute.
  - by vm_compute.
  - by vm_compute.
Defined.

Lemma buildEncodingTree_children_ordered_witness :
  ordered_children
    (Node 257 11 (Node 256 1 nullptr nullptr) (Node 97 10 nullptr nullptr)).
Proof.
  apply (@buildEncodingTree_children_ordered list_queue letters_table _
           letters_table_reachable).
  - by vm_compute.
  - by vm_compute.
Defined.

Lemma decompress_single_symbol_header_witness :
  @decompress list_queue (chars "{97:3}" ++ chars "abc") = Undefined.
Proof.
  apply (@decompress_single_symbol_header list_queue 97 3 (chars "abc")).
  - unfold is_int, INT_MIN, INT_MAX. lia.
  - unfold is_int, INT_MIN, INT_MAX. lia.
  - apply valid_key_small. lia.
  - lia.
  - done.
Defined.

Lemma decompress_any_payload_witness :
  ∃ decoded,
    @decompress list_queue (chars "{97:10, 256:1}" ++ chars "any bytes")
    = Ret (decoded, decoded).
Proof.
  apply (@decompress_any_payload list_queue letters_table (chars "any bytes")
           letters_table_reachable).
  - vm_compute. lia.
  - apply (bool_decide_unpack _). by vm_compute.
Defined.

(** ** hashmap.cpp: the stream operators *)

(** X18: [in >> myMap] on the text [{k1:v1, k2:v2, ...}], whatever
    follows it, does [put(k1, v1)], [put(k2, v2)], ... in that order on
    the table and leaves the stream at the byte behind the closing brace;
    when one of the [put]s fails it fails in the same way. *)
Theorem operator_in_puts_entries es m payload :
  Forall (λ e, is_int e.1 ∧ is_int e.2) es →
  operator_in (open_ibitstream (header_text es ++ payload)) m
  = m' ← put_all m es;
    Ret (advance (open_ibitstream (header_text es ++ payload))
                 (length (header_text es)), m').
Proof. apply operator_in_general. Qed.

Lemma operator_in_puts_entries_witness :
  operator_in (open_ibitstream (chars "{1002417892:1}" ++ chars "payload")) new_hashmap
  = Undefined.
Proof.
  change (chars "{1002417892:1}") with (header_text [(1002417892, 1)]).
  rewrite (operator_in_puts_entries [(1002417892, 1)] new_hashmap (chars "payload")).
  - by vm_compute.
  - apply Forall_cons. split; [|apply Forall_nil_2].
    unfold is_int, INT_MIN, INT_MAX. cbn [fst snd]. lia.
Defined.

(** X19: when no comma and no closing brace follows the first byte of
    the file, [in >> myMap] does not return: at the end of the file
    [get()] returns [EOF] for ever and the loop that collects an entry
    goes on; so does [decompress] of such a file, the empty file
    included. *)
Theorem operator_in_unterminated_header text m :
  Forall token_char (drop 1 text) →
  operator_in (open_ibitstream text) m = Diverges
  ∧ ∀ (PQ : PriorityQueue), @decompress PQ text = Diverges.
Proof.
  intros Htok. split; [by apply operator_in_unterminated|].
  intros PQ. unfold decompress. by rewrite operator_in_unterminated.
Qed.

Lemma operator_in_unterminated_header_witness :
  operator_in (open_ibitstream (chars "{97:3")) new_hashmap = Diverges.
Proof.
  apply (operator_in_unterminated_header (chars "{97:3") new_hashmap).
  repeat (apply Forall_cons; split; [by vm_compute|]). apply Forall_nil_2.
Defined.

(** X20: the header [{}] of an empty table: [buildEncodingTree] takes
    the top of an empty priority queue, so [decompress] of a file that
    starts with it is undefined. *)
Theorem decompress_empty_table_header (payload : list ascii) :
  @buildEncodingTree list_queue new_hashmap = Undefined
  ∧ @decompress list_queue (chars "{}" ++ payload) = Undefined.
Proof.
  split; [done|]. unfold decompress.
  change (chars "{}") with (header_text []).
  rewrite (operator_in_general [] new_hashmap payload) by apply Forall_nil_2.
  done.
Qed.

(** ** bitstream.h *)

(** X21: bits written with [writeBit] behind a text are stored eight to
    a byte, the first in the lowest bit, the last byte filled up with
    zeros; [readBit] on the file, from behind the text, returns the bits
    written in order, then the filling zeros, then [EOF]. *)
Theorem writeBit_readBit_round_trip (text : list ascii) (bits : list Z) :
  Forall is_bit bits →
  ∃ payload pad s',
    obuf (write_all (ostream_write new_obitstream text) bits) = text ++ payload
    ∧ bytes_bits payload = bits ++ replicate pad 0
    ∧ (pad < 8)%nat
    ∧ (8 * length payload = length bits + pad)%nat
    ∧ read_bits (length bits + pad)
        (advance (open_ibitstream (text ++ payload)) (length text))
      = (bits ++ replicate pad 0, s')
    ∧ (readBit s').1 = EOF.
Proof.
  intros Hbits. rewrite ostream_write_new.
  set (out := appended new_obitstream text).
  assert (writing text [] out) as Hw.
  { apply writing_none; [done|apply at_end_appended|done|by right]. }
  pose proof (write_all_writing text bits [] out Hw Hbits) as Hw'.
  destruct (writing_pad _ _ _ Hw') as (payload & pad & Hbuf & Hpay & Hpad).
  cbn [app] in Hpay.
  destruct (read_bits_pending (bits ++ replicate pad 0)
              (advance (open_ibitstream (text ++ payload)) (length text)) [])
    as (s' & Hread & Hready & Hpend & _).
  { apply bit_ready_header. }
  { by rewrite pending_bits_header, app_nil_r. }
  exists payload, pad, s'. split; [done|]. split; [done|]. split; [done|].
  split; [|split].
  - apply (f_equal length) in Hpay.
    by rewrite bytes_bits_length, length_app, length_replicate in Hpay.
  - by rewrite length_app, length_replicate in Hread.
  - by destruct (readBit_nil s' Hready Hpend).
Qed.

Lemma writeBit_readBit_round_trip_witness :
  ∃ payload pad s',
    obuf (write_all (ostream_write new_obitstream (chars "{}")) [1; 0; 1])
    = chars "{}" ++ payload
    ∧ bytes_bits payload = [1; 0; 1] ++ replicate pad 0
    ∧ (pad < 8)%nat
    ∧ (8 * length payload = length [1; 0; 1] + pad)%nat
    ∧ read_bits (length [1; 0; 1] + pad)
        (advance (open_ibitstream (chars "{}" ++ payload)) (length (chars "{}")))
      = ([1; 0; 1] ++ replicate pad 0, s')
    ∧ (readBit s').1 = EOF.
Proof.
  apply (writeBit_readBit_round_trip (chars "{}") [1; 0; 1]).
  repeat (apply Forall_cons; split; [by (left + right)|]). apply Forall_nil_2.
Defined.

(** X22: in fake mode [writeBit] writes the character 1 for the bit 1
    and the character 0 for the bit 0, and [readBit] reads the bits back
    from these characters; at the end of the file it returns 1, not
    [EOF]. *)
Theorem fake_mode_round_trip (bits : list Z) :
  Forall is_bit bits →
  ∃ s',
    obuf (write_all (obitstream_setFake new_obitstream true) bits) = fake_char <$> bits
    ∧ read_bits (length bits)
        (ibitstream_setFake (open_ibitstream (fake_char <$> bits)) true)
      = (bits, s')
    ∧ (readBit s').1 = 1.
Proof.
  intros Hbits.
  destruct (write_all_fake bits (obitstream_setFake new_obitstream true))
    as [Hbuf _]; [done|done|].
  destruct (read_bits_fake bits
              (ibitstream_setFake (open_ibitstream (fake_char <$> bits)) true))
    as (s' & Hread & Hfake & Hgood & Hun); [done|done|done| |].
  { unfold unread. cbn [gpos ibuf ibitstream_setFake open_ibitstream]. by rewrite drop_0. }
  exists s'. split; [done|]. split; [done|].
  unfold readBit. rewrite Hfake.
  destruct (istream_get_nil s' Hgood Hun) as [Hc _].
  destruct (istream_get s') as [c s'']. cbn [fst] in Hc. by subst c.
Qed.

Lemma fake_mode_round_trip_witness :
  ∃ s',
    obuf (write_all (obitstream_setFake new_obitstream true) [1; 0]) = fake_char <$> [1; 0]
    ∧ read_bits (length [1; 0])
        (ibitstream_setFake (open_ibitstream (fake_char <$> [1; 0])) true)
      = ([1; 0], s')
    ∧ (readBit s').1 = 1.
Proof.
  apply (fake_mode_round_trip [1; 0]).
  repeat (apply Forall_cons; split; [by (left + right)|]). apply Forall_nil_2.
Defined.

(** X23: [rewind()] after any number of calls of [readBit], also past
    the end of the file, puts the stream back at the first bit: the
    next calls of [readBit] return the bits of the file from the
    beginning, and [EOF] after the last one. *)
Theorem rewind_restarts_bits (file : list ascii) (n : nat) :
  ∃ s',
    read_bits (8 * length file) (rewind (read_bits n (open_ibitstream file)).2)
    = (bytes_bits file, s')
    ∧ (readBit s').1 = EOF.
Proof.
  pose proof (bit_reader_read_bits file n _ (bit_reader_open file)) as Hreader.
  destruct (rewind_ready file _ Hreader) as [Hready Hpend].
  destruct (read_bits_pending (bytes_bits file)
              (rewind (read_bits n (open_ibitstream file)).2) [] Hready)
    as (s' & Hread & Hready' & Hpend' & _).
  { by rewrite app_nil_r. }
  exists s'. rewrite bytes_bits_length in Hread. split; [done|].
  by destruct (readBit_nil s' Hready' Hpend').
Qed.

(** ** The driver *)

Section Driver.
Context {PF : Platform}.


End Driver.


(** ** The priority queue and the container *)

(** X25: the header does not fix the tree: two priority queues that
    keep the laws of [std::priority_queue] and differ in which of several
    nodes of equal count comes out first build different trees from the
    same table.  A file of one byte compressed with the one is decompressed
    with the other to the empty string. *)
Theorem round_trip_needs_same_queue `{PF : Platform} (c : ascii) :
  ∃ encoded container,
    @compress PF list_queue [c] = Ret (encoded, container)
    ∧ @decompress list_queue container = Ret ([c], [c])
    ∧ @decompress stack_queue container = Ret ([], []).
Proof.
  destruct PF as [[|]];
    destruct c as [[|] [|] [|] [|] [|] [|] [|] [|]];
    (eexists _, _; split; [by vm_compute|split; by vm_compute]).
Qed.

(** ** The table as a function of its construction *)

(** X26: [keys()] lists the keys bucket by bucket, by increasing bucket
    index [hashFunction(key) % 10], and inside a bucket in the order in
    which the keys were first put. *)
Theorem keys_iteration_order ops m :
  constructed ops m →
  keys m = flat_map (λ i, filter (λ key, bucket_of key = i) (first_keys ops.*1))
                    (seq 0 10).
Proof. apply constructed_keys. Qed.

Lemma keys_iteration_order_witness :
  keys other_table = [1; 97].
Proof.
  rewrite (keys_iteration_order [(1, 5); (97, 8); (1, 7)] other_table).
  - by vm_compute.
  - apply (constructed_put_all [(1, 5); (97, 8); (1, 7)] [] new_hashmap other_table);
      [constructor| |reflexivity].
    repeat constructor; cbn [fst snd]; unfold is_int, INT_MIN, INT_MAX; lia.
Defined.

(** X27: a table holds exactly the keys that were put, and [get(key)]
    returns the value of the last [put] of that key. *)
Theorem get_returns_last_put ops m :
  constructed ops m →
  (∀ key, key ∈ keys m ↔ key ∈ ops.*1)
  ∧ (∀ key value, last_put ops key = Some value →
       get m key = Ret value ∧ containsKey m key = Ret true).
Proof.
  intros Hc. pose proof (constructed_wf _ _ Hc) as Hwf.
  pose proof (constructed_lookup ops m Hc) as Hlook. split.
  - intros key. by rewrite elem_of_keys, Hlook, last_put_is_Some.
  - intros key value Hlast. rewrite <-Hlook in Hlast.
    assert ((key, value) ∈ entries m) as Hin by (by apply elem_of_entries).
    split; [by apply get_present|].
    apply elem_of_entries_bucket in Hin as [Hvalid _]; [|done].
    rewrite containsKey_spec, Hlast by done. done.
Qed.

Lemma get_returns_last_put_witness :
  get other_table 1 = Ret 7 ∧ containsKey other_table 1 = Ret true.
Proof.
  apply (get_returns_last_put [(1, 5); (97, 8); (1, 7)] other_table).
  - apply (constructed_put_all [(1, 5); (97, 8); (1, 7)] [] new_hashmap other_table);
      [constructor| |reflexivity].
    repeat constructor; cbn [fst snd]; unfold is_int, INT_MIN, INT_MAX; lia.
  - by vm_compute.
Defined.
